(** * Span sampling and cross-replica gathering for the contrastive text encoder

    A shallow embedding of [t2t/models/contrastive_text_encoder_util.py]:
    [get_world_size], [sample_anchor_positive_pairs] and
    [all_gather_anchor_positive_pairs].

    The three functions are written in a small state-and-exception monad over
    the state of one Python process: the tensor objects it has allocated, their
    storages, the random source and the distributed runtime.  The library
    calls the source makes ([torch], [random], [torch.distributed]) are
    modelled in modules of the same names, from their documented behaviour. *)

From stdpp Require Import base numbers list gmap strings.

Set Default Proof Using "Type".

(** ** The Python process *)

(** The exceptions the three functions can meet. *)
Inductive exn :=
  | KeyError (key : string)
  | ValueError
  | IndexError
  | AssertionError
  | RuntimeError.

Global Instance exn_eq_dec : EqDecision exn.
Proof. solve_decision. Defined.

(** Objects are named by their allocation number, storages likewise. *)
Abbreviation ref := nat (only parsing).
Abbreviation loc := nat (only parsing).

(** The autograd history of a tensor: either recorded before this code ran
    (the encoder's graph), or a backward node of an operation performed here,
    with one edge per input; the edge is absent for an input that carries no
    history. *)
Inductive node :=
  | Produced (by_graph : nat)
  | Backward (op : string) (next_functions : list (option ref)).

(** The devices that hold the data of a tensor: the host, or one of the
    accelerators.  A tensor on the [meta] device holds no data and has no
    storage; it is not an object of this model. *)
Inductive device :=
  | cpu
  | cuda (ordinal : nat).

Global Instance device_eq_dec : EqDecision device.
Proof. solve_decision. Defined.

(** A tensor object is a strided view of a storage. *)
Record tensor := Tensor {
  t_storage : loc;
  t_offset : nat;
  t_sizes : list nat;
  t_strides : list nat;
  t_device : device;
  t_grad_fn : option node
}.

(** The random source reads an entropy tape.  The loops of the library that
    draw again until they see a value they have not selected end on it:
    read modulo any [n], the tape shows within [patience c n] entries of
    position [c] a value outside any list of fewer than [n] values. *)
Definition fair (values : nat → nat) (patience : nat → nat → nat) : Prop :=
  ∀ c n (avoid : list nat), length avoid < n →
    ∃ k, k < patience c n ∧ values (c + k) `mod` n ∉ avoid.

Record tape := Tape {
  tape_values :> nat → nat;
  patience : nat → nat → nat;
  tape_fair : fair tape_values patience
}.

(** The tape that starts with the entries of [script] and goes on
    counting: its entry at a later position is the position itself. *)
Definition scripted_values (script : list nat) (c : nat) : nat :=
  default c (script !! c).

Lemma residues_distinct a n k k' :
  k < n → k' < n → (a + k) `mod` n = (a + k') `mod` n → k = k'.
Proof.
  intros Hk Hk' Heq.
  pose proof (Nat.div_mod_eq (a + k) n) as H1.
  pose proof (Nat.div_mod_eq (a + k') n) as H2.
  rewrite Heq in H1.
  assert ((a + k) `div` n = (a + k') `div` n) by nia.
  nia.
Qed.

Lemma residue_outside a n (avoid : list nat) :
  length avoid < n → ∃ k, k < n ∧ (a + k) `mod` n ∉ avoid.
Proof.
  intros Hlen.
  set (l := (λ k, (a + k) `mod` n) <$> seq 0 n).
  assert (NoDup l) as Hnd.
  { apply NoDup_fmap_2_strong; [|apply NoDup_seq].
    intros k k' [_ Hk]%elem_of_seq [_ Hk']%elem_of_seq.
    by apply residues_distinct. }
  destruct (decide (Forall (λ x, x ∈ avoid) l)) as [Hall|Hnot].
  - assert (l ⊆+ avoid) as Hsub
      by (apply NoDup_submseteq; [done|by apply Forall_forall]).
    apply submseteq_length in Hsub.
    unfold l in Hsub. rewrite length_fmap, length_seq in Hsub. lia.
  - apply not_Forall_Exists in Hnot; [|apply _].
    apply Exists_exists in Hnot as (x & Hin & Hx).
    apply list_elem_of_fmap in Hin as (k & -> & [_ Hk]%elem_of_seq).
    by exists k.
Qed.

Lemma scripted_fair script :
  fair (scripted_values script) (λ _ n, length script + n).
Proof.
  intros c n avoid Hlen.
  destruct (residue_outside (c `max` length script) n avoid Hlen)
    as (k & Hk & Hout).
  exists (c `max` length script - c + k). split; [lia|].
  replace (c + (c `max` length script - c + k))
    with (c `max` length script + k) by lia.
  unfold scripted_values. rewrite lookup_ge_None_2 by lia. done.
Qed.

Definition scripted (script : list nat) : tape :=
  Tape (scripted_values script) (λ _ n, length script + n)
       (scripted_fair script).

(** The random source: an entropy tape and the number of draws made. *)
Record generator := Generator {
  entropy : tape;
  cursor : nat
}.

(** The default process group, once [init_process_group] has been called. *)
Record process_group := ProcessGroup {
  world_size : nat;
  rank : nat
}.

Section process.
Context {A : Type}.

(** The distributed runtime: the group (absent before initialisation), what
    each rank contributes to each collective, the number of collectives
    this process has taken part in, and the exception the library raises
    when it is asked for the default group before initialisation.  That
    exception depends on the release of the library: an [AssertionError]
    up to torch 1.7, a [RuntimeError] from 1.8 to 2.0, a [ValueError]
    since. *)
Record runtime := Runtime {
  group : option process_group;
  wire : nat → nat → list A;
  collectives : nat;
  not_initialized : exn
}.

Record state := State {
  objects : list tensor;
  storages : list (list A);
  rng : generator;
  dist_rt : runtime
}.

(** A computation returns a value or raises; the state survives a raise. *)
Definition M (X : Type) : Type := state → (exn + X) * state.

Definition ret {X} (x : X) : M X := λ σ, (inr x, σ).

Definition bind {X Y} (m : M X) (k : X → M Y) : M Y := λ σ,
  match m σ with
  | (inl e, σ') => (inl e, σ')
  | (inr x, σ') => k x σ'
  end.

Definition raise {X} (e : exn) : M X := λ σ, (inl e, σ).

(** [try: m  except e: h] for the one exception [e] the handler names. *)
Definition try_except {X} (m : M X) (e : exn) (h : M X) : M X := λ σ,
  match m σ with
  | (inl e', σ') => if decide (e' = e) then h σ' else (inl e', σ')
  | (inr x, σ') => (inr x, σ')
  end.

Definition get_state : M state := λ σ, (inr σ, σ).

Definition from_option {X} (e : exn) (o : option X) : M X :=
  match o with Some x => ret x | None => raise e end.

Definition check (b : bool) (e : exn) : M unit :=
  if b then ret () else raise e.
End process.

Arguments runtime : clear implicits.
Arguments state : clear implicits.
Arguments M : clear implicits.

Global Instance M_ret {A} : MRet (M A) := @ret A.
Global Instance M_bind {A} : MBind (M A) := λ X Y k m, bind m k.

(** ** [torch]: strided tensors *)

Module torch.
Section torch.
Context {A : Type}.
Implicit Types (σ : state A) (t : tensor) (idx sh : list nat).

(** *** Layout *)

Definition numel (sh : list nat) : nat := foldr Nat.mul 1 sh.

Fixpoint contiguous_strides (sh : list nat) : list nat :=
  match sh with
  | [] => []
  | _ :: rest => numel rest :: contiguous_strides rest
  end.

(** All positions of a tensor of the given sizes, in row-major order. *)
Fixpoint indices (sh : list nat) : list (list nat) :=
  match sh with
  | [] => [[]]
  | n :: rest => i ← seq 0 n; (i ::.) <$> indices rest
  end.

Definition linear (idx st : list nat) : nat :=
  sum_list (zip_with Nat.mul idx st).

Definition address t idx : nat := t_offset t + linear idx (t_strides t).

(** The cells of its storage a view can reach. *)
Definition footprint t : list nat := address t <$> indices (t_sizes t).

(** The element of a tensor at a position, and all of them in order. *)
Definition peek σ t idx : option A :=
  s ← storages σ !! t_storage t; s !! address t idx.

Definition contents σ t : option (list A) :=
  mapM (peek σ t) (indices (t_sizes t)).

(** An element-wise in-place write through a view. *)
Definition write t (data : list A) (s : list A) : list A :=
  foldr (λ '(a, x) s, <[a:=x]> s) s (zip (footprint t) data).

(** *** The object store *)

Definition deref (r : ref) : M A tensor :=
  σ ← get_state; from_option RuntimeError (objects σ !! r).

Definition new_object t : M A ref := λ σ,
  (inr (length (objects σ)),
   State (objects σ ++ [t]) (storages σ) (rng σ) (dist_rt σ)).

Definition new_storage (data : list A) : M A loc := λ σ,
  (inr (length (storages σ)),
   State (objects σ) (storages σ ++ [data]) (rng σ) (dist_rt σ)).

Definition set_storage (l : loc) (data : list A) : M A unit := λ σ,
  (inr (), State (objects σ) (<[l:=data]> (storages σ)) (rng σ) (dist_rt σ)).

Definition has_history t : bool :=
  match t_grad_fn t with Some _ => true | None => false end.

(** The backward node an operation records: none when no input has a
    history, else one edge per input. *)
Definition history (op : string) (inputs : list ref) : M A (option node) :=
  ts ← mapM deref inputs;
  mret (if existsb has_history ts
        then Some (Backward op
               (zip_with (λ r t, if has_history t then Some r else None)
                         inputs ts))
        else None).

(** *** Operations *)

(** [input.size(dim)] *)
Definition size (input : ref) (dim : nat) : M A nat :=
  t ← deref input; from_option IndexError (t_sizes t !! dim).

(** A one-dimensional tensor of indices; it is never stored. *)
Record index_tensor := IndexTensor {
  index_values : list nat;
  index_device : device
}.

(** [torch.as_tensor(data, device=device)] on a list of ints. *)
Definition as_tensor (data : list nat) (dev : device) : M A index_tensor :=
  mret (IndexTensor data dev).

(** [input.device] *)
Definition device (input : ref) : M A device :=
  t ← deref input; mret (t_device t).

(** [torch.index_select(input, dim, index)]: a new tensor, not sharing
    storage with [input], whose [dim]-th size is the number of indices and
    whose element at [i] along [dim] is that of [input] at [index[i]].
    The index must be on the device of [input] and within its size along
    [dim]; either failure is reported as a [RuntimeError]. *)
Definition index_select (input : ref) (dim : nat) (index : index_tensor)
    : M A ref :=
  t ← deref input;
  n ← from_option IndexError (t_sizes t !! dim);
  check (bool_decide (index_device index = t_device t)) RuntimeError;;
  check (forallb (λ i, i <? n) (index_values index)) RuntimeError;;
  σ ← get_state;
  let out := <[dim := length (index_values index)]> (t_sizes t) in
  data ← from_option RuntimeError
         (mapM (λ idx, peek σ t
                  (alter (λ i, default 0 (index_values index !! i)) dim idx))
               (indices out));
  g ← history "IndexSelectBackward" [input];
  l ← new_storage data;
  new_object (Tensor l 0 out (contiguous_strides out) (t_device t) g).

(** [input.narrow(dim, start, length)]: a view of [input]. *)
Definition narrow (input : ref) (dim start len : nat) : M A ref :=
  t ← deref input;
  n ← from_option IndexError (t_sizes t !! dim);
  st ← from_option RuntimeError (t_strides t !! dim);
  check (start + len <=? n) RuntimeError;;
  g ← history "SliceBackward" [input];
  new_object (Tensor (t_storage t) (t_offset t + start * st)
                     (<[dim := len]> (t_sizes t)) (t_strides t)
                     (t_device t) g).

(** [torch.chunk(input, chunks, dim)]: views of [input], each of size
    [ceil(n / chunks)] along [dim] but possibly the last. *)
Definition chunk (input : ref) (chunks dim : nat) : M A (list ref) :=
  t ← deref input;
  n ← from_option IndexError (t_sizes t !! dim);
  check (0 <? chunks) RuntimeError;;
  let split_size := (n + chunks - 1) / chunks in
  if split_size =? 0
  then mapM (λ _, narrow input dim 0 0) (seq 0 chunks)
  else mapM (λ i, narrow input dim (i * split_size)
                         (split_size `min` (n - i * split_size)))
            (seq 0 ((n + split_size - 1) / split_size)).

(** [input.squeeze(dim)]: a view of [input] without dimension [dim] when
    that dimension has size 1, else with the sizes of [input]. *)
Definition squeeze (input : ref) (dim : nat) : M A ref :=
  t ← deref input;
  n ← from_option IndexError (t_sizes t !! dim);
  g ← history "SqueezeBackward" [input];
  new_object
    (if n =? 1
     then Tensor (t_storage t) (t_offset t) (delete dim (t_sizes t))
                 (delete dim (t_strides t)) (t_device t) g
     else Tensor (t_storage t) (t_offset t) (t_sizes t) (t_strides t)
                 (t_device t) g).

(** [torch.ones_like(input)]: a fresh contiguous tensor of the sizes of
    [input], filled with ones ([one] is the 1 of the element type), with no
    history. *)
Definition ones_like (one : A) (input : ref) : M A ref :=
  t ← deref input;
  l ← new_storage (replicate (numel (t_sizes t)) one);
  new_object (Tensor l 0 (t_sizes t) (contiguous_strides (t_sizes t))
                     (t_device t) None).

(** [dst.copy_(data)]: the elements of [dst] are overwritten in place; the
    number of elements must be that of [dst]. *)
Definition copy_ (dst : ref) (data : list A) : M A unit :=
  t ← deref dst;
  check (numel (t_sizes t) =? length data) RuntimeError;;
  σ ← get_state;
  s ← from_option RuntimeError (storages σ !! t_storage t);
  set_storage (t_storage t) (write t data s).

(** [torch.cat(tensors)] along dimension 0: a new tensor holding the
    elements of the inputs one after the other.  The inputs must have at
    least one dimension and agree on the others. *)
Definition cat (tensors : list ref) : M A ref :=
  ts ← mapM deref tensors;
  match ts with
  | [] => raise RuntimeError
  | t0 :: _ =>
    check (forallb (λ t, bool_decide (tail (t_sizes t) = tail (t_sizes t0)
                                      ∧ t_sizes t ≠ []
                                      ∧ t_device t = t_device t0)) ts)
          RuntimeError;;
    σ ← get_state;
    datas ← from_option RuntimeError (mapM (contents σ) ts);
    g ← history "CatBackward" tensors;
    l ← new_storage (concat datas);
    let out := sum_list ((λ t, default 0 (head (t_sizes t))) <$> ts)
               :: tail (t_sizes t0) in
    new_object (Tensor l 0 out (contiguous_strides out) (t_device t0) g)
  end.
End torch.
End torch.

(** ** [random]: sampling without replacement

    The random source is an entropy tape; a draw below [n] is the next entry
    of the tape modulo [n].  [sample] is [random.sample]: a selection loop
    over a copy of the population when that is small, and else a loop that
    draws positions and draws again on one it has selected. *)

Module random.
Section random.
Context {A : Type}.

(** One draw below [n] from the random source. *)
Definition randbelow (n : nat) : M A nat := λ σ,
  (inr (entropy (rng σ) (cursor (rng σ)) `mod` n),
   State (objects σ) (storages σ)
         (Generator (entropy (rng σ)) (S (cursor (rng σ)))) (dist_rt σ)).

(** The selection loop of [random.sample] over a pool: the [i]-th element
    is drawn from the part of the pool not chosen yet, and the last such
    element is moved into the vacancy. *)
Fixpoint select (k : nat) (pool : list nat) : M A (list nat) :=
  match k with
  | 0 => mret []
  | S k' =>
    j ← randbelow (length pool);
    let vacated := <[j := nth (length pool - 1) pool 0]> pool in
    result ← select k' (take (length pool - 1) vacated);
    mret (nth j pool 0 :: result)
  end.

(** The size up to which the population is copied into a pool: 21, and
    for a sample of more than five also the table size of a set that holds
    it, [4 ** ceil(log(3 * k, 4))]. *)
Definition setsize (k : nat) : nat :=
  if k <=? 5 then 21 else 21 + 4 ^ ((Nat.log2_up (3 * k) + 1) / 2).

(** [j = randbelow(n)], then [while j in selected: j = randbelow(n)].  The
    loop is unrolled [fuel] times; with the patience of the tape for fuel
    it ends before the fuel does, so that the last case is never reached
    (lemma [run_redraw]). *)
Fixpoint redraw (fuel n : nat) (selected : list nat) : M A nat :=
  j ← randbelow n;
  if bool_decide (j ∈ selected)
  then match fuel with
       | S fuel' => redraw fuel' n selected
       | 0 => mret j
       end
  else mret j.

Definition draw_fresh (n : nat) (selected : list nat) : M A nat :=
  σ ← get_state;
  redraw (patience (entropy (rng σ)) (cursor (rng σ)) n) n selected.

(** The other selection loop of [random.sample]: the [i]-th element is at
    a position drawn below [n], drawn again while it is one of those
    selected. *)
Fixpoint select_fresh (k n : nat) (population selected : list nat)
    : M A (list nat) :=
  match k with
  | 0 => mret []
  | S k' =>
    j ← draw_fresh n selected;
    result ← select_fresh k' n population (j :: selected);
    mret (nth j population 0 :: result)
  end.

(** [random.sample(population, k)] *)
Definition sample (population : list nat) (k : nat) : M A (list nat) :=
  let n := length population in
  if n <? k then raise ValueError
  else if n <=? setsize k then select k population
  else select_fresh k n population [].
End random.
End random.

(** ** [torch.distributed]

    Only the default group is modelled.  A collective is numbered by the
    count of collectives this process has taken part in; [wire round r] is
    what rank [r] sends in that round. *)

Module dist.
Section dist.
Context {A : Type}.

(** The default group; before initialisation, the error of this release
    of the library. *)
Definition default_group : M A process_group :=
  σ ← get_state;
  from_option (not_initialized (dist_rt σ)) (group (dist_rt σ)).

(** [dist.get_world_size()]: raises before initialisation. *)
Definition get_world_size : M A Z :=
  pg ← default_group; mret (Z.of_nat (world_size pg)).

(** [dist.get_rank()] *)
Definition get_rank : M A nat :=
  pg ← default_group; mret (rank pg).

Definition next_collective : M A nat := λ σ,
  (inr (collectives (dist_rt σ)),
   State (objects σ) (storages σ) (rng σ)
         (Runtime (group (dist_rt σ)) (wire (dist_rt σ))
                  (S (collectives (dist_rt σ)))
                  (not_initialized (dist_rt σ)))).

(** [dist.all_gather(tensor_list, tensor)]: the [r]-th tensor of the list
    is overwritten in place with what rank [r] contributed; this rank
    contributes the elements of [tensor]. *)
Definition all_gather (tensor_list : list ref) (tensor : ref) : M A unit :=
  pg ← default_group;
  check (length tensor_list =? world_size pg) RuntimeError;;
  t ← torch.deref tensor;
  σ ← get_state;
  local ← from_option RuntimeError (torch.contents σ t);
  round ← next_collective;
  mapM (λ '(r, dst),
          torch.copy_ dst (if decide (r = rank pg) then local
                           else wire (dist_rt σ) round r))
       (zip (seq 0 (length tensor_list)) tensor_list);;
  mret ().
End dist.
End dist.

(** ** The Python constructs the source uses *)

Abbreviation TextFieldTensors := (gmap string (gmap string ref)).

Section python.
Context {A : Type}.

(** [d[k]] on a dict *)
Definition getitem {V} (d : gmap string V) (k : string) : M A V :=
  from_option (KeyError k) (d !! k).

(** [l[i] = x] on a list *)
Definition setitem {X} (l : list X) (i : nat) (x : X) : M A (list X) :=
  if i <? length l then mret (<[i:=x]> l) else raise IndexError.

(** [range(n)] *)
Definition range (n : Z) : list nat := seq 0 (Z.to_nat n).

(** [a, b = values] *)
Definition unpack2 {X} (values : list X) : M A (X * X) :=
  match values with
  | [a; b] => mret (a, b)
  | _ => raise ValueError
  end.

(** [{"token_ids": a, "mask": b, "type_ids": c}] wrapped under ["tokens"] *)
Definition text_field (token_ids mask type_ids : ref) : TextFieldTensors :=
  {[ "tokens" := <["token_ids" := token_ids]>
                 (<["mask" := mask]> {[ "type_ids" := type_ids ]}) ]}.
End python.

(** ** contrastive_text_encoder_util.py *)

Section util.
Context {A : Type}.

(** Lines 10-16. *)
Definition get_world_size : M A Z :=
  try_except dist.get_world_size AssertionError (mret (-1)%Z).

(** [tokens["tokens"][name]] *)
Definition subfield (tokens : TextFieldTensors) (name : string) : M A ref :=
  field ← getitem tokens "tokens"; getitem field name.

(** Lines 19-62. *)
Definition sample_anchor_positive_pairs (tokens : TextFieldTensors)
    : M A (TextFieldTensors * TextFieldTensors) :=
  token_ids ← subfield tokens "token_ids";
  num_spans ← torch.size token_ids 1;
  drawn ← random.sample (seq 0 num_spans) 2;
  token_ids ← subfield tokens "token_ids";
  dev ← torch.device token_ids;
  index ← torch.as_tensor drawn dev;

  token_ids ← subfield tokens "token_ids";
  random_token_ids ← torch.index_select token_ids 1 index;
  mask ← subfield tokens "mask";
  random_masks ← torch.index_select mask 1 index;
  type_ids ← subfield tokens "type_ids";
  random_type_ids ← torch.index_select type_ids 1 index;

  chunks ← torch.chunk random_token_ids 2 1;
  '(anchor_token_ids, positive_token_ids) ← unpack2 chunks;
  chunks ← torch.chunk random_masks 2 1;
  '(anchor_masks, positive_masks) ← unpack2 chunks;
  chunks ← torch.chunk random_type_ids 2 1;
  '(anchor_type_ids, positive_type_ids) ← unpack2 chunks;

  a_token_ids ← torch.squeeze anchor_token_ids 1;
  a_mask ← torch.squeeze anchor_masks 1;
  a_type_ids ← torch.squeeze anchor_type_ids 1;
  let anchors := text_field a_token_ids a_mask a_type_ids in
  p_token_ids ← torch.squeeze positive_token_ids 1;
  p_mask ← torch.squeeze positive_masks 1;
  p_type_ids ← torch.squeeze positive_type_ids 1;
  let positives := text_field p_token_ids p_mask p_type_ids in

  mret (anchors, positives).

(** Lines 93-100: the receive buffers, the two collectives and the
    overwrite of this replica's own entries.  [one] is the 1 of the element
    type, which [ones_like] fills the buffers with. *)
Definition gathered_lists (one : A) (anchors positives : ref)
    : M A (list ref * list ref) :=
  w ← dist.get_world_size;
  anchors_list ← mapM (λ _, torch.ones_like one anchors) (range w);
  w ← dist.get_world_size;
  positives_list ← mapM (λ _, torch.ones_like one positives) (range w);
  dist.all_gather anchors_list anchors;;
  dist.all_gather positives_list positives;;
  r ← dist.get_rank;
  anchors_list ← setitem anchors_list r anchors;
  r ← dist.get_rank;
  positives_list ← setitem positives_list r positives;
  mret (anchors_list, positives_list).

(** Lines 65-105. *)
Definition all_gather_anchor_positive_pairs (one : A)
    (anchors positives : ref) : M A (ref * ref) :=
  w ← get_world_size;
  if (w <? 2)%Z then mret (anchors, positives)
  else
    '(anchors_list, positives_list) ← gathered_lists one anchors positives;
    anchors ← torch.cat anchors_list;
    positives ← torch.cat positives_list;
    mret (anchors, positives).
End util.

(** ** Vocabulary of the specifications *)

Section vocabulary.
Context {A : Type}.
Implicit Types (σ : state A) (t : tensor).

(** The state after allocating some objects and storages. *)
Definition alloc σ (ts : list tensor) (ds : list (list A)) : state A :=
  State (objects σ ++ ts) (storages σ ++ ds) (rng σ) (dist_rt σ).

(** The history of the result of a one-input operation. *)
Definition unary_history (op : string) (r : ref) t : option node :=
  if torch.has_history t then Some (Backward op [Some r]) else None.

(** A view is valid when each of its positions is a cell of its storage. *)
Definition valid_view σ t : Prop := is_Some (torch.contents σ t).

(** The [k]-th of the chunks of width 1 along dimension 1 of [t], which is
    the object [r]; and [t] without its dimension 1. *)
Definition chunk_view (k : nat) (r : ref) t : tensor :=
  Tensor (t_storage t) (t_offset t + k * default 0 (t_strides t !! 1))
         (<[1:=1]> (t_sizes t)) (t_strides t) (t_device t)
         (unary_history "SliceBackward" r t).

Definition squeeze_view (r : ref) t : tensor :=
  Tensor (t_storage t) (t_offset t) (delete 1 (t_sizes t))
         (delete 1 (t_strides t)) (t_device t)
         (unary_history "SqueezeBackward" r t).

(** The tensor [index_select] allocates in storage [l] for two indices
    along dimension 1 of [t], which is the object [r]. *)
Definition select_view (l : loc) (r : ref) t : tensor :=
  Tensor l 0 (<[1:=2]> (t_sizes t))
         (torch.contiguous_strides (<[1:=2]> (t_sizes t))) (t_device t)
         (unary_history "IndexSelectBackward" r t).
End vocabulary.

Section vocabulary_random.
Context {A : Type}.
Implicit Types (σ : state A).

(** The state after [k] draws from the random source. *)
Definition advance (k : nat) σ : state A :=
  State (objects σ) (storages σ)
        (Generator (entropy (rng σ)) (k + cursor (rng σ))) (dist_rt σ).

(** The outcomes of the next two draws when the first is made below [n]
    and the second below [n - 1], as the loop over a pool makes them. *)
Definition next_draws (n : nat) σ : nat * nat :=
  (entropy (rng σ) (cursor (rng σ)) `mod` n,
   entropy (rng σ) (S (cursor (rng σ))) `mod` (n - 1)).

(** The outcome of the [i]-th next draw when all are made below [n]. *)
Definition draw (n : nat) σ (i : nat) : nat :=
  entropy (rng σ) (cursor (rng σ) + i) `mod` n.
End vocabulary_random.

Section vocabulary_sampler.
Context {A : Type}.
Implicit Types (σ : state A) (t : tensor).

(** The objects a successful call of the sampler allocates, in order, when
    the objects [r1], [r2], [r3] are the tensors [t1], [t2], [t3], the first
    new object is [m] and the first new storage is [l]. *)
Definition sampled_objects (m : ref) (l : loc) (r1 r2 r3 : ref)
    (t1 t2 t3 : tensor) : list tensor :=
  let s1 := select_view l r1 t1 in
  let s2 := select_view (l + 1) r2 t2 in
  let s3 := select_view (l + 2) r3 t3 in
  [ s1; s2; s3;
    chunk_view 0 m s1; chunk_view 1 m s1;
    chunk_view 0 (m + 1) s2; chunk_view 1 (m + 1) s2;
    chunk_view 0 (m + 2) s3; chunk_view 1 (m + 2) s3;
    squeeze_view (m + 3) (chunk_view 0 m s1);
    squeeze_view (m + 5) (chunk_view 0 (m + 1) s2);
    squeeze_view (m + 7) (chunk_view 0 (m + 2) s3);
    squeeze_view (m + 4) (chunk_view 1 m s1);
    squeeze_view (m + 6) (chunk_view 1 (m + 1) s2);
    squeeze_view (m + 8) (chunk_view 1 (m + 2) s3) ].
End vocabulary_sampler.

Section vocabulary_fields.
Context {A : Type}.
Implicit Types (σ : state A) (t : tensor).

(** The sub-fields of a Field Tensor Set, in the order the sampler reads
    them, and the tensor object a Field Tensor Set holds for one. *)
Definition sub_fields : list string := ["token_ids"; "mask"; "type_ids"].

Definition lookup_subfield (tokens : TextFieldTensors) (name : string)
    : option ref :=
  tokens !! "tokens" ≫= (.!! name).

(** A Field Tensor Set with batch size [B] and [n] candidate spans: under
    ["tokens"], each sub-field is a valid tensor whose two leading sizes
    are [B] and [n], all on one device.  Further keys may be present. *)
Definition field_tensor_set σ (tokens : TextFieldTensors) (B n : nat)
    : Prop :=
  ∃ dev, ∀ name, name ∈ sub_fields →
    ∃ r t rest,
      lookup_subfield tokens name = Some r ∧
      objects σ !! r = Some t ∧
      t_sizes t = B :: n :: rest ∧
      t_device t = dev ∧
      valid_view σ t.

(** The position, among the storages a call allocates, of the storage
    that backs the sampled spans of a sub-field. *)
Definition slot (name : string) : nat :=
  if decide (name = "token_ids") then 0
  else if decide (name = "mask") then 1 else 2.
End vocabulary_fields.

Section vocabulary_frame.
Context {A : Type}.
Implicit Types (σ : state A).

(** [σ'] differs from [σ] by allocations and draws only: the objects and
    storages of [σ] are there, unchanged; the distributed runtime and the
    entropy are the same; the random source has not gone back. *)
Record grows σ σ' : Prop := Grows {
  grows_objects : objects σ `prefix_of` objects σ';
  grows_storages : storages σ `prefix_of` storages σ';
  grows_dist : dist_rt σ' = dist_rt σ;
  grows_entropy : entropy (rng σ') = entropy (rng σ);
  grows_cursor : cursor (rng σ) ≤ cursor (rng σ')
}.

(** A computation that only allocates and draws, from every state. *)
Definition only_allocates {X} (m : M A X) : Prop :=
  ∀ σ, grows σ (m σ).2.
End vocabulary_frame.

Section vocabulary_gatherer.
Context {A : Type}.
Implicit Types (σ : state A) (t : tensor).

(** The receive buffer [ones_like] allocates in storage [l] for [t]. *)
Definition buffer (l : loc) t : tensor :=
  Tensor l 0 (t_sizes t) (torch.contiguous_strides (t_sizes t))
         (t_device t) None.

(** What rank [r] contributes to a collective of this process: the
    elements [local] of the tensor sent when [r] is this process's own
    rank, else what the wire delivers in that round. *)
Definition contribution σ (pg : process_group) (round : nat)
    (local : list A) (r : nat) : list A :=
  if decide (r = rank pg) then local else wire (dist_rt σ) round r.

(** The state in which the process group is [pg]. *)
Definition with_group σ (pg : process_group) : state A :=
  State (objects σ) (storages σ) (rng σ)
        (Runtime (Some pg) (wire (dist_rt σ)) (collectives (dist_rt σ))
                 (not_initialized (dist_rt σ))).
End vocabulary_gatherer.

Section vocabulary_invariant.
Context {A : Type}.
Implicit Types (σ : state A).

(** [m] keeps the invariant [P] of the state, whether it returns or
    raises, and what it returns from a state in [P] satisfies [Q]. *)
Definition triple {X} (P : state A → Prop) (m : M A X) (Q : X → Prop)
    : Prop :=
  ∀ σ, P σ → P (m σ).2 ∧ ∀ x, (m σ).1 = inr x → Q x.

(** The states the gatherer goes through from [σ0]: what [σ0] held is
    there, unchanged; the random source is as it was; each object
    allocated since is backed by a storage allocated since. *)
Record since σ0 σ : Prop := Since {
  since_objects : objects σ0 `prefix_of` objects σ;
  since_storages : storages σ0 `prefix_of` storages σ;
  since_rng : rng σ = rng σ0;
  since_fresh : ∀ r t,
    length (objects σ0) ≤ r → objects σ !! r = Some t →
    length (storages σ0) ≤ t_storage t
}.
End vocabulary_invariant.

Section vocabulary_sub_field.
Context {A : Type}.
Implicit Types (σ : state A) (t : tensor).

(** The sub-field [name] of [tokens] is the object [r], a valid tensor [t]
    of sizes [B :: n :: rest]: [n] spans for each of [B] examples. *)
Definition sub_field_tensor σ (tokens : TextFieldTensors) (name : string)
    (r : ref) t (B n : nat) (rest : list nat) : Prop :=
  lookup_subfield tokens name = Some r ∧
  objects σ !! r = Some t ∧
  t_sizes t = B :: n :: rest ∧
  valid_view σ t.

End vocabulary_sub_field.

Section vocabulary_gathered.
Context {A : Type}.
Implicit Types (σ : state A) (t : tensor).

(** The tensor [torch.cat] allocates in storage [l] for a gathered list of
    [W] entries shaped like [t], of which the one at [rk] is the object
    [src], the tensor [t] itself. *)
Definition gathered (l : loc) (W rk : nat) (src : ref) t : tensor :=
  let out := W * default 0 (head (t_sizes t)) :: tail (t_sizes t) in
  Tensor l 0 out (torch.contiguous_strides out) (t_device t)
         (if torch.has_history t
          then Some (Backward "CatBackward"
                       (<[rk := Some src]> (replicate W None)))
          else None).
End vocabulary_gathered.

Section vocabulary_exchange.
Context {A : Type}.
Implicit Types (σ : state A) (t : tensor).

(** A replica of an exchange among [W] ranks in which rank [r] holds the
    anchors [Va r] and the positives [Vp r]: this process holds those of
    its own rank in the objects [anchors] and [positives], of sizes [sha]
    and [shp], and in its next two collectives the wire delivers those of
    every other rank. *)
Definition in_exchange σ (W : nat) (anchors positives : ref)
    (sha shp : list nat) (Va Vp : nat → list A) : Prop :=
  ∃ pg ta tp,
    group (dist_rt σ) = Some pg ∧ world_size pg = W ∧ rank pg < W ∧
    objects σ !! anchors = Some ta ∧ objects σ !! positives = Some tp ∧
    t_sizes ta = sha ∧ t_sizes tp = shp ∧
    torch.contents σ ta = Some (Va (rank pg)) ∧
    torch.contents σ tp = Some (Vp (rank pg)) ∧
    ∀ r, r < W → r ≠ rank pg →
      wire (dist_rt σ) (collectives (dist_rt σ)) r = Va r ∧
      wire (dist_rt σ) (S (collectives (dist_rt σ))) r = Vp r.
End vocabulary_exchange.

Section vocabulary_protocol.
Context {A : Type}.
Implicit Types (σ : state A).

(** [m] takes part in [k] collectives: from every state, a run that
    returns has advanced the count of collectives by exactly [k], and a run
    that raises by at most [k]; the process group, the wire and the random
    source are as they were. *)
Definition takes_part {X} (k : nat) (m : M A X) : Prop :=
  ∀ σ,
    rng (m σ).2 = rng σ
    ∧ group (dist_rt (m σ).2) = group (dist_rt σ)
    ∧ wire (dist_rt (m σ).2) = wire (dist_rt σ)
    ∧ match (m σ).1 with
      | inr _ =>
        collectives (dist_rt (m σ).2) = collectives (dist_rt σ) + k
      | inl _ =>
        collectives (dist_rt σ) ≤ collectives (dist_rt (m σ).2)
        ≤ collectives (dist_rt σ) + k
      end.

(** Whether the process runs as one of two or more replicas. *)
Definition multi_replica σ : bool :=
  match group (dist_rt σ) with
  | Some pg => 2 <=? world_size pg
  | None => false
  end.
End vocabulary_protocol.

(** ** Inputs used as examples *)

(** A process with one tensor of sizes 2 x 1 x 3 (one candidate span), and
    a token mapping that holds it as ["token_ids"] and has no ["mask"]. *)
Definition one_span_state : state Z :=
  State [Tensor 0 0 [2; 1; 3] [3; 3; 1] cpu None]
        [[1; 2; 3; 4; 5; 6]%Z]
        (Generator (scripted [0; 0]) 0) (Runtime None (λ _ _, []) 0 ValueError).

Definition tokens_without_mask : TextFieldTensors :=
  {[ "tokens" := {[ "token_ids" := 0 ]} ]}.

(** A process with three tensors of sizes 2 x 3 x 2 (three candidate
    spans) on one device, and the Field Tensor Set that holds them. *)
Definition three_span_state : state Z :=
  State [Tensor 0 0 [2; 3; 2] [6; 2; 1] cpu None;
         Tensor 1 0 [2; 3; 2] [6; 2; 1] cpu None;
         Tensor 2 0 [2; 3; 2] [6; 2; 1] cpu None]
        [[1; 2; 3; 4; 5; 6; 7; 8; 9; 10; 11; 12]%Z;
         [1; 1; 1; 1; 1; 0; 1; 1; 1; 0; 1; 1]%Z;
         [0; 0; 0; 0; 0; 0; 0; 0; 0; 0; 0; 0]%Z]
        (Generator (scripted [2; 3]) 0) (Runtime None (λ _ _, []) 0 ValueError).

Definition three_span_tokens : TextFieldTensors := text_field 0 1 2.

(** The same process on a release of the library that reports a missing
    group with an [AssertionError], and as the only replica of a group. *)
Definition legacy_state : state Z :=
  State (objects three_span_state) (storages three_span_state)
        (rng three_span_state) (Runtime None (λ _ _, []) 0 AssertionError).

Definition lone_replica_state : state Z :=
  State (objects three_span_state) (storages three_span_state)
        (rng three_span_state)
        (Runtime (Some (ProcessGroup 1 0)) (λ _ _, []) 0 ValueError).

(** Replica 1 of 3, holding two embedding tensors of sizes 2 x 2 with a
    history; in round [c], rank [r] sends four times [100 * c + 10 * r]. *)
Definition replica_state : state Z :=
  State [Tensor 0 0 [2; 2] [2; 1] cpu (Some (Produced 7));
         Tensor 1 0 [2; 2] [2; 1] cpu (Some (Produced 8))]
        [[1; 2; 3; 4]%Z; [5; 6; 7; 8]%Z]
        (Generator (scripted []) 0)
        (Runtime (Some (ProcessGroup 3 1))
                 (λ c r, replicate 4 (Z.of_nat (100 * c + 10 * r))) 0
                 ValueError).

(** A process whose ["token_ids"] is a tensor of one dimension. *)
Definition flat_state : state Z :=
  State [Tensor 0 0 [6] [1] cpu None]
        [[1; 2; 3; 4; 5; 6]%Z]
        (Generator (scripted [0; 0]) 0) (Runtime None (λ _ _, []) 0 ValueError).

(** The three tensors of [three_span_state], with the mask on another
    device. *)
Definition two_device_state : state Z :=
  State [Tensor 0 0 [2; 3; 2] [6; 2; 1] cpu None;
         Tensor 1 0 [2; 3; 2] [6; 2; 1] (cuda 0) None;
         Tensor 2 0 [2; 3; 2] [6; 2; 1] cpu None]
        (storages three_span_state)
        (Generator (scripted [2; 3]) 0) (Runtime None (λ _ _, []) 0 ValueError).

(** Three spans under ["token_ids"] and ["type_ids"] but two under
    ["mask"]; the draws are 2 and 1, and [tame_state] is the same process
    with the draws 0 and 1. *)
Definition ragged_state : state Z :=
  State [Tensor 0 0 [2; 3; 2] [6; 2; 1] cpu None;
         Tensor 1 0 [2; 2; 2] [4; 2; 1] cpu None;
         Tensor 2 0 [2; 3; 2] [6; 2; 1] cpu None]
        [[1; 2; 3; 4; 5; 6; 7; 8; 9; 10; 11; 12]%Z;
         [1; 1; 1; 0; 1; 1; 1; 0]%Z;
         [0; 0; 0; 0; 0; 0; 0; 0; 0; 0; 0; 0]%Z]
        (Generator (scripted [2; 3]) 0) (Runtime None (λ _ _, []) 0 ValueError).

Definition tame_state : state Z :=
  State (objects ragged_state) (storages ragged_state)
        (Generator (scripted [0; 3]) 0) (Runtime None (λ _ _, []) 0 ValueError).

(** Replica 0 of 2, holding anchors of sizes 2 x 2 and positives of
    size 3; in round [c] every rank sends as many elements as that round
    expects. *)
Definition mixed_replica_state : state Z :=
  State [Tensor 0 0 [2; 2] [2; 1] cpu None; Tensor 1 0 [3] [1] cpu None]
        [[1; 2; 3; 4]%Z; [5; 6; 7]%Z]
        (Generator (scripted []) 0)
        (Runtime (Some (ProcessGroup 2 0))
                 (λ c r, replicate (4 - c) (Z.of_nat (100 * c + 10 * r))) 0
                 ValueError).

(** The anchors and positives of an exchange among three ranks, of which
    [replica_state] is rank 1 and [peer_state] rank 0. *)
Definition batch_anchors (r : nat) : list Z :=
  if r =? 1 then [1; 2; 3; 4]%Z else replicate 4 (Z.of_nat (10 * r)).

Definition batch_positives (r : nat) : list Z :=
  if r =? 1 then [5; 6; 7; 8]%Z else replicate 4 (Z.of_nat (100 + 10 * r)).

Definition peer_state : state Z :=
  State [Tensor 0 0 [2; 2] [2; 1] cpu None; Tensor 1 0 [2; 2] [2; 1] cpu None]
        [[0; 0; 0; 0]%Z; [100; 100; 100; 100]%Z]
        (Generator (scripted []) 0)
        (Runtime (Some (ProcessGroup 3 0))
                 (λ c r, if c =? 0 then batch_anchors r
                         else batch_positives r) 0 ValueError).

(** Replica 0 of 2, holding two tensors without dimensions. *)
Definition scalar_replica_state : state Z :=
  State [Tensor 0 0 [] [] cpu None; Tensor 1 0 [] [] cpu None]
        [[7]%Z; [8]%Z]
        (Generator (scripted []) 0)
        (Runtime (Some (ProcessGroup 2 0))
                 (λ c r, [Z.of_nat (10 * r)]) 0 ValueError).

(** A process without tensors whose next draws are the entries of
    [script]. *)
Definition drawing_state (script : list nat) : state Z :=
  State [] [] (Generator (scripted script) 0)
        (Runtime None (λ _ _, []) 0 ValueError).

(** * Proofs *)

(** ** Layout *)

Section layout.
Implicit Types (idx sh st : list nat).

Lemma linear_cons i idx s st :
  torch.linear (i :: idx) (s :: st) = i * s + torch.linear idx st.
Proof. done. Qed.

Lemma length_bind_blocks {X Y} (f : X → list Y) (l : list X) m :
  (∀ x, length (f x) = m) → length (l ≫= f) = length l * m.
Proof.
  intros Hf. induction l as [|x l IH]; [done|].
  rewrite bind_cons, length_app, Hf, IH. simpl. lia.
Qed.

Lemma length_indices sh : length (torch.indices sh) = torch.numel sh.
Proof.
  induction sh as [|n sh IH]; [done|]. simpl.
  rewrite (length_bind_blocks _ _ (torch.numel sh)), length_seq; [done|].
  intros i. by rewrite length_fmap.
Qed.

Lemma elem_of_indices sh idx :
  idx ∈ torch.indices sh ↔ Forall2 lt idx sh.
Proof.
  revert idx. induction sh as [|n sh IH]; intros idx; simpl.
  - rewrite list_elem_of_singleton. split; [by intros ->|].
    by intros ->%Forall2_nil_inv_r.
  - rewrite list_elem_of_bind. split.
    + intros (i & (idx' & -> & Hidx)%list_elem_of_fmap & Hi%elem_of_seq).
      constructor; [lia|]. by apply IH.
    + intros (i & idx' & Hi & Hidx & ->)%Forall2_cons_inv_r.
      exists i. split; [|apply elem_of_seq; lia].
      apply list_elem_of_fmap. exists idx'. split; [done|]. by apply IH.
Qed.

(** Row-major order: the [k]-th position of a contiguous tensor lives in
    cell [k]. *)
Lemma linear_indices sh :
  (λ idx, torch.linear idx (torch.contiguous_strides sh)) <$> torch.indices sh
  = seq 0 (torch.numel sh).
Proof.
  induction sh as [|n sh IH]; [done|]. simpl.
  set (m := torch.numel sh) in *.
  set (cs := torch.contiguous_strides sh) in *.
  enough (∀ a, ((λ idx, torch.linear idx (m :: cs)) <$>
                (seq a n ≫= λ i, (i ::.) <$> torch.indices sh))
               = seq (a * m) (n * m)) as H by apply (H 0).
  induction n as [|n IHn]; intros a; [done|].
  simpl seq. rewrite bind_cons, fmap_app, IHn, <-list_fmap_compose.
  replace (S n * m) with (m + n * m) by lia. rewrite seq_app.
  f_equal; [|f_equal; lia].
  transitivity (Nat.add (a * m) <$> seq 0 m);
    [|rewrite fmap_add_seq; f_equal; lia].
  rewrite <-IH, <-list_fmap_compose. by apply list_fmap_ext.
Qed.

Lemma indices_lookup_linear sh idx :
  Forall2 lt idx sh →
  torch.indices sh !! torch.linear idx (torch.contiguous_strides sh)
  = Some idx.
Proof.
  intros [k Hk]%elem_of_indices%list_elem_of_lookup_1.
  pose proof (lookup_lt_Some _ _ _ Hk) as Hlt. rewrite length_indices in Hlt.
  pose proof (f_equal (.!! k) (linear_indices sh)) as H. simpl in H.
  rewrite list_lookup_fmap, Hk, lookup_seq_lt in H by done.
  simpl in H. by simplify_eq.
Qed.

Lemma linear_lt_numel sh idx :
  Forall2 lt idx sh →
  torch.linear idx (torch.contiguous_strides sh) < torch.numel sh.
Proof.
  intros H%indices_lookup_linear%lookup_lt_Some.
  by rewrite length_indices in H.
Qed.

Lemma linear_contiguous_inj sh idx idx' :
  Forall2 lt idx sh → Forall2 lt idx' sh →
  torch.linear idx (torch.contiguous_strides sh)
  = torch.linear idx' (torch.contiguous_strides sh) →
  idx = idx'.
Proof.
  intros H%indices_lookup_linear H'%indices_lookup_linear Heq.
  rewrite Heq in H. congruence.
Qed.

Lemma indices_lookup_inv sh k idx :
  torch.indices sh !! k = Some idx →
  torch.linear idx (torch.contiguous_strides sh) = k.
Proof.
  intros Hk.
  pose proof (lookup_lt_Some _ _ _ Hk) as Hlt. rewrite length_indices in Hlt.
  pose proof (f_equal (.!! k) (linear_indices sh)) as H. simpl in H.
  rewrite list_lookup_fmap, Hk, lookup_seq_lt in H by done.
  simpl in H. by simplify_eq.
Qed.
End layout.

(** ** Running computations *)

Section run.
Context {A : Type}.
Implicit Types (σ : state A) (t : tensor).

Lemma run_bind {X Y} (m : M A X) (k : X → M A Y) σ x σ' :
  m σ = (inr x, σ') → (m ≫= k) σ = k x σ'.
Proof. intros H. unfold mbind, M_bind, bind. by rewrite H. Qed.

Lemma run_bind_raise {X Y} (m : M A X) (k : X → M A Y) σ e σ' :
  m σ = (inl e, σ') → (m ≫= k) σ = (inl e, σ').
Proof. intros H. unfold mbind, M_bind, bind. by rewrite H. Qed.

Lemma run_ret {X} (x : X) σ : (mret x : M A X) σ = (inr x, σ).
Proof. done. Qed.

Lemma run_check (b : bool) e σ :
  b = true → check (A:=A) b e σ = (inr (), σ).
Proof. by intros ->. Qed.

Lemma run_from_option {X} e (o : option X) x σ :
  o = Some x → from_option (A:=A) e o σ = (inr x, σ).
Proof. by intros ->. Qed.

Lemma run_getitem {V} (d : gmap string V) k v σ :
  d !! k = Some v → getitem (A:=A) d k σ = (inr v, σ).
Proof. apply run_from_option. Qed.


Lemma run_deref r t σ :
  objects σ !! r = Some t → torch.deref r σ = (inr t, σ).
Proof.
  intros H. unfold torch.deref.
  rewrite (run_bind _ _ σ σ σ) by done. by apply run_from_option.
Qed.

Lemma run_size r d t n σ :
  objects σ !! r = Some t → t_sizes t !! d = Some n →
  torch.size r d σ = (inr n, σ).
Proof.
  intros Hr Hn. unfold torch.size.
  rewrite (run_bind _ _ _ _ _ (run_deref _ _ _ Hr)).
  by apply run_from_option.
Qed.

Lemma run_device r t σ :
  objects σ !! r = Some t → torch.device r σ = (inr (t_device t), σ).
Proof.
  intros Hr. unfold torch.device.
  by rewrite (run_bind _ _ _ _ _ (run_deref _ _ _ Hr)).
Qed.

Lemma run_mapM_deref (rs : list ref) ts σ :
  Forall2 (λ r t, objects σ !! r = Some t) rs ts →
  mapM torch.deref rs σ = (inr ts, σ).
Proof.
  induction 1 as [|r t rs ts Hr _ IH]; [done|]. simpl.
  rewrite (run_bind _ _ _ _ _ (run_deref _ _ _ Hr)).
  by rewrite (run_bind _ _ _ _ _ IH).
Qed.

(** The node recorded for an operation with inputs [rs]. *)
Lemma run_history op rs ts σ :
  Forall2 (λ r t, objects σ !! r = Some t) rs ts →
  torch.history op rs σ
  = (inr (if existsb torch.has_history ts
          then Some (Backward op
                 (zip_with (λ r t, if torch.has_history t then Some r
                                   else None) rs ts))
          else None), σ).
Proof.
  intros H. unfold torch.history.
  by rewrite (run_bind _ _ _ _ _ (run_mapM_deref _ _ _ H)).
Qed.
End run.

(** ** Allocation *)

Section alloc.
Context {A : Type}.
Implicit Types (σ : state A) (t : tensor).

Lemma alloc_alloc σ ts ds ts' ds' :
  alloc (alloc σ ts ds) ts' ds' = alloc σ (ts ++ ts') (ds ++ ds').
Proof. unfold alloc. simpl. by rewrite <-!(assoc_L (++)). Qed.

Lemma alloc_nil σ : alloc σ [] [] = σ.
Proof. destruct σ. unfold alloc. simpl. by rewrite !app_nil_r. Qed.

Lemma length_objects_alloc σ (ts : list tensor) (ds : list (list A)) :
  length (objects (alloc σ ts ds)) = length (objects σ) + length ts.
Proof. apply length_app. Qed.

Lemma length_storages_alloc σ (ts : list tensor) (ds : list (list A)) :
  length (storages (alloc σ ts ds)) = length (storages σ) + length ds.
Proof. apply length_app. Qed.

Lemma objects_alloc_old σ ts (ds : list (list A)) r t :
  objects σ !! r = Some t → objects (alloc σ ts ds) !! r = Some t.
Proof. apply lookup_app_l_Some. Qed.

Lemma objects_alloc_new σ ts (ds : list (list A)) j t :
  ts !! j = Some t →
  objects (alloc σ ts ds) !! (length (objects σ) + j) = Some t.
Proof. intros H. simpl. by rewrite lookup_app_r, Nat.add_comm, Nat.add_sub by lia. Qed.

Lemma storages_alloc_old σ ts (ds : list (list A)) l s :
  storages σ !! l = Some s → storages (alloc σ ts ds) !! l = Some s.
Proof. apply lookup_app_l_Some. Qed.

Lemma storages_alloc_new σ ts (ds : list (list A)) j s :
  ds !! j = Some s →
  storages (alloc σ ts ds) !! (length (storages σ) + j) = Some s.
Proof. intros H. simpl. by rewrite lookup_app_r, Nat.add_comm, Nat.add_sub by lia. Qed.

Lemma peek_alloc_old σ ts (ds : list (list A)) t idx :
  is_Some (torch.peek σ t idx) →
  torch.peek (alloc σ ts ds) t idx = torch.peek σ t idx.
Proof.
  unfold torch.peek. intros [x Hx].
  destruct (storages σ !! t_storage t) as [s|] eqn:Hs; [|done].
  by rewrite (storages_alloc_old _ _ _ _ _ Hs).
Qed.

Lemma run_new_object t σ :
  torch.new_object t σ = (inr (length (objects σ)), alloc σ [t] []).
Proof. unfold torch.new_object, alloc. by rewrite app_nil_r. Qed.

Lemma run_new_storage (data : list A) σ :
  torch.new_storage data σ = (inr (length (storages σ)), alloc σ [] [data]).
Proof. unfold torch.new_storage, alloc. by rewrite app_nil_r. Qed.

Lemma run_unary_history op r t σ :
  objects σ !! r = Some t →
  torch.history op [r] σ = (inr (unary_history op r t), σ).
Proof.
  intros Hr. rewrite (run_history op [r] [t]) by (by constructor).
  unfold unary_history. simpl. by destruct (torch.has_history t).
Qed.

Lemma valid_view_peek σ t idx :
  valid_view σ t → Forall2 lt idx (t_sizes t) →
  is_Some (torch.peek σ t idx).
Proof.
  intros H%mapM_is_Some Hidx%elem_of_indices.
  by apply (proj1 (Forall_forall _ _) H).
Qed.

Lemma valid_view_alloc σ ts (ds : list (list A)) t :
  valid_view σ t → valid_view (alloc σ ts ds) t.
Proof.
  intros H. apply mapM_is_Some, Forall_forall. intros idx Hidx.
  unfold compose.
  rewrite peek_alloc_old; by apply valid_view_peek, elem_of_indices.
Qed.

(** A contiguous tensor that owns its whole storage holds exactly the
    elements of that storage, in order. *)
Lemma contents_contiguous σ l sh d g (data : list A) :
  storages σ !! l = Some data → length data = torch.numel sh →
  torch.contents σ (Tensor l 0 sh (torch.contiguous_strides sh) d g)
  = Some data.
Proof.
  intros Hl Hlen. apply mapM_Some, Forall2_same_length_lookup.
  split; [by rewrite length_indices|].
  intros k idx x Hk Hx. simpl in Hk.
  unfold torch.peek, torch.address. simpl.
  by rewrite Hl, (indices_lookup_inv _ _ _ Hk).
Qed.
End alloc.

(** ** The library operations, run *)

Ltac step H := rewrite (run_bind _ _ _ _ _ H).
Ltac run tac := erewrite run_bind; [|solve [tac]].

Section operations.
Context {A : Type}.
Implicit Types (σ : state A) (t : tensor).

Lemma run_get_state {X} (k : state A → M A X) σ :
  (get_state ≫= k) σ = k σ σ.
Proof. done. Qed.

Lemma run_randbelow n σ :
  random.randbelow n σ
  = (inr (entropy (rng σ) (cursor (rng σ)) `mod` n), advance 1 σ).
Proof. done. Qed.

(** Two indices out of [range(0, n)] by the loop over a pool, which
    [random.sample] runs for up to 21 elements: the first draw is the first
    index; the second draw is the second index, unless it hits the first,
    whose place the last index has taken. *)
Lemma run_sample_pool n σ :
  2 ≤ n → n ≤ 21 →
  random.sample (seq 0 n) 2 σ
  = (inr [ (next_draws n σ).1;
           if decide ((next_draws n σ).2 = (next_draws n σ).1)
           then n - 1 else (next_draws n σ).2 ],
     advance 2 σ).
Proof.
  intros Hn Hpool. unfold random.sample, next_draws. rewrite length_seq.
  destruct (Nat.ltb_spec n 2) as [|_]; [lia|].
  change (random.setsize 2) with 21.
  destruct (Nat.leb_spec n 21) as [_|]; [|lia]. simpl.
  set (j1 := entropy (rng σ) (cursor (rng σ)) `mod` n).
  set (j2 := entropy (rng σ) (S (cursor (rng σ))) `mod` (n - 1)).
  assert (j1 < n) by (apply Nat.mod_upper_bound; lia).
  assert (j2 < n - 1) by (apply Nat.mod_upper_bound; lia).
  rewrite length_seq. step (run_randbelow n σ). fold j1.
  rewrite !seq_nth by lia. simpl.
  rewrite length_take, length_insert, length_seq, Nat.min_l by lia.
  unfold mbind, M_bind, bind, mret, M_ret, ret.
  rewrite (run_randbelow (n - 1) (advance 1 σ)). simpl. fold j2.
  unfold advance. simpl. do 3 f_equal.
  rewrite nth_lookup, lookup_take_lt by lia.
  destruct (decide (j2 = j1)) as [->|Hne].
  - by rewrite list_lookup_insert_eq by (rewrite length_seq; lia).
  - rewrite list_lookup_insert_ne by done.
    by rewrite lookup_seq_lt by lia.
Qed.

Lemma advance_advance j k σ : advance j (advance k σ) = advance (j + k) σ.
Proof. unfold advance. simpl. do 2 f_equal. lia. Qed.

Lemma draw_advance n k σ i : draw n (advance k σ) i = draw n σ (k + i).
Proof. unfold draw, advance. simpl. do 2 f_equal. lia. Qed.

(** The loop that draws again: after [k] draws of selected values it
    returns the next one, whatever fuel above [k] it was given. *)
Lemma run_redraw fuel n selected k σ :
  k ≤ fuel →
  (∀ i, i < k → draw n σ i ∈ selected) →
  draw n σ k ∉ selected →
  random.redraw fuel n selected σ = (inr (draw n σ k), advance (S k) σ).
Proof.
  revert fuel σ. induction k as [|k IH]; intros fuel σ Hfuel Hrep Hnew.
  - destruct fuel; simpl; step (run_randbelow n σ);
      unfold draw in Hnew; rewrite Nat.add_0_r in Hnew;
      rewrite bool_decide_eq_false_2 by done;
      unfold draw; by rewrite Nat.add_0_r.
  - destruct fuel as [|fuel]; [lia|]. simpl. step (run_randbelow n σ).
    pose proof (Hrep 0 ltac:(lia)) as H0.
    unfold draw in H0. rewrite Nat.add_0_r in H0.
    rewrite bool_decide_eq_true_2 by done.
    rewrite (IH fuel (advance 1 σ)).
    + by rewrite draw_advance, advance_advance, Nat.add_1_r.
    + lia.
    + intros i Hi. rewrite draw_advance. apply Hrep. lia.
    + by rewrite draw_advance.
Qed.

(** On a tape the first value outside the selected ones comes within its
    patience. *)
Lemma first_fresh n (selected : list nat) σ :
  length selected < n →
  ∃ k, k < patience (entropy (rng σ)) (cursor (rng σ)) n
       ∧ (∀ i, i < k → draw n σ i ∈ selected)
       ∧ draw n σ k ∉ selected.
Proof.
  intros Hlen.
  destruct (tape_fair (entropy (rng σ)) (cursor (rng σ)) n selected Hlen)
    as (k & Hk & Hnew).
  revert Hk Hnew. induction (lt_wf k) as [k _ IH]. intros Hk Hnew.
  destruct (decide (Forall (λ i, draw n σ i ∈ selected) (seq 0 k)))
    as [Hall|Hnot].
  - exists k. split_and!; [done| |done].
    intros i Hi. apply (proj1 (Forall_forall _ _) Hall), elem_of_seq. lia.
  - apply not_Forall_Exists in Hnot; [|apply _].
    apply Exists_exists in Hnot as (i & [_ Hi]%elem_of_seq & Hout).
    apply (IH i); [lia|lia|done].
Qed.

Lemma run_draw_fresh n selected k σ :
  length selected < n →
  (∀ i, i < k → draw n σ i ∈ selected) →
  draw n σ k ∉ selected →
  random.draw_fresh n selected σ = (inr (draw n σ k), advance (S k) σ).
Proof.
  intros Hlen Hrep Hnew. unfold random.draw_fresh. rewrite run_get_state.
  destruct (first_fresh n selected σ Hlen) as (k' & Hk' & Hrep' & Hnew').
  assert (k = k') as <-.
  { destruct (Nat.lt_trichotomy k k') as [?|[?|?]]; [|done|].
    - destruct Hnew. by apply Hrep'.
    - destruct Hnew'. by apply Hrep. }
  apply run_redraw; [lia|done|done].
Qed.

(** Two indices out of [range(0, n)] by the loop that [random.sample]
    runs for more than 21 elements: the first draw, and the first draw
    after it that differs from it. *)
Lemma run_sample_fresh n k σ :
  21 < n →
  (∀ i, 1 ≤ i ≤ k → draw n σ i = draw n σ 0) →
  draw n σ (S k) ≠ draw n σ 0 →
  random.sample (seq 0 n) 2 σ
  = (inr [draw n σ 0; draw n σ (S k)], advance (k + 2) σ).
Proof.
  intros Hn Hrep Hnew. unfold random.sample. rewrite length_seq.
  destruct (Nat.ltb_spec n 2) as [|_]; [lia|].
  change (random.setsize 2) with 21.
  destruct (Nat.leb_spec n 21) as [|_]; [lia|].
  assert (∀ i, draw n σ i < n) as Hlt
    by (intros i; apply Nat.mod_upper_bound; lia).
  assert (random.select_fresh 1 n (seq 0 n) [draw n σ 0] (advance 1 σ)
          = (inr [draw n σ (S k)], advance (k + 2) σ)) as Hsecond.
  { assert (random.draw_fresh n [draw n σ 0] (advance 1 σ)
            = (inr (draw n (advance 1 σ) k), advance (S k) (advance 1 σ)))
      as Hdraw.
    { apply run_draw_fresh.
      - simpl. lia.
      - intros i Hi. rewrite draw_advance. apply list_elem_of_singleton.
        apply Hrep. lia.
      - rewrite draw_advance. intros Hin%list_elem_of_singleton.
        by apply Hnew. }
    cbn [random.select_fresh]. step Hdraw.
    rewrite advance_advance, draw_advance.
    rewrite seq_nth by apply Hlt.
    by replace (S k + 1) with (k + 2) by lia. }
  change (random.select_fresh 2 n (seq 0 n) [])
    with (j ← random.draw_fresh (A:=A) n [];
          result ← random.select_fresh 1 n (seq 0 n) [j];
          mret (nth j (seq 0 n) 0 :: result)).
  rewrite (run_bind _ _ _ _ _ (run_draw_fresh n [] 0 σ ltac:(simpl; lia)
             ltac:(intros i Hi; lia) ltac:(apply not_elem_of_nil))).
  step Hsecond. by rewrite seq_nth by apply Hlt.
Qed.

(** Whatever the size of the population, two distinct indices come back,
    and only draws have been made. *)
Lemma run_sample_pair n σ :
  2 ≤ n →
  ∃ i0 i1 d,
    random.sample (seq 0 n) 2 σ = (inr [i0; i1], advance d σ)
    ∧ i0 < n ∧ i1 < n ∧ i0 ≠ i1 ∧ 2 ≤ d.
Proof.
  intros Hn. destruct (decide (n ≤ 21)) as [Hpool|Hset].
  - eexists _, _, 2. split; [by apply run_sample_pool|].
    assert ((next_draws n σ).1 < n) by (apply Nat.mod_upper_bound; lia).
    assert ((next_draws n σ).2 < n - 1) by (apply Nat.mod_upper_bound; lia).
    case_decide; lia.
  - destruct (first_fresh n [draw n σ 0] (advance 1 σ) ltac:(simpl; lia))
      as (k & _ & Hrep & Hnew).
    exists (draw n σ 0), (draw n σ (S k)), (k + 2).
    assert (∀ i, draw n σ i < n) as Hlt
      by (intros i; apply Nat.mod_upper_bound; lia).
    rewrite draw_advance in Hnew.
    split_and!; [|done|done| |lia].
    + apply run_sample_fresh; [lia| |].
      * intros i Hi. specialize (Hrep (i - 1) ltac:(lia)).
        rewrite draw_advance in Hrep.
        apply list_elem_of_singleton in Hrep.
        by replace (1 + (i - 1)) with i in Hrep by lia.
      * intros Heq. apply Hnew, list_elem_of_singleton. done.
    + intros Heq. apply Hnew, list_elem_of_singleton. done.
Qed.

Lemma run_sample_short (population : list nat) k σ :
  length population < k →
  random.sample population k σ = (inl ValueError, σ).
Proof.
  intros H. unfold random.sample.
  by destruct (Nat.ltb_spec (length population) k); [|lia].
Qed.
Lemma run_index_select σ r t s0 n rest i0 i1 dev :
  objects σ !! r = Some t →
  t_sizes t = s0 :: n :: rest →
  dev = t_device t →
  i0 < n → i1 < n →
  valid_view σ t →
  let index := torch.IndexTensor [i0; i1] dev in
  let out := s0 :: 2 :: rest in
  ∃ data,
    torch.index_select r 1 index σ
    = (inr (length (objects σ)),
       alloc σ [select_view (length (storages σ)) r t] [data])
    ∧ length data = torch.numel out
    ∧ ∀ b j v tl,
        [i0; i1] !! j = Some v →
        Forall2 lt (b :: j :: tl) out →
        data !! torch.linear (b :: j :: tl) (torch.contiguous_strides out)
        = torch.peek σ t (b :: v :: tl).
Proof.
  intros Hr Hsz Hdev Hi0 Hi1 Hvalid index out.
  assert (Forall (λ i, i < n) (torch.index_values index)) as Hidx
    by (by repeat constructor).
  set (f := λ idx : list nat,
         torch.peek σ t
           (alter (λ i, default 0 (torch.index_values index !! i)) 1 idx)).
  assert (∀ b j tl, Forall2 lt (b :: j :: tl) out →
            ∃ v, torch.index_values index !! j = Some v ∧
                 f (b :: j :: tl) = torch.peek σ t (b :: v :: tl) ∧
                 is_Some (torch.peek σ t (b :: v :: tl))) as Hf.
  { intros b j tl (Hb & (Hj & Htl)%Forall2_cons_1)%Forall2_cons_1.
    destruct (lookup_lt_is_Some_2 (torch.index_values index) j Hj)
      as [v Hv].
    exists v. split; [done|]. unfold f. simpl. simpl in Hv. rewrite Hv. simpl.
    split; [done|]. apply (valid_view_peek _ _ _ Hvalid). rewrite Hsz.
    constructor; [done|constructor; [|done]].
    by eapply (Forall_lookup_1 _ _ _ _ Hidx). }
  destruct (mapM f (torch.indices out)) as [data|] eqn:Hdata; last first.
  { apply mapM_None_1, Exists_exists in Hdata as (idx & Hin & Hnone).
    apply elem_of_indices in Hin. unfold out in Hin.
    apply Forall2_cons_inv_r in Hin as (b & idx1 & Hb & Hin & ->).
    apply Forall2_cons_inv_r in Hin as (j & tl & Hj & Htl & ->).
    destruct (Hf b j tl) as (v & _ & Heq & [x Hx]);
      [by constructor; [|constructor]|congruence]. }
  exists data. split; [|split].
  - unfold torch.index_select. step (run_deref _ _ _ Hr).
    run ltac:(apply run_from_option; by rewrite Hsz).
    run ltac:(apply run_check; by rewrite bool_decide_eq_true).
    unfold select_view.
    run ltac:(apply run_check, forallb_forall;
              intros i Hi%list_elem_of_In; apply Nat.ltb_lt;
              by eapply (proj1 (Forall_forall _ _) Hidx)).
    rewrite run_get_state.
    run ltac:(apply run_from_option; rewrite Hsz; exact Hdata).
    step (run_unary_history "IndexSelectBackward" _ _ _ Hr).
    step (run_new_storage data σ).
    rewrite run_new_object, alloc_alloc, length_objects_alloc, Hsz. simpl.
    by rewrite Nat.add_0_r.
  - apply length_mapM in Hdata. by rewrite <-Hdata, length_indices.
  - intros b j v tl Hv Hin.
    apply mapM_Some_1 in Hdata.
    pose proof (indices_lookup_linear _ _ Hin) as Hk.
    destruct (Forall2_lookup_l _ _ _ _ _ Hdata Hk) as (y & Hy & Hfy).
    destruct (Hf _ _ _ Hin) as (v' & Hv' & Heq & _).
    rewrite Hy, <-Hfy, Heq. simpl in Hv'. by simplify_eq.
Qed.

Lemma run_size_out_of_range r d t σ :
  objects σ !! r = Some t → t_sizes t !! d = None →
  torch.size r d σ = (inl IndexError, σ).
Proof.
  intros Hr Hn. unfold torch.size. step (run_deref r t σ Hr).
  by rewrite Hn.
Qed.

Lemma run_index_select_out_of_range σ r t n i0 i1 :
  objects σ !! r = Some t → t_sizes t !! 1 = Some n →
  ¬ (i0 < n ∧ i1 < n) →
  torch.index_select r 1 (torch.IndexTensor [i0; i1] (t_device t)) σ
  = (inl RuntimeError, σ).
Proof.
  intros Hr Hn Hout. unfold torch.index_select.
  step (run_deref r t σ Hr). rewrite Hn.
  rewrite (run_bind _ _ σ n σ) by done.
  rewrite (run_bind _ _ σ () σ) by (apply run_check; by apply bool_decide_eq_true).
  apply run_bind_raise.
  cbn [torch.index_values forallb].
  destruct (Nat.ltb_spec i0 n), (Nat.ltb_spec i1 n); try done.
  exfalso. by apply Hout.
Qed.

Lemma run_index_select_other_device σ r t n index :
  objects σ !! r = Some t → t_sizes t !! 1 = Some n →
  torch.index_device index ≠ t_device t →
  torch.index_select r 1 index σ = (inl RuntimeError, σ).
Proof.
  intros Hr Hn Hdev. unfold torch.index_select.
  step (run_deref r t σ Hr). rewrite Hn.
  rewrite (run_bind _ _ σ n σ) by done.
  apply run_bind_raise. by rewrite bool_decide_eq_false_2.
Qed.

Lemma run_narrow σ r t dim start len n st :
  objects σ !! r = Some t →
  t_sizes t !! dim = Some n → t_strides t !! dim = Some st →
  start + len ≤ n →
  torch.narrow r dim start len σ
  = (inr (length (objects σ)),
     alloc σ [Tensor (t_storage t) (t_offset t + start * st)
                     (<[dim := len]> (t_sizes t)) (t_strides t)
                     (t_device t) (unary_history "SliceBackward" r t)] []).
Proof.
  intros Hr Hn Hst Hle. unfold torch.narrow.
  step (run_deref _ _ _ Hr).
  run ltac:(by apply run_from_option).
  run ltac:(by apply run_from_option).
  run ltac:(apply run_check, Nat.leb_le; lia).
  step (run_unary_history "SliceBackward" _ _ _ Hr).
  apply run_new_object.
Qed.

(** The two halves of a tensor with two entries along dimension 1. *)
Lemma run_chunk2 σ r t :
  objects σ !! r = Some t →
  t_sizes t !! 1 = Some 2 →
  is_Some (t_strides t !! 1) →
  torch.chunk r 2 1 σ
  = (inr [length (objects σ); length (objects σ) + 1],
     alloc σ [chunk_view 0 r t; chunk_view 1 r t] []).
Proof.
  intros Hr Hsz [st1 Hst]. unfold torch.chunk.
  step (run_deref _ _ _ Hr).
  run ltac:(by apply run_from_option).
  run ltac:(by apply run_check).
  change ((2 + 2 - 1) / 2) with 1. change ((2 + 1 - 1) / 1) with 2.
  change (1 =? 0) with false. cbv iota. change (seq 0 2) with [0; 1].
  unfold mapM.
  run ltac:(by apply (run_narrow σ r t 1 0 1 2 st1); [| | |lia]).
  run ltac:(erewrite run_bind;
            [|apply (run_narrow _ r t 1 1 1 2 st1);
              [by apply objects_alloc_old|done|done|done]];
            reflexivity).
  rewrite run_ret, alloc_alloc, length_objects_alloc. unfold chunk_view.
  rewrite Hst. simpl. by rewrite !Nat.add_0_r.
Qed.

Lemma run_squeeze1 σ r t :
  objects σ !! r = Some t →
  t_sizes t !! 1 = Some 1 →
  torch.squeeze r 1 σ
  = (inr (length (objects σ)), alloc σ [squeeze_view r t] []).
Proof.
  intros Hr Hsz. unfold torch.squeeze.
  step (run_deref _ _ _ Hr).
  run ltac:(by apply run_from_option).
  step (run_unary_history "SqueezeBackward" _ _ _ Hr).
  by rewrite run_new_object.
Qed.
End operations.

(** ** The views the sampler builds *)

Section views.
Context {A : Type}.
Implicit Types (σ : state A) (t : tensor).

Lemma select_view_sizes t l r B n rest :
  t_sizes t = B :: n :: rest →
  t_sizes (select_view l r t) = B :: 2 :: rest.
Proof. unfold select_view. simpl. by intros ->. Qed.

Lemma select_view_strides t l r B n rest :
  t_sizes t = B :: n :: rest →
  t_strides (select_view l r t)
  = torch.contiguous_strides (B :: 2 :: rest).
Proof. unfold select_view. simpl. by intros ->. Qed.

Lemma chunk_select_sizes t l r rc k B n rest :
  t_sizes t = B :: n :: rest →
  t_sizes (chunk_view k rc (select_view l r t)) = B :: 1 :: rest.
Proof. unfold chunk_view, select_view. simpl. by intros ->. Qed.

Lemma sampled_sizes t l r rc rq k B n rest :
  t_sizes t = B :: n :: rest →
  t_sizes (squeeze_view rq (chunk_view k rc (select_view l r t)))
  = B :: rest.
Proof. unfold squeeze_view, chunk_view, select_view. simpl. by intros ->. Qed.

Lemma sampled_storage t l r rc rq k :
  t_storage (squeeze_view rq (chunk_view k rc (select_view l r t))) = l.
Proof. done. Qed.

(** Position [b :: tl] of the [k]-th sampled view is position
    [b :: k :: tl] of the selected tensor. *)
Lemma sampled_address t l r rc rq k B n rest b tl :
  t_sizes t = B :: n :: rest →
  torch.address (squeeze_view rq (chunk_view k rc (select_view l r t)))
                (b :: tl)
  = torch.linear (b :: k :: tl) (torch.contiguous_strides (B :: 2 :: rest)).
Proof.
  intros Hsz. unfold torch.address, squeeze_view, chunk_view, select_view.
  simpl. rewrite Hsz. simpl. rewrite !linear_cons. lia.
Qed.

Lemma sampled_peek σ t l r rc rq k B n rest b tl (d : list A) :
  t_sizes t = B :: n :: rest →
  storages σ !! l = Some d →
  torch.peek σ (squeeze_view rq (chunk_view k rc (select_view l r t)))
             (b :: tl)
  = d !! torch.linear (b :: k :: tl)
                      (torch.contiguous_strides (B :: 2 :: rest)).
Proof.
  intros Hsz Hl. unfold torch.peek.
  rewrite (sampled_address _ _ _ _ _ _ _ _ _ _ _ Hsz), sampled_storage, Hl.
  done.
Qed.

(** The positions of a sampled view, as positions of the selected tensor. *)
Lemma sampled_position t l r rc rq k B n rest idx :
  t_sizes t = B :: n :: rest → k < 2 →
  Forall2 lt idx
    (t_sizes (squeeze_view rq (chunk_view k rc (select_view l r t)))) →
  ∃ b tl, idx = b :: tl ∧ Forall2 lt (b :: k :: tl) (B :: 2 :: rest).
Proof.
  intros Hsz Hk. rewrite (sampled_sizes _ _ _ _ _ _ _ _ _ Hsz).
  intros (b & tl & Hb & Htl & ->)%Forall2_cons_inv_r.
  exists b, tl. split; [done|]. by constructor; [|constructor].
Qed.
End views.

(** ** The sampler, run on a well-formed input *)

Lemma objects_alloc_new0 {A} (σ : state A) ts (ds : list (list A)) t :
  ts !! 0 = Some t →
  objects (alloc σ ts ds) !! length (objects σ) = Some t.
Proof.
  intros H. rewrite <-(Nat.add_0_r (length (objects σ))).
  by apply objects_alloc_new.
Qed.

Lemma storages_alloc_new0 {A} (σ : state A) ts (ds : list (list A)) s :
  ds !! 0 = Some s →
  storages (alloc σ ts ds) !! length (storages σ) = Some s.
Proof.
  intros H. rewrite <-(Nat.add_0_r (length (storages σ))).
  by apply storages_alloc_new.
Qed.

Ltac tidy :=
  rewrite ?alloc_alloc, ?length_objects_alloc, ?length_storages_alloc;
  cbn [app length];
  rewrite <-?Nat.add_assoc; cbn [Nat.add].

Ltac tidy_in H :=
  rewrite ?alloc_alloc, ?length_objects_alloc, ?length_storages_alloc in H;
  cbn [app length] in H;
  rewrite <-?Nat.add_assoc in H; cbn [Nat.add] in H.

Ltac lookup_new :=
  first [apply objects_alloc_new0 | apply objects_alloc_new]; reflexivity.

Ltac view_size :=
  first [erewrite chunk_select_sizes; [reflexivity|eassumption]
        |erewrite select_view_sizes; [reflexivity|eassumption]].

Ltac view_stride :=
  erewrite select_view_strides; [by eexists|eassumption].

Section sampler_run.
Context {A : Type}.
Implicit Types (σ : state A) (t : tensor).

Lemma run_subfield (tokens : TextFieldTensors) field name r σ :
  tokens !! "tokens" = Some field → field !! name = Some r →
  subfield tokens name σ = (inr r, σ).
Proof.
  intros Ht Hf. unfold subfield.
  step (run_getitem (A:=A) _ _ _ σ Ht). by apply run_getitem.
Qed.

Lemma run_unpack2 {X} (a b : X) σ :
  unpack2 (A:=A) [a; b] σ = (inr (a, b), σ).
Proof. done. Qed.

Lemma run_as_tensor data dev σ :
  torch.as_tensor (A:=A) data dev σ = (inr (torch.IndexTensor data dev), σ).
Proof. done. Qed.

(** The run of the sampler from the two indices [random.sample] returns.
    The sub-fields need not agree on the number of spans: ["token_ids"]
    has [n1] of them, and the two indices are within those of the mask
    and of the type ids. *)
Lemma run_sample_anchor_positive_pairs σ (tokens : TextFieldTensors)
    field r1 r2 r3 t1 t2 t3 n1 n2 n3 B1 B2 B3 rest1 rest2 rest3 i0 i1 d :
  tokens !! "tokens" = Some field →
  field !! "token_ids" = Some r1 →
  field !! "mask" = Some r2 →
  field !! "type_ids" = Some r3 →
  objects σ !! r1 = Some t1 →
  objects σ !! r2 = Some t2 →
  objects σ !! r3 = Some t3 →
  t_sizes t1 = B1 :: n1 :: rest1 →
  t_sizes t2 = B2 :: n2 :: rest2 →
  t_sizes t3 = B3 :: n3 :: rest3 →
  t_device t2 = t_device t1 → t_device t3 = t_device t1 →
  valid_view σ t1 → valid_view σ t2 → valid_view σ t3 →
  random.sample (seq 0 n1) 2 σ = (inr [i0; i1], advance d σ) →
  i0 < n1 → i1 < n1 → i0 < n2 → i1 < n2 → i0 < n3 → i1 < n3 →
  let m := length (objects σ) in
  let l := length (storages σ) in
  ∃ d1 d2 d3,
    sample_anchor_positive_pairs tokens σ
    = (inr (text_field (m + 9) (m + 10) (m + 11),
            text_field (m + 12) (m + 13) (m + 14)),
       alloc (advance d σ) (sampled_objects m l r1 r2 r3 t1 t2 t3)
             [d1; d2; d3])
    ∧ (∀ b k v tl, [i0; i1] !! k = Some v →
         Forall2 lt (b :: k :: tl) (B1 :: 2 :: rest1) →
         d1 !! torch.linear (b :: k :: tl)
                 (torch.contiguous_strides (B1 :: 2 :: rest1))
         = torch.peek σ t1 (b :: v :: tl))
    ∧ (∀ b k v tl, [i0; i1] !! k = Some v →
         Forall2 lt (b :: k :: tl) (B2 :: 2 :: rest2) →
         d2 !! torch.linear (b :: k :: tl)
                 (torch.contiguous_strides (B2 :: 2 :: rest2))
         = torch.peek σ t2 (b :: v :: tl))
    ∧ (∀ b k v tl, [i0; i1] !! k = Some v →
         Forall2 lt (b :: k :: tl) (B3 :: 2 :: rest3) →
         d3 !! torch.linear (b :: k :: tl)
                 (torch.contiguous_strides (B3 :: 2 :: rest3))
         = torch.peek σ t3 (b :: v :: tl)).
Proof.
  intros Htok Hf1 Hf2 Hf3 Hr1 Hr2 Hr3 Hsz1 Hsz2 Hsz3 Hdev2 Hdev3
    Hv1 Hv2 Hv3 Hdraw Hi0 Hi1 Hi02 Hi12 Hi03 Hi13 m l.
  set (σr := advance d σ).
  destruct (run_index_select σr r1 t1 B1 n1 rest1 i0 i1 (t_device t1))
    as (d1 & Hrun1 & _ & Hd1); [done..|].
  destruct (run_index_select (alloc σr [select_view l r1 t1] [d1])
              r2 t2 B2 n2 rest2 i0 i1 (t_device t1))
    as (d2 & Hrun2 & _ & Hd2);
    [by apply objects_alloc_old|done|done|done|done
    |by apply valid_view_alloc|].
  destruct (run_index_select
              (alloc σr [select_view l r1 t1; select_view (l + 1) r2 t2]
                     [d1; d2])
              r3 t3 B3 n3 rest3 i0 i1 (t_device t1))
    as (d3 & Hrun3 & _ & Hd3);
    [by apply objects_alloc_old|done|done|done|done
    |by apply valid_view_alloc|].
  exists d1, d2, d3. split; [|split; [|split]].
  - unfold sample_anchor_positive_pairs.
    step (run_subfield tokens field "token_ids" r1 σ Htok Hf1).
    run ltac:(by eapply run_size; [|rewrite Hsz1]).
    step Hdraw. fold σr.
    step (run_subfield tokens field "token_ids" r1 σr Htok Hf1).
    step (run_device r1 t1 σr Hr1).
    step (run_as_tensor [i0; i1] (t_device t1) σr).
    step (run_subfield tokens field "token_ids" r1 σr Htok Hf1).
    step Hrun1. tidy.
    run ltac:(by eapply run_subfield).
    step Hrun2. tidy.
    run ltac:(by eapply run_subfield).
    tidy_in Hrun3. step Hrun3. tidy.
    run ltac:(eapply run_chunk2; [lookup_new|view_size|view_stride]). tidy.
    rewrite (run_bind _ _ _ _ _ (run_unpack2 _ _ _)).
    run ltac:(eapply run_chunk2; [lookup_new|view_size|view_stride]). tidy.
    rewrite (run_bind _ _ _ _ _ (run_unpack2 _ _ _)).
    run ltac:(eapply run_chunk2; [lookup_new|view_size|view_stride]). tidy.
    rewrite (run_bind _ _ _ _ _ (run_unpack2 _ _ _)).
    run ltac:(eapply run_squeeze1; [lookup_new|view_size]). tidy.
    run ltac:(eapply run_squeeze1; [lookup_new|view_size]). tidy.
    run ltac:(eapply run_squeeze1; [lookup_new|view_size]). tidy.
    run ltac:(eapply run_squeeze1; [lookup_new|view_size]). tidy.
    run ltac:(eapply run_squeeze1; [lookup_new|view_size]). tidy.
    run ltac:(eapply run_squeeze1; [lookup_new|view_size]). tidy.
    reflexivity.
  - intros b k v tl Hk Hin. by apply Hd1.
  - intros b k v tl Hk Hin. rewrite (Hd2 b k v tl Hk Hin).
    transitivity (torch.peek σr t2 (b :: v :: tl)); [|done].
    apply peek_alloc_old, (valid_view_peek σr); [exact Hv2|].
    rewrite Hsz2. apply Forall2_cons_1 in Hin as (? & (? & ?)%Forall2_cons_1).
    constructor; [done|constructor; [|done]].
    destruct k as [|[|?]]; simplify_eq/=; done.
  - intros b k v tl Hk Hin. rewrite (Hd3 b k v tl Hk Hin).
    transitivity (torch.peek σr t3 (b :: v :: tl)); [|done].
    apply peek_alloc_old, (valid_view_peek σr); [exact Hv3|].
    rewrite Hsz3. apply Forall2_cons_1 in Hin as (? & (? & ?)%Forall2_cons_1).
    constructor; [done|constructor; [|done]].
    destruct k as [|[|?]]; simplify_eq/=; done.
Qed.
End sampler_run.

(** ** What a successful call of the sampler returns *)

Section sampler_summary.
Context {A : Type}.
Implicit Types (σ : state A) (t : tensor).

Lemma lookup_text_field a b c :
  lookup_subfield (text_field a b c) "token_ids" = Some a ∧
  lookup_subfield (text_field a b c) "mask" = Some b ∧
  lookup_subfield (text_field a b c) "type_ids" = Some c.
Proof.
  unfold lookup_subfield, text_field. rewrite lookup_singleton_eq. simpl.
  by rewrite lookup_insert_eq, lookup_insert_ne, lookup_insert_eq,
    !lookup_insert_ne, lookup_singleton_eq.
Qed.

Lemma dom_text_field a b c :
  dom (text_field a b c) = ({["tokens"]} : gset string) ∧
  ∃ field, text_field a b c !! "tokens" = Some field ∧
           dom field = (list_to_set sub_fields : gset string).
Proof.
  unfold text_field. split; [by rewrite dom_singleton_L|].
  eexists. split; [by rewrite lookup_singleton_eq|].
  rewrite !dom_insert_L, dom_singleton_L. simpl. set_solver.
Qed.

Lemma lookup_subfield_Some (tokens : TextFieldTensors) name r :
  lookup_subfield tokens name = Some r ↔
  ∃ field, tokens !! "tokens" = Some field ∧ field !! name = Some r.
Proof.
  unfold lookup_subfield. destruct (tokens !! "tokens") as [field|]; simpl.
  - split; [by exists field|]. by intros (? & [= <-] & ?).
  - split; [done|]. by intros (? & ? & ?).
Qed.

Lemma run_subfield_lookup (tokens : TextFieldTensors) name r σ :
  lookup_subfield tokens name = Some r →
  subfield tokens name σ = (inr r, σ).
Proof.
  intros (field & ? & ?)%lookup_subfield_Some. by eapply run_subfield.
Qed.

Lemma elem_of_sub_fields name :
  name ∈ sub_fields ↔
  name = "token_ids" ∨ name = "mask" ∨ name = "type_ids".
Proof. unfold sub_fields. rewrite !elem_of_cons, elem_of_nil. tauto. Qed.

Lemma sample_summary σ (tokens : TextFieldTensors) B n :
  field_tensor_set σ tokens B n → 2 ≤ n →
  let l := length (storages σ) in
  ∃ i0 i1 d anchors positives ts ds,
    let σ' := alloc (advance d σ) ts ds in
    random.sample (seq 0 n) 2 σ = (inr [i0; i1], advance d σ)
    ∧ i0 < n ∧ i1 < n ∧ i0 ≠ i1
    ∧ sample_anchor_positive_pairs tokens σ = (inr (anchors, positives), σ')
    ∧ (∃ a b c, anchors = text_field a b c)
    ∧ (∃ a b c, positives = text_field a b c)
    ∧ ∀ name, name ∈ sub_fields →
        ∃ r t rest ra rp rs rc0 rc1 d,
          lookup_subfield tokens name = Some r ∧
          objects σ !! r = Some t ∧
          t_sizes t = B :: n :: rest ∧
          valid_view σ t ∧
          lookup_subfield anchors name = Some ra ∧
          lookup_subfield positives name = Some rp ∧
          objects σ' !! ra
          = Some (squeeze_view rc0
                   (chunk_view 0 rs (select_view (l + slot name) r t))) ∧
          objects σ' !! rp
          = Some (squeeze_view rc1
                   (chunk_view 1 rs (select_view (l + slot name) r t))) ∧
          storages σ' !! (l + slot name) = Some d ∧
          ∀ b k v tl,
            [i0; i1] !! k = Some v →
            Forall2 lt (b :: k :: tl) (B :: 2 :: rest) →
            d !! torch.linear (b :: k :: tl)
                   (torch.contiguous_strides (B :: 2 :: rest))
            = torch.peek σ t (b :: v :: tl).
Proof.
  intros [dev Hfts] Hn l.
  destruct (Hfts "token_ids") as (r1 & t1 & rest1 & Hl1 & Hr1 & Hsz1 & Hd1 & Hv1);
    [apply elem_of_sub_fields; auto|].
  destruct (Hfts "mask") as (r2 & t2 & rest2 & Hl2 & Hr2 & Hsz2 & Hd2 & Hv2);
    [apply elem_of_sub_fields; auto|].
  destruct (Hfts "type_ids") as (r3 & t3 & rest3 & Hl3 & Hr3 & Hsz3 & Hd3 & Hv3);
    [apply elem_of_sub_fields; auto|].
  pose proof Hl1 as (field & Htok & Hf1)%lookup_subfield_Some.
  pose proof Hl2 as (field2 & Htok2 & Hf2)%lookup_subfield_Some.
  pose proof Hl3 as (field3 & Htok3 & Hf3)%lookup_subfield_Some.
  assert (field2 = field) as -> by congruence.
  assert (field3 = field) as -> by congruence.
  destruct (run_sample_pair n σ Hn) as (i0 & i1 & d & Hdraw & Hi0 & Hi1 & Hne & _).
  destruct (run_sample_anchor_positive_pairs σ tokens field r1 r2 r3
              t1 t2 t3 n n n B B B rest1 rest2 rest3 i0 i1 d)
    as (d1 & d2 & d3 & Hrun & Hdata1 & Hdata2 & Hdata3);
    [done|done|done|done|done|done|done|done|done|done
    |congruence|congruence|done|done|done|done
    |done|done|done|done|done|done|].
  destruct (lookup_text_field (length (objects σ) + 9)
              (length (objects σ) + 10) (length (objects σ) + 11))
    as (Ha1 & Ha2 & Ha3).
  destruct (lookup_text_field (length (objects σ) + 12)
              (length (objects σ) + 13) (length (objects σ) + 14))
    as (Hp1 & Hp2 & Hp3).
  exists i0, i1, d. do 4 eexists.
  split; [exact Hdraw|]. split; [done|]. split; [done|]. split; [done|].
  split; [exact Hrun|].
  split; [by do 3 eexists|]. split; [by do 3 eexists|].
  intros name [->|[->| ->]]%elem_of_sub_fields.
  - change (slot "token_ids") with 0. rewrite Nat.add_0_r.
    exists r1, t1, rest1. do 5 eexists. exists d1.
    split_and!; [done|done|done|done|exact Ha1|exact Hp1| | | |exact Hdata1].
    + by apply (objects_alloc_new (advance d σ) _ _ 9).
    + by apply (objects_alloc_new (advance d σ) _ _ 12).
    + by apply (storages_alloc_new0 (advance d σ)).
  - change (slot "mask") with 1.
    exists r2, t2, rest2. do 5 eexists. exists d2.
    split_and!; [done|done|done|done|exact Ha2|exact Hp2| | | |exact Hdata2].
    + by apply (objects_alloc_new (advance d σ) _ _ 10).
    + by apply (objects_alloc_new (advance d σ) _ _ 13).
    + by apply (storages_alloc_new (advance d σ) _ _ 1).
  - change (slot "type_ids") with 2.
    exists r3, t3, rest3. do 5 eexists. exists d3.
    split_and!; [done|done|done|done|exact Ha3|exact Hp3| | | |exact Hdata3].
    + by apply (objects_alloc_new (advance d σ) _ _ 11).
    + by apply (objects_alloc_new (advance d σ) _ _ 14).
    + by apply (storages_alloc_new (advance d σ) _ _ 2).
Qed.
End sampler_summary.

(** ** Claims about the span sampler *)

Section sampler_claims.
Context {A : Type}.
Implicit Types (σ : state A) (t : tensor).

(** A state in which the next draws are the entries of [script]. *)
Lemma scripted_draws (script : list nat) :
  ∃ σ0 : state A,
    cursor (rng σ0) = 0 ∧ ∀ i x, script !! i = Some x →
      entropy (rng σ0) i = x.
Proof.
  exists (State [] [] (Generator (scripted script) 0)
                (Runtime None (λ _ _, []) 0 ValueError)).
  split; [done|]. intros i x Hi. simpl. unfold scripted_values.
  by rewrite Hi.
Qed.

(** For up to 21 spans each ordered pair of distinct indices below [n] is
    the outcome of exactly one pair of draws, below [n] and below
    [n - 1]. *)
Lemma sample_pool_bijection n a b :
  2 ≤ n → n ≤ 21 → a < n → b < n → a ≠ b →
  exists ! j : nat * nat,
    j.1 < n ∧ j.2 < n - 1 ∧
    ∀ σ : state A, next_draws n σ = j →
         (random.sample (seq 0 n) 2 σ).1 = inr [a; b].
Proof.
  intros Hn Hpool Ha Hb Hab.
  exists (a, if decide (b = n - 1) then a else b). split.
  - simpl. split; [done|]. split; [case_decide; lia|].
    intros σ Hj. rewrite run_sample_pool by lia. rewrite Hj. simpl.
    do 3 f_equal. repeat case_decide; lia.
  - intros [x y] (Hx & Hy & Hσ). simpl in Hx, Hy.
    destruct (scripted_draws [x; y]) as (σ0 & Hc & Htape).
    assert (next_draws n σ0 = (x, y)) as Hj.
    { unfold next_draws. rewrite Hc.
      rewrite (Htape 0 x), (Htape 1 y) by done.
      by rewrite !Nat.mod_small by lia. }
    specialize (Hσ σ0 Hj). rewrite run_sample_pool, Hj in Hσ by lia.
    simpl in Hσ. injection Hσ as -> Hy'.
    f_equal. repeat case_decide; lia.
Qed.

(** For more spans each ordered pair of distinct indices below [n] is the
    outcome of exactly one pair of draws below [n], whatever the number
    of repeats of the first drawn in between. *)
Lemma sample_fresh_bijection n a b :
  21 < n → a < n → b < n → a ≠ b →
  exists ! j : nat * nat,
    j.1 < n ∧ j.2 < n ∧ j.1 ≠ j.2 ∧
    ∀ (σ : state A) k,
      draw n σ 0 = j.1 →
      (∀ i, 1 ≤ i ≤ k → draw n σ i = j.1) →
      draw n σ (S k) = j.2 →
      random.sample (seq 0 n) 2 σ = (inr [a; b], advance (k + 2) σ).
Proof.
  intros Hn Ha Hb Hab. exists (a, b). split.
  - simpl. split_and!; [done..|].
    intros σ k H0 Hrep Hk. rewrite <-H0, <-Hk.
    apply run_sample_fresh; [done| |congruence].
    intros i Hi. rewrite H0. by apply Hrep.
  - intros [x y] (Hx & Hy & Hxy & Hσ). simpl in Hx, Hy, Hxy.
    destruct (scripted_draws [x; y]) as (σ0 & Hc & Htape).
    assert (draw n σ0 0 = x ∧ draw n σ0 1 = y) as [H0 H1].
    { unfold draw. rewrite Hc. simpl.
      rewrite (Htape 0 x), (Htape 1 y) by done.
      by rewrite !Nat.mod_small by lia. }
    specialize (Hσ σ0 0 H0 ltac:(intros i; lia) H1).
    assert (random.sample (seq 0 n) 2 σ0
            = (inr [x; y], advance (0 + 2) σ0)) as Hrun.
    { rewrite <-H0, <-H1. apply run_sample_fresh; [done| |congruence].
      intros i; lia. }
    rewrite Hrun in Hσ. congruence.
Qed.

(** C3: a Field Tensor Set whose span dimension has fewer than two
    entries is rejected: the call raises from [random.sample] (the sample
    is larger than the population), returns nothing, and leaves the state,
    the random source included, as it was. *)
Theorem sample_rejects_fewer_than_two_spans σ (tokens : TextFieldTensors)
    r t n :
  lookup_subfield tokens "token_ids" = Some r →
  objects σ !! r = Some t →
  t_sizes t !! 1 = Some n →
  n < 2 →
  sample_anchor_positive_pairs tokens σ = (inl ValueError, σ).
Proof.
  intros Hl Hr Hsz Hn. unfold sample_anchor_positive_pairs.
  step (run_subfield_lookup tokens "token_ids" r σ Hl).
  step (run_size r 1 t n σ Hr Hsz).
  apply run_bind_raise, run_sample_short. by rewrite length_seq.
Qed.

(** C4: on a Field Tensor Set with [n >= 2] spans a call draws once from
    the random source, by its one call of [random.sample]: two distinct
    indices below [n].  Every ordered pair of distinct indices is the
    outcome of exactly one pair of draws (so the choice is uniform,
    without replacement, when the draws are): for up to 21 spans the
    draws are below [n] and below [n - 1]; for more they are both below
    [n], and a repeat of the first is drawn again.  That one pair selects
    the spans of every sub-field and of every example: the anchors hold
    span [i0] and the positives span [i1] at every batch position [b]. *)
Theorem sample_shares_one_index_pair σ (tokens : TextFieldTensors) B n :
  field_tensor_set σ tokens B n → 2 ≤ n →
  ∃ i0 i1 σs anchors positives σ',
    random.sample (seq 0 n) 2 σ = (inr [i0; i1], σs)
    ∧ sample_anchor_positive_pairs tokens σ = (inr (anchors, positives), σ')
    ∧ rng σ' = rng σs
    ∧ i0 < n ∧ i1 < n ∧ i0 ≠ i1
    ∧ (n ≤ 21 → ∀ a b, a < n → b < n → a ≠ b →
         exists ! j : nat * nat,
           j.1 < n ∧ j.2 < n - 1 ∧
           ∀ σ0 : state A, next_draws n σ0 = j →
             (random.sample (seq 0 n) 2 σ0).1 = inr [a; b])
    ∧ (21 < n → ∀ a b, a < n → b < n → a ≠ b →
         exists ! j : nat * nat,
           j.1 < n ∧ j.2 < n ∧ j.1 ≠ j.2 ∧
           ∀ (σ0 : state A) k,
             draw n σ0 0 = j.1 →
             (∀ i, 1 ≤ i ≤ k → draw n σ0 i = j.1) →
             draw n σ0 (S k) = j.2 →
             random.sample (seq 0 n) 2 σ0
             = (inr [a; b], advance (k + 2) σ0))
    ∧ ∀ name, name ∈ sub_fields →
        ∃ r t ra ta rp tp,
          lookup_subfield tokens name = Some r ∧
          objects σ !! r = Some t ∧
          lookup_subfield anchors name = Some ra ∧
          objects σ' !! ra = Some ta ∧
          lookup_subfield positives name = Some rp ∧
          objects σ' !! rp = Some tp ∧
          t_sizes ta = delete 1 (t_sizes t) ∧
          t_sizes tp = delete 1 (t_sizes t) ∧
          ∀ b tl, Forall2 lt (b :: tl) (delete 1 (t_sizes t)) →
            is_Some (torch.peek σ t (b :: i0 :: tl)) ∧
            is_Some (torch.peek σ t (b :: i1 :: tl)) ∧
            torch.peek σ' ta (b :: tl) = torch.peek σ t (b :: i0 :: tl) ∧
            torch.peek σ' tp (b :: tl) = torch.peek σ t (b :: i1 :: tl).
Proof.
  intros Hfts Hn.
  destruct (sample_summary σ tokens B n Hfts Hn)
    as (i0 & i1 & d & anchors & positives & ts & ds & Hdraw & Hi0 & Hi1
        & Hne & Hrun & _ & _ & Hsub).
  exists i0, i1, (advance d σ), anchors, positives,
    (alloc (advance d σ) ts ds).
  split_and!; [done|done|done|done|done|done
              |intros ? a b ? ? ?; by apply sample_pool_bijection
              |intros ? a b ? ? ?; by apply sample_fresh_bijection|].
  intros name Hname.
  destruct (Hsub name Hname)
    as (r & t & rest & ra & rp & rs & rc0 & rc1 & dn & Hl & Hr & Hsz & Hv
        & Hla & Hlp & Hra & Hrp & Hd & Hdata).
  eexists r, t, ra, _, rp, _.
  split_and!; [done|done|done|exact Hra|done|exact Hrp| | |].
  - by rewrite (sampled_sizes _ _ _ _ _ _ _ _ _ Hsz), Hsz.
  - by rewrite (sampled_sizes _ _ _ _ _ _ _ _ _ Hsz), Hsz.
  - rewrite Hsz. simpl.
    intros b tl (Hb & Htl)%Forall2_cons_1.
    rewrite !(sampled_peek _ _ _ _ _ _ _ _ _ _ _ _ _ Hsz Hd).
    rewrite (Hdata b 0 i0 tl), (Hdata b 1 i1 tl);
      [|done|by constructor; [|constructor; [lia|]]
       |done|by constructor; [|constructor; [lia|]]].
    split_and!; [| |done|done];
      apply (valid_view_peek _ _ _ Hv); rewrite Hsz;
      by constructor; [|constructor].
Qed.
End sampler_claims.

(** ** In-place writes and the cells they reach *)

Section writes.
Context {A : Type}.
Implicit Types (σ : state A) (t : tensor).

Lemma foldr_insert_lookup_outside (w : list (nat * A)) (s : list A) a :
  a ∉ w.*1 →
  foldr (λ '(a, x) s, <[a:=x]> s) s w !! a = s !! a.
Proof.
  induction w as [|[a' x] w IH]; [done|]. simpl.
  intros [Hne Hw]%not_elem_of_cons.
  rewrite list_lookup_insert_ne by done. by apply IH.
Qed.

Lemma write_lookup_outside t (data s : list A) a :
  a ∉ torch.footprint t → torch.write t data s !! a = s !! a.
Proof.
  intros Ha. apply foldr_insert_lookup_outside. intros Hin. apply Ha.
  apply list_elem_of_fmap in Hin as ([a' x] & -> & Hin).
  by apply elem_of_zip_l in Hin.
Qed.

Lemma address_in_footprint t idx :
  Forall2 lt idx (t_sizes t) → torch.address t idx ∈ torch.footprint t.
Proof.
  intros H. apply list_elem_of_fmap. exists idx. split; [done|].
  by apply elem_of_indices.
Qed.

(** What [copy_] does to the state: nothing, or one write through the
    view of its target. *)
Lemma copy_effect σ dst t data out σ' :
  objects σ !! dst = Some t →
  torch.copy_ dst data σ = (out, σ') →
  σ' = σ ∨
  ∃ s, storages σ !! t_storage t = Some s ∧
       σ' = State (objects σ)
                  (<[t_storage t := torch.write t data s]> (storages σ))
                  (rng σ) (dist_rt σ).
Proof.
  intros Hr. unfold torch.copy_. step (run_deref _ _ _ Hr).
  destruct (torch.numel (t_sizes t) =? length data) eqn:Hlen.
  - rewrite (run_bind _ _ σ () σ) by done. rewrite run_get_state.
    destruct (storages σ !! t_storage t) as [s|] eqn:Hs.
    + rewrite (run_bind _ _ σ s σ) by done.
      unfold torch.set_storage. intros [= <- <-]. right. by exists s.
    + rewrite (run_bind_raise _ _ σ RuntimeError σ) by done.
      intros [= <- <-]. by left.
  - rewrite (run_bind_raise _ _ σ RuntimeError σ) by done.
    intros [= <- <-]. by left.
Qed.

(** A write through one view leaves another as it was when no cell is
    reachable from both. *)
Lemma copy_frame σ dst t t' data out σ' :
  objects σ !! dst = Some t →
  (t_storage t = t_storage t' →
   ∀ a, a ∈ torch.footprint t → a ∉ torch.footprint t') →
  torch.copy_ dst data σ = (out, σ') →
  torch.contents σ' t' = torch.contents σ t'.
Proof.
  intros Hr Hdisj Hrun.
  destruct (copy_effect _ _ _ _ _ _ Hr Hrun) as [->|(s & Hs & ->)]; [done|].
  apply Forall_mapM_ext, Forall_forall. intros idx Hidx%elem_of_indices.
  unfold torch.peek. simpl.
  destruct (decide (t_storage t = t_storage t')) as [Heq|Hne].
  - rewrite <-Heq, Hs, list_lookup_insert_eq
      by (by eapply lookup_lt_Some). simpl.
    apply write_lookup_outside. intros Hin.
    by apply (Hdisj Heq _ Hin), address_in_footprint.
  - by rewrite list_lookup_insert_ne.
Qed.

Lemma sampled_footprints_disjoint t l r rc rc' rq rq' B n rest a :
  t_sizes t = B :: n :: rest →
  a ∈ torch.footprint
        (squeeze_view rq (chunk_view 0 rc (select_view l r t))) →
  a ∉ torch.footprint
        (squeeze_view rq' (chunk_view 1 rc' (select_view l r t))).
Proof.
  intros Hsz (idx & -> & Hidx%elem_of_indices)%list_elem_of_fmap
         (idx' & Heq & Hidx'%elem_of_indices)%list_elem_of_fmap.
  apply (sampled_position _ _ _ _ _ 0 _ _ _ _ Hsz) in Hidx
    as (b & tl & -> & Hin); [|lia].
  apply (sampled_position _ _ _ _ _ 1 _ _ _ _ Hsz) in Hidx'
    as (b' & tl' & -> & Hin'); [|lia].
  rewrite !(sampled_address _ _ _ _ _ _ _ _ _ _ _ Hsz) in Heq.
  by apply (linear_contiguous_inj _ _ _ Hin Hin') in Heq.
Qed.

Lemma sampled_footprints_disjoint' t l r rc rc' rq rq' B n rest a :
  t_sizes t = B :: n :: rest →
  a ∈ torch.footprint
        (squeeze_view rq (chunk_view 1 rc (select_view l r t))) →
  a ∉ torch.footprint
        (squeeze_view rq' (chunk_view 0 rc' (select_view l r t))).
Proof.
  intros Hsz H1 H0.
  by apply (sampled_footprints_disjoint t l r rc' rc rq' rq B n rest a).
Qed.

Lemma slot_inj name name' :
  name ∈ sub_fields → name' ∈ sub_fields →
  slot name = slot name' → name = name'.
Proof.
  intros [->|[->| ->]]%elem_of_sub_fields [->|[->| ->]]%elem_of_sub_fields;
    by vm_compute.
Qed.
End writes.

Section sampler_structure.
Context {A : Type}.
Implicit Types (σ : state A) (t : tensor).

Lemma sampled_view_valid σ σ' t l r rc rq k v B n rest (d : list A) :
  t_sizes t = B :: n :: rest →
  valid_view σ t →
  storages σ' !! l = Some d →
  k < 2 → v < n →
  (∀ b tl, Forall2 lt (b :: k :: tl) (B :: 2 :: rest) →
     d !! torch.linear (b :: k :: tl)
            (torch.contiguous_strides (B :: 2 :: rest))
     = torch.peek σ t (b :: v :: tl)) →
  valid_view σ' (squeeze_view rq (chunk_view k rc (select_view l r t))).
Proof.
  intros Hsz Hv Hd Hk Hvn Hdata. apply mapM_is_Some, Forall_forall.
  intros idx Hidx%elem_of_indices. unfold compose.
  destruct (sampled_position _ _ _ _ _ _ _ _ _ _ Hsz Hk Hidx)
    as (b & tl & -> & Hin).
  rewrite (sampled_peek _ _ _ _ _ _ _ _ _ _ _ _ _ Hsz Hd), Hdata by done.
  apply (valid_view_peek _ _ _ Hv). rewrite Hsz.
  apply Forall2_cons_1 in Hin as (? & (? & ?)%Forall2_cons_1).
  by constructor; [|constructor].
Qed.

(** C5: on a valid input the anchors and the positives have the same
    shape: one field ["tokens"] with the three sub-fields, each a valid
    tensor with the sizes of the input but for the span dimension, so with
    its batch size.  No cell of a storage can be reached from an anchors
    tensor and from a positives tensor; an in-place write to one of them
    leaves the contents of the other as they were. *)
Theorem sampled_pairs_are_independent σ (tokens : TextFieldTensors) B n :
  field_tensor_set σ tokens B n → 2 ≤ n →
  ∃ anchors positives σ',
    sample_anchor_positive_pairs tokens σ = (inr (anchors, positives), σ')
    ∧ dom anchors = ({["tokens"]} : gset string)
    ∧ dom positives = ({["tokens"]} : gset string)
    ∧ (∃ fa fp,
         anchors !! "tokens" = Some fa ∧ positives !! "tokens" = Some fp ∧
         dom fa = (list_to_set sub_fields : gset string) ∧
         dom fp = (list_to_set sub_fields : gset string))
    ∧ (∀ name, name ∈ sub_fields →
         ∃ r t ra ta rp tp,
           lookup_subfield tokens name = Some r ∧
           objects σ !! r = Some t ∧
           lookup_subfield anchors name = Some ra ∧
           objects σ' !! ra = Some ta ∧
           lookup_subfield positives name = Some rp ∧
           objects σ' !! rp = Some tp ∧
           t_sizes ta = delete 1 (t_sizes t) ∧
           t_sizes tp = delete 1 (t_sizes t) ∧
           head (t_sizes ta) = Some B ∧ head (t_sizes tp) = Some B ∧
           valid_view σ' ta ∧ valid_view σ' tp)
    ∧ ∀ name name' ra ta rp tp,
        name ∈ sub_fields → name' ∈ sub_fields →
        lookup_subfield anchors name = Some ra →
        objects σ' !! ra = Some ta →
        lookup_subfield positives name' = Some rp →
        objects σ' !! rp = Some tp →
        (t_storage ta = t_storage tp →
         ∀ a, a ∈ torch.footprint ta → a ∉ torch.footprint tp)
        ∧ (∀ data out σ'', torch.copy_ ra data σ' = (out, σ'') →
             torch.contents σ'' tp = torch.contents σ' tp)
        ∧ (∀ data out σ'', torch.copy_ rp data σ' = (out, σ'') →
             torch.contents σ'' ta = torch.contents σ' ta).
Proof.
  intros Hfts Hn.
  destruct (sample_summary σ tokens B n Hfts Hn)
    as (i0 & i1 & k0 & anchors & positives & ts & ds & _ & Hi0 & Hi1 & _
        & Hrun & (a1 & a2 & a3 & ->) & (p1 & p2 & p3 & ->) & Hsub).
  set (σ' := alloc (advance k0 σ) ts ds) in *.
  destruct (dom_text_field a1 a2 a3) as (Hda & fa & Hfa & Hdfa).
  destruct (dom_text_field p1 p2 p3) as (Hdp & fp & Hfp & Hdfp).
  exists (text_field a1 a2 a3), (text_field p1 p2 p3), σ'.
  split_and!; [done|done|done|by exists fa, fp| |].
  - intros name Hname.
    destruct (Hsub name Hname)
      as (r & t & rest & ra & rp & rs & rc0 & rc1 & d & Hl & Hr & Hsz & Hv
          & Hla & Hlp & Hra & Hrp & Hd & Hdata).
    eexists r, t, ra, _, rp, _.
    split_and!; [done|done|done|exact Hra|done|exact Hrp| | | | | |].
    + by rewrite (sampled_sizes _ _ _ _ _ _ _ _ _ Hsz), Hsz.
    + by rewrite (sampled_sizes _ _ _ _ _ _ _ _ _ Hsz), Hsz.
    + by rewrite (sampled_sizes _ _ _ _ _ _ _ _ _ Hsz).
    + by rewrite (sampled_sizes _ _ _ _ _ _ _ _ _ Hsz).
    + eapply (sampled_view_valid σ σ' t _ _ _ _ 0 i0); [done..|lia|done|].
      intros b tl Hin. by apply Hdata.
    + eapply (sampled_view_valid σ σ' t _ _ _ _ 1 i1); [done..|lia|done|].
      intros b tl Hin. by apply Hdata.
  - intros name name' ra ta rp tp Hname Hname' Hla Hra Hlp Hrp.
    destruct (Hsub name Hname)
      as (r & t & rest & ra_ & _ & rs & rc0 & _ & _ & Hl & Hr & Hsz & _
          & Hla_ & _ & Hra_ & _ & _ & _).
    destruct (Hsub name' Hname')
      as (r' & t' & rest' & _ & rp_ & rs' & _ & rc1 & _ & Hl' & Hr' & Hsz'
          & _ & _ & Hlp_ & _ & Hrp_ & _ & _).
    assert (ra_ = ra) as -> by congruence.
    assert (rp_ = rp) as -> by congruence.
    rewrite Hra in Hra_. rewrite Hrp in Hrp_.
    injection Hra_ as ->. injection Hrp_ as ->.
    assert (t_storage (squeeze_view rc0 (chunk_view 0 rs
              (select_view (length (storages σ) + slot name) r t)))
            = t_storage (squeeze_view rc1 (chunk_view 1 rs'
                (select_view (length (storages σ) + slot name') r' t'))) →
            name = name') as Hsame.
    { rewrite !sampled_storage. intros ?.
      apply slot_inj; [done|done|lia]. }
    split_and!.
    + intros Heq a Ha. pose proof (Hsame Heq) as <-.
      assert (r' = r) as -> by congruence.
      assert (t' = t) as -> by congruence.
      by eapply sampled_footprints_disjoint.
    + intros data out σ'' Hcopy.
      eapply copy_frame; [exact Hra| |exact Hcopy].
      intros Heq a Ha. pose proof (Hsame Heq) as <-.
      assert (r' = r) as -> by congruence.
      assert (t' = t) as -> by congruence.
      by eapply sampled_footprints_disjoint.
    + intros data out σ'' Hcopy.
      eapply copy_frame; [exact Hrp| |exact Hcopy].
      intros Heq a Ha. symmetry in Heq. pose proof (Hsame Heq) as <-.
      assert (r' = r) as -> by congruence.
      assert (t' = t) as -> by congruence.
      by eapply sampled_footprints_disjoint'.
Qed.
End sampler_structure.

(** ** Frame: the sampler writes to nothing that exists *)

Create HintDb frame discriminated.

Section frame.
Context {A : Type}.
Implicit Types (σ : state A) (t : tensor).

Global Instance grows_preorder : PreOrder (grows (A:=A)).
Proof.
  split.
  - intros σ. by split.
  - intros σ1 σ2 σ3 [] []. split; try (by etrans); congruence.
Qed.

Lemma grows_alloc σ ts (ds : list (list A)) : grows σ (alloc σ ts ds).
Proof. split; simpl; try done; by apply prefix_app_r. Qed.

Lemma grows_objects_lookup σ σ' r t :
  grows σ σ' → objects σ !! r = Some t → objects σ' !! r = Some t.
Proof. intros [H _ _ _ _] Hr. by eapply prefix_lookup_Some. Qed.

Lemma grows_contents σ σ' t v :
  grows σ σ' → torch.contents σ t = Some v → torch.contents σ' t = Some v.
Proof.
  intros [_ H _ _ _] Hv%mapM_Some_1. apply mapM_Some_2.
  eapply Forall2_impl; [exact Hv|]. intros idx y. unfold torch.peek.
  destruct (storages σ !! t_storage t) as [s|] eqn:Hs; [|done].
  by rewrite (prefix_lookup_Some _ _ _ _ Hs H).
Qed.

Lemma only_allocates_ret {X} (x : X) : only_allocates (A:=A) (mret x).
Proof. intros σ. reflexivity. Qed.

Lemma only_allocates_raise {X} e : only_allocates (raise (A:=A) (X:=X) e).
Proof. intros σ. reflexivity. Qed.

Lemma only_allocates_bind {X Y} (m : M A X) (k : X → M A Y) :
  only_allocates m → (∀ x, only_allocates (k x)) →
  only_allocates (m ≫= k).
Proof.
  intros Hm Hk σ. unfold mbind, M_bind, bind.
  specialize (Hm σ). destruct (m σ) as [[e|x] σ1]; [done|].
  simpl in Hm. etrans; [exact Hm|apply Hk].
Qed.

Lemma only_allocates_from_option {X} e (o : option X) :
  only_allocates (from_option (A:=A) e o).
Proof. destruct o; intros σ; reflexivity. Qed.

Lemma only_allocates_check b e : only_allocates (check (A:=A) b e).
Proof. destruct b; intros σ; reflexivity. Qed.

Lemma only_allocates_get_state : only_allocates (get_state (A:=A)).
Proof. intros σ. reflexivity. Qed.

Lemma only_allocates_mapM {X Y} (f : X → M A Y) (l : list X) :
  (∀ x, only_allocates (f x)) → only_allocates (mapM f l).
Proof.
  intros Hf. induction l as [|x l IH]; simpl.
  - apply only_allocates_ret.
  - apply only_allocates_bind; [done|]. intros y.
    apply only_allocates_bind; [done|]. intros k.
    apply only_allocates_ret.
Qed.

Lemma only_allocates_new_object t : only_allocates (torch.new_object (A:=A) t).
Proof. intros σ. rewrite run_new_object. apply grows_alloc. Qed.

Lemma only_allocates_new_storage (data : list A) :
  only_allocates (torch.new_storage data).
Proof. intros σ. rewrite run_new_storage. apply grows_alloc. Qed.

Lemma only_allocates_randbelow n : only_allocates (random.randbelow (A:=A) n).
Proof. intros σ. split; simpl; try done. lia. Qed.

Hint Resolve only_allocates_ret only_allocates_raise
  only_allocates_from_option only_allocates_check only_allocates_get_state
  only_allocates_new_object only_allocates_new_storage
  only_allocates_randbelow : frame.

Ltac frame :=
  repeat first
    [ progress eauto with frame
    | apply only_allocates_bind; [|intros ?]
    | apply only_allocates_mapM; intros ? ].

Lemma only_allocates_deref r : only_allocates (torch.deref (A:=A) r).
Proof. unfold torch.deref. frame. Qed.
Hint Resolve only_allocates_deref : frame.

Lemma only_allocates_history op rs :
  only_allocates (torch.history (A:=A) op rs).
Proof. unfold torch.history. frame. Qed.
Hint Resolve only_allocates_history : frame.

Lemma only_allocates_size r d : only_allocates (torch.size (A:=A) r d).
Proof. unfold torch.size. frame. Qed.

Lemma only_allocates_device r : only_allocates (torch.device (A:=A) r).
Proof. unfold torch.device. frame. Qed.

Lemma only_allocates_as_tensor data dev :
  only_allocates (torch.as_tensor (A:=A) data dev).
Proof. unfold torch.as_tensor. frame. Qed.

Lemma only_allocates_index_select r d index :
  only_allocates (torch.index_select (A:=A) r d index).
Proof. unfold torch.index_select. frame. Qed.

Lemma only_allocates_narrow r d start len :
  only_allocates (torch.narrow (A:=A) r d start len).
Proof. unfold torch.narrow. frame. Qed.
Hint Resolve only_allocates_narrow : frame.

Lemma only_allocates_chunk r chunks d :
  only_allocates (torch.chunk (A:=A) r chunks d).
Proof. unfold torch.chunk. frame. case_match; frame. Qed.

Lemma only_allocates_squeeze r d :
  only_allocates (torch.squeeze (A:=A) r d).
Proof. unfold torch.squeeze. frame. Qed.

Lemma only_allocates_select k pool :
  only_allocates (random.select (A:=A) k pool).
Proof. revert pool. induction k as [|k IH]; intros pool; simpl; frame. Qed.

Lemma only_allocates_redraw fuel n selected :
  only_allocates (random.redraw (A:=A) fuel n selected).
Proof.
  induction fuel as [|fuel IH]; simpl; frame; case_match; frame.
Qed.

Hint Resolve only_allocates_redraw : frame.

Lemma only_allocates_select_fresh k n population selected :
  only_allocates (random.select_fresh (A:=A) k n population selected).
Proof.
  revert selected.
  induction k as [|k IH]; intros selected; cbn [random.select_fresh]; frame.
Qed.

Lemma only_allocates_sample population k :
  only_allocates (random.sample (A:=A) population k).
Proof.
  unfold random.sample. cbv zeta. case_match; [frame|].
  case_match;
    [apply only_allocates_select|apply only_allocates_select_fresh].
Qed.

Lemma only_allocates_getitem {V} (d : gmap string V) k :
  only_allocates (getitem (A:=A) d k).
Proof. unfold getitem. frame. Qed.
Hint Resolve only_allocates_getitem : frame.

Lemma only_allocates_subfield (tokens : TextFieldTensors) name :
  only_allocates (subfield (A:=A) tokens name).
Proof. unfold subfield. frame. Qed.

Lemma only_allocates_unpack2 {X} (values : list X) :
  only_allocates (unpack2 (A:=A) values).
Proof. unfold unpack2. repeat case_match; frame. Qed.

Hint Resolve only_allocates_size only_allocates_device
  only_allocates_as_tensor only_allocates_index_select
  only_allocates_chunk only_allocates_squeeze only_allocates_sample
  only_allocates_subfield only_allocates_unpack2 : frame.

Lemma only_allocates_sample_anchor_positive_pairs
    (tokens : TextFieldTensors) :
  only_allocates (sample_anchor_positive_pairs (A:=A) tokens).
Proof.
  unfold sample_anchor_positive_pairs.
  repeat first
    [ progress eauto with frame
    | apply only_allocates_bind; [|intros ?]
    | match goal with x : _ * _ |- _ => destruct x end ].
Qed.

(** C7: whatever the input and whether the call returns or raises, every
    object and every storage that existed before the call is there after
    it, unchanged, so every tensor of the input holds the values it held;
    the distributed runtime is the same, and of the random source only
    the count of draws may have changed. *)
Theorem sample_leaves_its_input_alone σ (tokens : TextFieldTensors) :
  let σ' := (sample_anchor_positive_pairs tokens σ).2 in
  objects σ `prefix_of` objects σ'
  ∧ storages σ `prefix_of` storages σ'
  ∧ dist_rt σ' = dist_rt σ
  ∧ entropy (rng σ') = entropy (rng σ)
  ∧ cursor (rng σ) ≤ cursor (rng σ')
  ∧ ∀ name r t v,
      lookup_subfield tokens name = Some r →
      objects σ !! r = Some t →
      torch.contents σ t = Some v →
      objects σ' !! r = Some t ∧ torch.contents σ' t = Some v.
Proof.
  intros σ'.
  pose proof (only_allocates_sample_anchor_positive_pairs tokens σ) as H.
  fold σ' in H. destruct H as [Ho Hs Hd He Hc].
  split_and!; [done..|]. intros name r t v _ Hr Hv. split.
  - by eapply prefix_lookup_Some.
  - eapply grows_contents; [|done]. by split.
Qed.
End frame.

(** ** Which keys the sampler reads *)

Section sampler_keys.
Context {A : Type}.
Implicit Types (σ : state A) (t : tensor).





End sampler_keys.

Section sampler_keys_claim.
Context {A : Type}.
Implicit Types (σ : state A) (t : tensor).


(** The state [random.sample] leaves differs from the one it started in
    by draws only. *)
Lemma sample_pair_inv n σ i0 i1 σs :
  2 ≤ n →
  random.sample (seq 0 n) 2 σ = (inr [i0; i1], σs) →
  ∃ d, σs = advance d σ ∧ i0 < n ∧ i1 < n ∧ i0 ≠ i1.
Proof.
  intros Hn Hdraw.
  destruct (run_sample_pair n σ Hn)
    as (j0 & j1 & d & Hdraw' & Hj0 & Hj1 & Hne & _).
  rewrite Hdraw' in Hdraw. injection Hdraw as -> -> <-. by exists d.
Qed.


End sampler_keys_claim.


(** ** The gatherer: buffers and collectives *)

Section buffers.
Context {A : Type}.
Implicit Types (σ : state A) (t : tensor).

Lemma length_foldr_insert (w : list (nat * A)) (s : list A) :
  length (foldr (λ '(a, x) s, <[a:=x]> s) s w) = length s.
Proof.
  induction w as [|[a x] w IH]; [done|]. simpl. by rewrite length_insert.
Qed.

Lemma foldr_insert_seq_lookup (data s : list A) k a :
  foldr (λ '(a, x) s, <[a:=x]> s) s (zip (seq k (length data)) data) !! a
  = if decide (k ≤ a < k + length data ∧ a < length s)
    then data !! (a - k) else s !! a.
Proof.
  revert k. induction data as [|x d IH]; intros k; simpl.
  - case_decide; [lia|done].
  - destruct (decide (a = k)) as [->|Hne].
    + destruct (decide (k < length s)) as [Hk|Hk].
      * rewrite list_lookup_insert_eq
          by (by rewrite length_foldr_insert).
        rewrite decide_True by lia. by rewrite Nat.sub_diag.
      * rewrite list_insert_ge by (rewrite length_foldr_insert; lia).
        rewrite IH, !decide_False by lia. done.
    + rewrite list_lookup_insert_ne by done. rewrite IH.
      destruct (decide (S k ≤ a < S k + length d ∧ a < length s)).
      * rewrite decide_True by lia.
        by replace (a - k) with (S (a - S k)) by lia.
      * by rewrite decide_False by lia.
Qed.

(** Writing as many elements as it has through a contiguous view of a
    whole storage replaces the storage. *)
Lemma write_whole_storage l sh d g (data s : list A) :
  length data = torch.numel sh → length s = torch.numel sh →
  torch.write (Tensor l 0 sh (torch.contiguous_strides sh) d g) data s
  = data.
Proof.
  intros Hdata Hs. unfold torch.write, torch.footprint, torch.address.
  simpl. rewrite linear_indices, <-Hdata.
  apply list_eq. intros a. rewrite foldr_insert_seq_lookup.
  case_decide as Ha; [by rewrite Nat.sub_0_r|].
  rewrite !lookup_ge_None_2; [done|lia..].
Qed.

Lemma run_ones_like (one : A) r t σ :
  objects σ !! r = Some t →
  torch.ones_like one r σ
  = (inr (length (objects σ)),
     alloc σ [buffer (length (storages σ)) t]
             [replicate (torch.numel (t_sizes t)) one]).
Proof.
  intros Hr. unfold torch.ones_like.
  step (run_deref _ _ _ Hr). step (run_new_storage
    (replicate (torch.numel (t_sizes t)) one) σ).
  rewrite run_new_object, alloc_alloc, length_objects_alloc. simpl.
  by rewrite Nat.add_0_r.
Qed.

Lemma run_ones_like_list (one : A) r t k a σ :
  objects σ !! r = Some t →
  mapM (λ _ : nat, torch.ones_like one r) (seq a k) σ
  = (inr (seq (length (objects σ)) k),
     alloc σ ((λ i, buffer (length (storages σ) + i) t) <$> seq 0 k)
             (replicate k (replicate (torch.numel (t_sizes t)) one))).
Proof.
  revert a σ. induction k as [|k IH]; intros a σ Hr.
  - simpl. by rewrite alloc_nil.
  - simpl seq. cbn [mapM].
    step (run_ones_like one r t σ Hr).
    erewrite run_bind; [|apply IH; by apply objects_alloc_old].
    rewrite run_ret, alloc_alloc, length_objects_alloc,
      length_storages_alloc.
    change (seq 0 (S k)) with (0 :: seq 1 k).
    rewrite fmap_cons, <-(fmap_S_seq 0 k), <-list_fmap_compose.
    cbn [app length replicate]. rewrite !Nat.add_1_r, Nat.add_0_r.
    do 3 f_equal.
    apply list_fmap_ext. intros ? i _. simpl. f_equal. lia.
Qed.

Lemma run_copy_buffer σ dst l sh d g (data s : list A) :
  objects σ !! dst = Some (Tensor l 0 sh (torch.contiguous_strides sh) d g) →
  storages σ !! l = Some s →
  length data = torch.numel sh → length s = torch.numel sh →
  torch.copy_ dst data σ
  = (inr (), State (objects σ) (<[l:=data]> (storages σ)) (rng σ)
                   (dist_rt σ)).
Proof.
  intros Hdst Hl Hdata Hs. unfold torch.copy_.
  step (run_deref _ _ _ Hdst).
  run ltac:(apply run_check; simpl; by apply Nat.eqb_eq).
  rewrite run_get_state.
  run ltac:(by apply run_from_option).
  unfold torch.set_storage. simpl. by rewrite write_whole_storage.
Qed.
End buffers.

Section collectives.
Context {A : Type}.
Implicit Types (σ : state A) (t : tensor).

Lemma run_copies σ (P : nat → list A) sh dev m0 pre done todo post i :
  storages σ = pre ++ done ++ todo ++ post →
  length done = i →
  (∀ x, x < length todo →
     objects σ !! (m0 + i + x)
     = Some (Tensor (length pre + i + x) 0 sh
                    (torch.contiguous_strides sh) dev None)) →
  Forall (λ s, length s = torch.numel sh) todo →
  (∀ x, x < length todo → length (P (i + x)) = torch.numel sh) →
  ∃ σ',
    mapM (λ '(r, dst), torch.copy_ dst (P r))
         (zip (seq i (length todo)) (seq (m0 + i) (length todo))) σ
    = (inr (replicate (length todo) ()), σ')
    ∧ objects σ' = objects σ
    ∧ storages σ' = pre ++ done ++ (P <$> seq i (length todo)) ++ post
    ∧ rng σ' = rng σ ∧ dist_rt σ' = dist_rt σ.
Proof.
  revert σ done i.
  induction todo as [|s todo IH]; intros σ done i Hst Hdone Hobj Hlen HP.
  - exists σ. by rewrite Hst.
  - apply Forall_cons in Hlen as [Hs Hlen].
    assert (storages σ !! (length pre + i) = Some s) as Hl.
    { rewrite Hst, (assoc_L (++)). apply list_lookup_middle.
      rewrite length_app. lia. }
    pose proof (Hobj 0 ltac:(simpl; lia)) as Hdst.
    pose proof (HP 0 ltac:(simpl; lia)) as HP0.
    rewrite !Nat.add_0_r in Hdst. rewrite Nat.add_0_r in HP0.
    pose proof (run_copy_buffer σ _ _ _ _ _ _ _ Hdst Hl HP0 Hs) as Hcopy.
    set (σ1 := State (objects σ) (<[length pre + i:=P i]> (storages σ))
                     (rng σ) (dist_rt σ)) in *.
    destruct (IH σ1 (done ++ [P i]) (S i)) as (σ' & Hrun & Ho & Hs' & Hr & Hd).
    + simpl. rewrite Hst, (assoc_L (++) pre done), insert_app_r_alt
        by (rewrite length_app; lia).
      replace (length pre + i - length (pre ++ done)) with 0
        by (rewrite length_app; lia).
      simpl. by rewrite <-!(assoc_L (++)).
    + rewrite length_app. simpl. lia.
    + intros x Hx. simpl.
      replace (m0 + S i + x) with (m0 + i + S x) by lia.
      replace (length pre + S i + x) with (length pre + i + S x) by lia.
      apply Hobj. simpl. lia.
    + done.
    + intros x Hx. replace (S i + x) with (i + S x) by lia.
      apply HP. simpl. lia.
    + exists σ'. split_and!; [|done| |done|done].
      * cbn [length seq zip zip_with mapM].
        step Hcopy. replace (S (m0 + i)) with (m0 + S i) by lia.
        by step Hrun.
      * rewrite Hs'. cbn [length seq fmap list_fmap].
        by rewrite <-!(assoc_L (++)).
Qed.

Lemma run_default_group σ pg :
  group (dist_rt σ) = Some pg → dist.default_group σ = (inr pg, σ).
Proof.
  intros Hg. unfold dist.default_group. rewrite run_get_state.
  by apply run_from_option.
Qed.

Lemma run_default_group_uninit σ :
  group (dist_rt σ) = None →
  dist.default_group σ = (inl (not_initialized (dist_rt σ)), σ).
Proof.
  intros Hg. unfold dist.default_group. rewrite run_get_state.
  unfold from_option. by rewrite Hg.
Qed.

Lemma run_all_gather σ pg src t local m0 pre olds post :
  group (dist_rt σ) = Some pg →
  objects σ !! src = Some t →
  torch.contents σ t = Some local →
  storages σ = pre ++ olds ++ post →
  length olds = world_size pg →
  Forall (λ s, length s = torch.numel (t_sizes t)) olds →
  (∀ x, x < world_size pg →
     objects σ !! (m0 + x) = Some (buffer (length pre + x) t)) →
  (∀ r, r < world_size pg →
     length (contribution σ pg (collectives (dist_rt σ)) local r)
     = torch.numel (t_sizes t)) →
  ∃ σ',
    dist.all_gather (seq m0 (world_size pg)) src σ = (inr (), σ')
    ∧ objects σ' = objects σ
    ∧ storages σ'
      = pre ++ (contribution σ pg (collectives (dist_rt σ)) local
                <$> seq 0 (world_size pg)) ++ post
    ∧ rng σ' = rng σ
    ∧ group (dist_rt σ') = Some pg
    ∧ wire (dist_rt σ') = wire (dist_rt σ)
    ∧ collectives (dist_rt σ') = S (collectives (dist_rt σ)).
Proof.
  intros Hg Hsrc Hlocal Hst Holds Hlen Hobj HP.
  set (σn := State (objects σ) (storages σ) (rng σ)
               (Runtime (group (dist_rt σ)) (wire (dist_rt σ))
                        (S (collectives (dist_rt σ)))
                        (not_initialized (dist_rt σ)))).
  destruct (run_copies σn
              (contribution σ pg (collectives (dist_rt σ)) local)
              (t_sizes t) (t_device t) m0 pre [] olds post 0)
    as (σ' & Hrun & Ho & Hs & Hr & Hd); [done|done| |done| |].
  { intros x Hx. rewrite !Nat.add_0_r. apply Hobj. lia. }
  { intros x Hx. apply HP. simpl. lia. }
  exists σ'. rewrite Ho, Hs, Hr, Hd, Holds. simpl.
  split_and!; try done.
  unfold dist.all_gather. step (run_default_group σ pg Hg).
  run ltac:(apply run_check; rewrite length_seq; apply Nat.eqb_refl).
  step (run_deref _ _ _ Hsrc). rewrite run_get_state.
  run ltac:(by apply run_from_option).
  rewrite (run_bind _ _ σ (collectives (dist_rt σ)) σn) by done.
  rewrite length_seq. rewrite Holds, Nat.add_0_r in Hrun.
  by step Hrun.
Qed.
End collectives.

Section concatenation.
Context {A : Type}.
Implicit Types (σ : state A) (t : tensor).

Lemma contents_prefix σ σ' t v :
  storages σ `prefix_of` storages σ' →
  torch.contents σ t = Some v → torch.contents σ' t = Some v.
Proof.
  intros H Hv%mapM_Some_1. apply mapM_Some_2.
  eapply Forall2_impl; [exact Hv|]. intros idx y. unfold torch.peek.
  destruct (storages σ !! t_storage t) as [s|] eqn:Hs; [|done].
  by rewrite (prefix_lookup_Some _ _ _ _ Hs H).
Qed.

Lemma length_contents σ t v :
  torch.contents σ t = Some v → length v = torch.numel (t_sizes t).
Proof. intros H%length_mapM. by rewrite <-H, length_indices. Qed.

(** [torch.cat] of tensors that agree on their sizes [B :: trailing] and
    on their device. *)
Lemma run_cat σ refs ts datas B trailing dev :
  Forall2 (λ r t, objects σ !! r = Some t) refs ts →
  ts ≠ [] →
  Forall (λ t, t_sizes t = B :: trailing ∧ t_device t = dev) ts →
  Forall2 (λ t d, torch.contents σ t = Some d) ts datas →
  let out := length ts * B :: trailing in
  torch.cat refs σ
  = (inr (length (objects σ)),
     alloc σ
       [Tensor (length (storages σ)) 0 out (torch.contiguous_strides out)
          dev
          (if existsb torch.has_history ts
           then Some (Backward "CatBackward"
                  (zip_with (λ r t, if torch.has_history t then Some r
                                    else None) refs ts))
           else None)]
       [concat datas]).
Proof.
  intros Hrefs Hne Hts Hdatas out. unfold torch.cat.
  step (run_mapM_deref _ _ _ Hrefs).
  destruct ts as [|t0 ts']; [done|].
  pose proof (Forall_inv Hts) as [Hsz0 Hdev0].
  run ltac:(apply run_check, forallb_forall;
            intros t Ht%list_elem_of_In; apply bool_decide_eq_true_2;
            destruct (proj1 (Forall_forall _ _) Hts t Ht) as [-> ->];
            by rewrite Hsz0, Hdev0).
  rewrite run_get_state.
  run ltac:(by apply run_from_option, mapM_Some_2).
  step (run_history "CatBackward" _ _ _ Hrefs).
  step (run_new_storage (concat datas) σ).
  rewrite run_new_object, alloc_alloc, length_objects_alloc.
  cbn [app length]. rewrite Nat.add_0_r.
  rewrite (sum_list_fmap_same B), Hsz0, Hdev0; [done|].
  eapply Forall_impl; [exact Hts|]. by intros t [-> _].
Qed.

Lemma existsb_insert_others_false {X} (f : X → bool) (l : list X) i x :
  Forall (λ y, f y = false) l → i < length l →
  existsb f (<[i:=x]> l) = f x.
Proof.
  revert i. induction l as [|y l IH]; intros i Hl Hi; [simpl in Hi; lia|].
  apply Forall_cons in Hl as [Hy Hl]. destruct i as [|i]; simpl.
  - destruct (f x); [done|]. simpl.
    clear -Hl. induction Hl as [|z l Hz _ IHl]; [done|]. simpl.
    by rewrite Hz.
  - rewrite Hy. simpl. apply IH; [done|]. simpl in Hi. lia.
Qed.
End concatenation.

(** ** The gatherer, run with two or more replicas *)

Section gather_run.
Context {A : Type}.
Implicit Types (σ : state A) (t : tensor).

Lemma run_dist_get_world_size σ pg :
  group (dist_rt σ) = Some pg →
  dist.get_world_size σ = (inr (Z.of_nat (world_size pg)), σ).
Proof.
  intros Hg. unfold dist.get_world_size.
  by step (run_default_group σ pg Hg).
Qed.

Lemma run_dist_get_rank σ pg :
  group (dist_rt σ) = Some pg → dist.get_rank σ = (inr (rank pg), σ).
Proof.
  intros Hg. unfold dist.get_rank. by step (run_default_group σ pg Hg).
Qed.

Lemma run_get_world_size σ pg :
  group (dist_rt σ) = Some pg →
  get_world_size σ = (inr (Z.of_nat (world_size pg)), σ).
Proof.
  intros Hg. unfold get_world_size, try_except.
  by rewrite (run_dist_get_world_size σ pg Hg).
Qed.

(** Before initialisation: the handler of line 15 runs when the library
    raises an [AssertionError], and only then. *)
Lemma run_get_world_size_uninit σ :
  group (dist_rt σ) = None →
  not_initialized (dist_rt σ) = AssertionError →
  get_world_size σ = (inr (-1)%Z, σ).
Proof.
  intros Hg He. unfold get_world_size, try_except, dist.get_world_size.
  rewrite (run_bind_raise _ _ _ _ _ (run_default_group_uninit σ Hg)).
  by rewrite He.
Qed.

Lemma run_get_world_size_uncaught σ :
  group (dist_rt σ) = None →
  not_initialized (dist_rt σ) ≠ AssertionError →
  get_world_size σ = (inl (not_initialized (dist_rt σ)), σ).
Proof.
  intros Hg He. unfold get_world_size, try_except, dist.get_world_size.
  rewrite (run_bind_raise _ _ _ _ _ (run_default_group_uninit σ Hg)).
  by rewrite decide_False.
Qed.

Lemma run_setitem {X} (l : list X) i x σ :
  i < length l → setitem (A:=A) l i x σ = (inr (<[i:=x]> l), σ).
Proof.
  intros Hi. unfold setitem.
  by destruct (Nat.ltb_spec i (length l)); [|lia].
Qed.

Lemma run_gathered_lists σ (one : A) anchors positives pg ta tp va vp :
  group (dist_rt σ) = Some pg →
  rank pg < world_size pg →
  objects σ !! anchors = Some ta →
  objects σ !! positives = Some tp →
  torch.contents σ ta = Some va →
  torch.contents σ tp = Some vp →
  let W := world_size pg in
  let c := collectives (dist_rt σ) in
  let m := length (objects σ) in
  let l := length (storages σ) in
  (∀ r, r < W → r ≠ rank pg →
     length (wire (dist_rt σ) c r) = torch.numel (t_sizes ta) ∧
     length (wire (dist_rt σ) (S c) r) = torch.numel (t_sizes tp)) →
  ∃ σ1,
    gathered_lists one anchors positives σ
    = (inr (<[rank pg := anchors]> (seq m W),
            <[rank pg := positives]> (seq (m + W) W)), σ1)
    ∧ objects σ1
      = objects σ ++ ((λ i, buffer (l + i) ta) <$> seq 0 W)
                  ++ ((λ i, buffer (l + W + i) tp) <$> seq 0 W)
    ∧ storages σ1
      = storages σ ++ (contribution σ pg c va <$> seq 0 W)
                   ++ (contribution σ pg (S c) vp <$> seq 0 W)
    ∧ rng σ1 = rng σ
    ∧ group (dist_rt σ1) = Some pg
    ∧ wire (dist_rt σ1) = wire (dist_rt σ)
    ∧ collectives (dist_rt σ1) = S (S c).
Proof.
  intros Hg Hrank Ha Hp Hva Hvp W c m l Hwire.
  set (bufsA := (λ i, buffer (l + i) ta) <$> seq 0 W).
  set (bufsP := (λ i, buffer (l + W + i) tp) <$> seq 0 W).
  set (onesA := replicate W (replicate (torch.numel (t_sizes ta)) one)).
  set (onesP := replicate W (replicate (torch.numel (t_sizes tp)) one)).
  set (σ2 := alloc σ (bufsA ++ bufsP) (onesA ++ onesP)).
  assert (length bufsA = W) as HlenA
    by (unfold bufsA; by rewrite length_fmap, length_seq).
  assert (length onesA = W) as HlenoA by apply length_replicate.
  (* the first collective *)
  destruct (run_all_gather σ2 pg anchors ta va m (storages σ) onesA onesP)
    as (σ3 & Hrun3 & Ho3 & Hs3 & Hr3 & Hg3 & Hw3 & Hc3).
  { done. }
  { by apply objects_alloc_old. }
  { eapply contents_prefix; [|done]. by apply prefix_app_r. }
  { done. }
  { done. }
  { apply Forall_replicate. by rewrite length_replicate. }
  { intros x Hx. unfold σ2, alloc. simpl.
    rewrite lookup_app_r, lookup_app_l by (rewrite ?HlenA; lia).
    replace (m + x - length (objects σ)) with x by (unfold m; lia).
    unfold bufsA. rewrite list_lookup_fmap, lookup_seq_lt by done. done. }
  { intros r Hr. unfold contribution. case_decide.
    - by eapply length_contents.
    - by apply Hwire. }
  (* the second collective *)
  destruct (run_all_gather σ3 pg positives tp vp (m + W)
              (storages σ ++ (contribution σ pg c va <$> seq 0 W))
              onesP [])
    as (σ4 & Hrun4 & Ho4 & Hs4 & Hr4 & Hg4 & Hw4 & Hc4).
  { done. }
  { rewrite Ho3. by apply objects_alloc_old. }
  { eapply contents_prefix; [|done]. rewrite Hs3. by apply prefix_app_r. }
  { by rewrite Hs3, app_nil_r, (assoc_L (++)). }
  { apply length_replicate. }
  { apply Forall_replicate. by rewrite length_replicate. }
  { intros x Hx. rewrite Ho3. unfold σ2, alloc. simpl.
    rewrite (assoc_L (++)), lookup_app_r
      by (rewrite length_app, HlenA; unfold m; lia).
    rewrite !length_app, length_fmap, length_seq, HlenA.
    replace (m + W + x - (length (objects σ) + W)) with x
      by (unfold m; lia).
    unfold bufsP. rewrite list_lookup_fmap, lookup_seq_lt by done.
    done. }
  { intros r Hr. unfold contribution. rewrite Hw3, Hc3. case_decide.
    - by eapply length_contents.
    - by apply Hwire. }
  exists σ4. rewrite Ho4, Ho3, Hs4, Hr4, Hr3, Hw4, Hw3, Hc4, Hc3.
  split_and!; try done.
  - unfold gathered_lists.
    step (run_dist_get_world_size σ pg Hg).
    unfold range. rewrite Nat2Z.id.
    step (run_ones_like_list one anchors ta W 0 σ Ha).
    run ltac:(by apply run_dist_get_world_size).
    rewrite Nat2Z.id.
    run ltac:(apply run_ones_like_list; by apply objects_alloc_old).
    rewrite alloc_alloc, length_objects_alloc, length_storages_alloc.
    rewrite length_fmap, length_seq, length_replicate.
    fold m l W bufsA bufsP onesA onesP σ2.
    step Hrun3. step Hrun4.
    step (run_dist_get_rank σ4 pg Hg4).
    run ltac:(apply run_setitem; rewrite length_seq; exact Hrank).
    step (run_dist_get_rank σ4 pg Hg4).
    run ltac:(apply run_setitem; rewrite length_seq; exact Hrank).
    done.
  - rewrite app_nil_r, <-(assoc_L (++)). do 2 f_equal.
    unfold contribution. by rewrite Hw3.
Qed.
End gather_run.

Section cat_gathered.
Context {A : Type}.
Implicit Types (σ : state A) (t : tensor).

Lemma Forall2_seq_fmap {X} (P : nat → X → Prop) (f : nat → X) m n :
  (∀ i, i < n → P (m + i) (f i)) →
  Forall2 P (seq m n) (f <$> seq 0 n).
Proof.
  intros H. apply Forall2_same_length_lookup.
  split; [by rewrite length_fmap, !length_seq|].
  intros i x y Hx Hy.
  apply lookup_seq in Hx as [-> Hi].
  rewrite list_lookup_fmap, lookup_seq_lt in Hy by done.
  injection Hy as <-. by apply H.
Qed.

Lemma zip_with_seq_fmap_const {X Y} (g : nat → X → Y) (f : nat → X) y m n :
  (∀ i, i < n → g (m + i) (f i) = y) →
  zip_with g (seq m n) (f <$> seq 0 n) = replicate n y.
Proof.
  intros H. apply list_eq. intros i. rewrite lookup_zip_with.
  destruct (decide (i < n)) as [Hi|Hi].
  - rewrite lookup_seq_lt, list_lookup_fmap, lookup_seq_lt by done.
    simpl. by rewrite lookup_replicate_2, H.
  - rewrite lookup_seq_ge by lia. simpl. symmetry.
    apply lookup_replicate_None. lia.
Qed.

(** [torch.cat] of the gathered list: the buffers of the peers and, at
    this replica's rank, the tensor it sent. *)
Lemma run_cat_gathered σ src t v W rk m0 l0 (P : nat → list A)
    B trailing :
  rk < W →
  objects σ !! src = Some t →
  torch.contents σ t = Some v →
  t_sizes t = B :: trailing →
  (∀ i, i < W → objects σ !! (m0 + i) = Some (buffer (l0 + i) t)) →
  (∀ i, i < W → storages σ !! (l0 + i) = Some (P i)) →
  (∀ i, i < W → length (P i) = torch.numel (t_sizes t)) →
  P rk = v →
  let out := W * B :: trailing in
  torch.cat (<[rk := src]> (seq m0 W)) σ
  = (inr (length (objects σ)),
     alloc σ
       [Tensor (length (storages σ)) 0 out (torch.contiguous_strides out)
          (t_device t)
          (if torch.has_history t
           then Some (Backward "CatBackward"
                        (<[rk := Some src]> (replicate W None)))
           else None)]
       [concat (P <$> seq 0 W)]).
Proof.
  intros Hrk Hsrc Hv Hsz Hbufs Hst Hlen HP out.
  set (bufs := (λ i, buffer (l0 + i) t) <$> seq 0 W).
  assert (length bufs = W) as Hlb
    by (unfold bufs; by rewrite length_fmap, length_seq).
  pose proof (run_cat σ (<[rk := src]> (seq m0 W)) (<[rk := t]> bufs)
                (<[rk := v]> (P <$> seq 0 W)) B trailing (t_device t))
    as Hcat.
  rewrite length_insert, Hlb in Hcat. fold out in Hcat.
  rewrite Hcat; clear Hcat.
  - do 4 f_equal;
      [|by rewrite list_insert_id
          by (rewrite list_lookup_fmap, lookup_seq_lt by done;
              simpl; by rewrite HP)].
    rewrite existsb_insert_others_false; [|..|lia].
    + rewrite <-insert_zip_with. unfold bufs.
      rewrite (zip_with_seq_fmap_const _ _ None); [|done].
      simpl. by destruct (torch.has_history t).
    + apply Forall_forall. intros b (i & -> & _)%list_elem_of_fmap. done.
  - apply Forall2_insert; [|done]. by apply Forall2_seq_fmap.
  - intros Hnil%(f_equal length).
    rewrite length_insert, Hlb in Hnil. simpl in Hnil. lia.
  - apply Forall_insert; [|done].
    apply Forall_forall. by intros b (i & -> & _)%list_elem_of_fmap.
  - apply Forall2_insert; [|done]. unfold bufs.
    apply Forall2_fmap, Forall_Forall2_diag, Forall_forall.
    intros i [_ Hi]%elem_of_seq. simpl in Hi.
    apply contents_contiguous; [by apply Hst|by apply Hlen].
Qed.
End cat_gathered.

(** ** Claims about the cross-replica gatherer *)

Section gatherer_claims.
Context {A : Type}.
Implicit Types (σ : state A) (t : tensor).

Lemma length_concat_same (ds : list (list A)) n :
  Forall (λ d, length d = n) ds → length (concat ds) = length ds * n.
Proof.
  induction 1 as [|d ds Hd _ IH]; [done|].
  simpl. rewrite length_app, Hd, IH. lia.
Qed.

Lemma numel_2d B D : torch.numel [B; D] = B * D.
Proof. simpl. lia. Qed.

(** C1: with [W >= 2] replicas, and peers that contribute tensors of the
    shape of the inputs, the call returns the concatenation along the
    batch dimension of the [W] entries of each gathered list, in rank
    order, of shape [(W * B) x D].  The entry at this replica's rank is
    the input object itself, with its history, and is the only one the
    history of the result points to; every other entry is a fresh buffer
    without history holding what that peer sent. *)
Theorem all_gather_concatenates_in_rank_order σ (one : A)
    anchors positives pg ta tp B D va vp :
  group (dist_rt σ) = Some pg →
  2 ≤ world_size pg → rank pg < world_size pg →
  objects σ !! anchors = Some ta → objects σ !! positives = Some tp →
  t_sizes ta = [B; D] → t_sizes tp = [B; D] →
  torch.contents σ ta = Some va → torch.contents σ tp = Some vp →
  (∀ r, r < world_size pg → r ≠ rank pg →
     length (wire (dist_rt σ) (collectives (dist_rt σ)) r) = B * D ∧
     length (wire (dist_rt σ) (S (collectives (dist_rt σ))) r) = B * D) →
  let W := world_size pg in
  let c := collectives (dist_rt σ) in
  ∃ al pl σ1 ra σ2 rp σ' ta' tp',
    gathered_lists one anchors positives σ = (inr (al, pl), σ1)
    ∧ torch.cat al σ1 = (inr ra, σ2)
    ∧ torch.cat pl σ2 = (inr rp, σ')
    ∧ all_gather_anchor_positive_pairs one anchors positives σ
      = (inr (ra, rp), σ')
    ∧ length al = W ∧ length pl = W
    ∧ al !! rank pg = Some anchors ∧ pl !! rank pg = Some positives
    ∧ objects σ1 !! anchors = Some ta ∧ objects σ1 !! positives = Some tp
    ∧ (∀ r, r < W → r ≠ rank pg →
         ∃ ba bp tba tbp,
           al !! r = Some ba ∧ pl !! r = Some bp ∧
           length (objects σ) ≤ ba ∧ length (objects σ) ≤ bp ∧
           objects σ1 !! ba = Some tba ∧ objects σ1 !! bp = Some tbp ∧
           t_sizes tba = [B; D] ∧ t_sizes tbp = [B; D] ∧
           t_grad_fn tba = None ∧ t_grad_fn tbp = None ∧
           torch.contents σ1 tba = Some (wire (dist_rt σ) c r) ∧
           torch.contents σ1 tbp = Some (wire (dist_rt σ) (S c) r))
    ∧ objects σ' !! ra = Some ta' ∧ objects σ' !! rp = Some tp'
    ∧ t_sizes ta' = [W * B; D] ∧ t_sizes tp' = [W * B; D]
    ∧ torch.contents σ' ta'
      = Some (concat (contribution σ pg c va <$> seq 0 W))
    ∧ torch.contents σ' tp'
      = Some (concat (contribution σ pg (S c) vp <$> seq 0 W))
    ∧ t_grad_fn ta'
      = (if torch.has_history ta
         then Some (Backward "CatBackward"
                      (<[rank pg := Some anchors]> (replicate W None)))
         else None)
    ∧ t_grad_fn tp'
      = (if torch.has_history tp
         then Some (Backward "CatBackward"
                      (<[rank pg := Some positives]> (replicate W None)))
         else None).
Proof.
  intros Hg HW Hrank Ha Hp Hsza Hszp Hva Hvp Hwire W c.
  set (m := length (objects σ)). set (l := length (storages σ)).
  set (PA := contribution σ pg c va).
  set (PP := contribution σ pg (S c) vp).
  destruct (run_gathered_lists σ one anchors positives pg ta tp va vp)
    as (σ1 & Hrun1 & Ho1 & Hs1 & Hr1 & Hg1 & Hw1 & Hc1); [done..| |].
  { intros r Hr Hne. rewrite Hsza, Hszp, numel_2d. by apply Hwire. }
  fold W c m l PA PP in Hrun1, Ho1, Hs1.
  assert (∀ r, r < W → length (PA r) = torch.numel (t_sizes ta)) as HlenA.
  { intros r Hr. unfold PA, contribution. case_decide.
    - by eapply length_contents.
    - rewrite Hsza, numel_2d. by apply Hwire. }
  assert (∀ r, r < W → length (PP r) = torch.numel (t_sizes tp)) as HlenP.
  { intros r Hr. unfold PP, contribution. case_decide.
    - by eapply length_contents.
    - rewrite Hszp, numel_2d. by apply Hwire. }
  assert (objects σ1 !! anchors = Some ta) as Ha1
    by (rewrite Ho1; by apply lookup_app_l_Some).
  assert (objects σ1 !! positives = Some tp) as Hp1
    by (rewrite Ho1; by apply lookup_app_l_Some).
  assert (∀ i, i < W → objects σ1 !! (m + i) = Some (buffer (l + i) ta))
    as HbA.
  { intros i Hi. rewrite Ho1, lookup_app_r by (unfold m; lia).
    rewrite lookup_app_l by (by rewrite length_fmap, length_seq; unfold m; lia).
    replace (m + i - length (objects σ)) with i by (unfold m; lia).
    by rewrite list_lookup_fmap, lookup_seq_lt. }
  assert (∀ i, i < W →
            objects σ1 !! (m + W + i) = Some (buffer (l + W + i) tp))
    as HbP.
  { intros i Hi. rewrite Ho1, (assoc_L (++)), lookup_app_r
      by (rewrite length_app, length_fmap, length_seq; unfold m; lia).
    rewrite length_app, length_fmap, length_seq.
    replace (m + W + i - (length (objects σ) + W)) with i
      by (unfold m; lia).
    by rewrite list_lookup_fmap, lookup_seq_lt. }
  assert (∀ i, i < W → storages σ1 !! (l + i) = Some (PA i)) as HsA.
  { intros i Hi. rewrite Hs1, lookup_app_r by (unfold l; lia).
    rewrite lookup_app_l by (by rewrite length_fmap, length_seq; unfold l; lia).
    replace (l + i - length (storages σ)) with i by (unfold l; lia).
    by rewrite list_lookup_fmap, lookup_seq_lt. }
  assert (∀ i, i < W → storages σ1 !! (l + W + i) = Some (PP i)) as HsP.
  { intros i Hi. rewrite Hs1, (assoc_L (++)), lookup_app_r
      by (rewrite length_app, length_fmap, length_seq; unfold l; lia).
    rewrite length_app, length_fmap, length_seq.
    replace (l + W + i - (length (storages σ) + W)) with i
      by (unfold l; lia).
    by rewrite list_lookup_fmap, lookup_seq_lt. }
  assert (storages σ `prefix_of` storages σ1) as Hpre
    by (rewrite Hs1; by apply prefix_app_r).
  pose proof (contents_prefix _ _ _ _ Hpre Hva) as Hva1.
  pose proof (contents_prefix _ _ _ _ Hpre Hvp) as Hvp1.
  (* the two concatenations *)
  pose proof (run_cat_gathered σ1 anchors ta va W (rank pg) m l PA B [D]
                Hrank Ha1 Hva1 Hsza HbA HsA HlenA) as HcatA.
  cbv zeta in HcatA. specialize (HcatA ltac:(unfold PA, contribution;
                                         by rewrite decide_True)).
  set (TA := Tensor (length (storages σ1)) 0 [W * B; D]
               (torch.contiguous_strides [W * B; D]) (t_device ta)
               (if torch.has_history ta
                then Some (Backward "CatBackward"
                       (<[rank pg:=Some anchors]> (replicate W None)))
                else None)) in *.
  set (σ2 := alloc σ1 [TA] [concat (PA <$> seq 0 W)]) in *.
  pose proof (run_cat_gathered σ2 positives tp vp W (rank pg) (m + W)
                (l + W) PP B [D] Hrank) as HcatP.
  cbv zeta in HcatP.
  specialize (HcatP (objects_alloc_old σ1 _ _ _ _ Hp1)).
  specialize (HcatP ltac:(eapply contents_prefix; [|done];
                          by apply prefix_app_r)).
  specialize (HcatP Hszp).
  specialize (HcatP (λ i Hi, objects_alloc_old σ1 _ _ _ _ (HbP i Hi))).
  specialize (HcatP (λ i Hi, storages_alloc_old σ1 _ _ _ _ (HsP i Hi))).
  specialize (HcatP HlenP).
  specialize (HcatP ltac:(unfold PP, contribution; by rewrite decide_True)).
  set (TP := Tensor (length (storages σ2)) 0 [W * B; D]
               (torch.contiguous_strides [W * B; D]) (t_device tp)
               (if torch.has_history tp
                then Some (Backward "CatBackward"
                       (<[rank pg:=Some positives]> (replicate W None)))
                else None)) in *.
  set (σ' := alloc σ2 [TP] [concat (PP <$> seq 0 W)]) in *.
  eexists _, _, σ1, _, σ2, _, σ', TA, TP.
  split_and!; [exact Hrun1|exact HcatA|exact HcatP| | | | | | | | | | | | | | | |];
    try done.
  - unfold all_gather_anchor_positive_pairs.
    step (run_get_world_size σ pg Hg).
    destruct (Z.ltb_spec (Z.of_nat (world_size pg)) 2) as [|_]; [lia|].
    step Hrun1. step HcatA. by step HcatP.
  - by rewrite length_insert, length_seq.
  - by rewrite length_insert, length_seq.
  - by rewrite list_lookup_insert_eq by (by rewrite length_seq).
  - by rewrite list_lookup_insert_eq by (by rewrite length_seq).
  - intros r Hr Hne.
    exists (m + r), (m + W + r), (buffer (l + r) ta),
           (buffer (l + W + r) tp).
    split_and!; try done.
    + by rewrite list_lookup_insert_ne, lookup_seq_lt by done.
    + by rewrite list_lookup_insert_ne, lookup_seq_lt by done.
    + unfold m. lia.
    + unfold m. lia.
    + by apply HbA.
    + by apply HbP.
    + replace (wire (dist_rt σ) c r) with (PA r)
        by (unfold PA, contribution; by rewrite decide_False).
      apply contents_contiguous; [by apply HsA|by apply HlenA].
    + replace (wire (dist_rt σ) (S c) r) with (PP r)
        by (unfold PP, contribution; by rewrite decide_False).
      apply contents_contiguous; [by apply HsP|by apply HlenP].
  - apply objects_alloc_old. by apply objects_alloc_new0.
  - by apply objects_alloc_new0.
  - apply (contents_prefix σ2); [by apply prefix_app_r|].
    apply contents_contiguous; [by apply storages_alloc_new0|].
    rewrite (length_concat_same _ (B * D)), length_fmap, length_seq.
    + simpl. lia.
    + apply Forall_forall. intros d (i & -> & [_ Hi]%elem_of_seq)%list_elem_of_fmap.
      rewrite HlenA, Hsza by done. apply numel_2d.
  - apply contents_contiguous; [by apply storages_alloc_new0|].
    rewrite (length_concat_same _ (B * D)), length_fmap, length_seq.
    + simpl. lia.
    + apply Forall_forall. intros d (i & -> & [_ Hi]%elem_of_seq)%list_elem_of_fmap.
      rewrite HlenP, Hszp by done. apply numel_2d.
Qed.
End gatherer_claims.

(** ** Frame: the gatherer writes to its buffers only *)

Section gatherer_frame.
Context {A : Type}.
Implicit Types (σ : state A) (t : tensor).

Lemma triple_bind {X Y} P (m : M A X) (k : X → M A Y) Q R :
  triple P m Q → (∀ x, Q x → triple P (k x) R) → triple P (m ≫= k) R.
Proof.
  intros Hm Hk σ HP. unfold mbind, M_bind, bind.
  destruct (Hm σ HP) as [HP1 HQ].
  destruct (m σ) as [[e|x] σ1]; simpl in *; [by split|].
  by apply Hk; [apply HQ|].
Qed.

Lemma triple_weaken {X} P (m : M A X) (Q Q' : X → Prop) :
  triple P m Q → (∀ x, Q x → Q' x) → triple P m Q'.
Proof.
  intros Hm HQ σ HP. destruct (Hm σ HP) as [? H]. split; [done|].
  intros x Hx. by apply HQ, H.
Qed.

Lemma triple_ret {X} P (x : X) (Q : X → Prop) :
  Q x → triple P (mret x : M A X) Q.
Proof. intros HQ σ HP. split; [done|]. by intros ? [= <-]. Qed.

(** A computation that leaves the state as it is keeps every invariant. *)
Lemma triple_pure {X} P (m : M A X) :
  (∀ σ, (m σ).2 = σ) → triple P m (λ _, True).
Proof. intros Hm σ HP. by rewrite Hm. Qed.

Lemma triple_mapM {X Y} P (f : X → M A Y) (l : list X) (Q : Y → Prop) :
  (∀ x, triple P (f x) Q) → triple P (mapM f l) (Forall Q).
Proof.
  intros Hf. induction l as [|x l IH]; simpl.
  - by apply triple_ret.
  - eapply triple_bind; [apply Hf|]. intros y Hy.
    eapply triple_bind; [apply IH|]. intros ys Hys.
    apply triple_ret. by constructor.
Qed.

Lemma pure_from_option {X} e (o : option X) σ :
  (from_option (A:=A) e o σ).2 = σ.
Proof. by destruct o. Qed.

Lemma pure_check b e σ : (check (A:=A) b e σ).2 = σ.
Proof. by destruct b. Qed.

Lemma pure_deref r σ : (torch.deref (A:=A) r σ).2 = σ.
Proof. unfold torch.deref. rewrite run_get_state. apply pure_from_option. Qed.

Lemma pure_default_group σ : (dist.default_group (A:=A) σ).2 = σ.
Proof.
  unfold dist.default_group. rewrite run_get_state. apply pure_from_option.
Qed.

Lemma pure_bind {X Y} (m : M A X) (k : X → M A Y) σ :
  (m σ).2 = σ → (∀ x, (k x σ).2 = σ) → ((m ≫= k) σ).2 = σ.
Proof.
  intros Hm Hk. unfold mbind, M_bind, bind.
  destruct (m σ) as [[e|x] σ1]; simpl in *; subst; [done|apply Hk].
Qed.

Lemma pure_dist_get_world_size σ : (dist.get_world_size (A:=A) σ).2 = σ.
Proof.
  unfold dist.get_world_size. apply pure_bind; [apply pure_default_group|done].
Qed.

Lemma pure_dist_get_rank σ : (dist.get_rank (A:=A) σ).2 = σ.
Proof.
  unfold dist.get_rank. apply pure_bind; [apply pure_default_group|done].
Qed.

Lemma pure_get_world_size σ : (get_world_size (A:=A) σ).2 = σ.
Proof.
  unfold get_world_size, try_except.
  pose proof (pure_dist_get_world_size σ) as H.
  destruct (dist.get_world_size σ) as [[e|x] σ1]; simpl in *; subst;
    [by case_decide|done].
Qed.

Lemma pure_setitem {X} (l : list X) i x σ :
  (setitem (A:=A) l i x σ).2 = σ.
Proof. unfold setitem. by case_match. Qed.

Lemma pure_mapM_deref rs σ : (mapM (torch.deref (A:=A)) rs σ).2 = σ.
Proof.
  induction rs as [|r rs IH]; [done|]. simpl.
  apply pure_bind; [apply pure_deref|]. intros t.
  by apply pure_bind.
Qed.

Lemma pure_history op rs σ : (torch.history (A:=A) op rs σ).2 = σ.
Proof.
  unfold torch.history. apply pure_bind; [apply pure_mapM_deref|done].
Qed.

Section since.
Context (σ0 : state A).

Lemma since_refl : since σ0 σ0.
Proof. split; try done. intros r t Hr Ht%lookup_lt_Some. lia. Qed.

Lemma triple_new_storage (data : list A) :
  triple (since σ0) (torch.new_storage data)
         (λ l, length (storages σ0) ≤ l).
Proof.
  intros σ [Ho Hs Hr Hf]. rewrite run_new_storage. simpl. split.
  - split; simpl; [by rewrite app_nil_r|by apply prefix_app_r|done|].
    rewrite app_nil_r. apply Hf.
  - intros l [= <-]. by apply prefix_length.
Qed.

Lemma triple_new_object t :
  length (storages σ0) ≤ t_storage t →
  triple (since σ0) (torch.new_object (A:=A) t)
         (λ r, length (objects σ0) ≤ r).
Proof.
  intros Ht σ [Ho Hs Hr Hf]. rewrite run_new_object. simpl. split.
  - split; simpl; [by apply prefix_app_r|by rewrite app_nil_r|done|].
    intros r t' Hr' [Hlook|[_ Hlook]]%lookup_app_Some; [by eapply Hf|].
    apply list_lookup_singleton_Some in Hlook as [_ <-]. done.
  - intros r [= <-]. by apply prefix_length.
Qed.

Lemma triple_ones_like (one : A) r :
  triple (since σ0) (torch.ones_like one r)
         (λ r', length (objects σ0) ≤ r').
Proof.
  unfold torch.ones_like.
  eapply triple_bind; [apply triple_pure, pure_deref|]. intros t _.
  eapply triple_bind; [apply triple_new_storage|]. intros l Hl.
  by apply triple_new_object.
Qed.

Lemma triple_copy_ dst (data : list A) :
  length (objects σ0) ≤ dst →
  triple (since σ0) (torch.copy_ dst data) (λ _, True).
Proof.
  intros Hdst σ HS. split; [|done].
  destruct (objects σ !! dst) as [t|] eqn:Ht; last first.
  { unfold torch.copy_.
    rewrite (run_bind_raise _ _ σ RuntimeError σ); [done|].
    unfold torch.deref. rewrite run_get_state. unfold from_option.
    by rewrite Ht. }
  destruct (torch.copy_ dst data σ) as [out σ'] eqn:Hrun.
  destruct (copy_effect _ _ _ _ _ _ Ht Hrun) as [->|(s & Hs & ->)];
    [done|]. simpl.
  destruct HS as [Ho Hst Hr Hf]. split; simpl; [done| |done|done].
  destruct Hst as [k Hk]. rewrite Hk.
  rewrite insert_app_r_alt by (by eapply Hf).
  by apply prefix_app_r.
Qed.

Lemma triple_next_collective :
  triple (since σ0) (dist.next_collective (A:=A)) (λ _, True).
Proof. intros σ [Ho Hs Hr Hf]. split; [|done]. by split. Qed.

Lemma triple_all_gather dsts src :
  Forall (λ r, length (objects σ0) ≤ r) dsts →
  triple (since σ0) (dist.all_gather (A:=A) dsts src) (λ _, True).
Proof.
  intros Hdsts. unfold dist.all_gather.
  eapply triple_bind; [apply triple_pure, pure_default_group|].
  intros pg _.
  eapply triple_bind; [apply triple_pure, pure_check|]. intros ? _.
  eapply triple_bind; [apply triple_pure, pure_deref|]. intros t _.
  eapply triple_bind; [by apply triple_pure|]. intros σ _.
  eapply triple_bind; [apply triple_pure, pure_from_option|].
  intros local _.
  eapply triple_bind; [apply triple_next_collective|]. intros round _.
  eapply triple_bind; [|intros; by apply triple_ret].
  cut (∀ (rs : list nat),
         triple (since σ0)
           (mapM (λ '(r, dst),
                    torch.copy_ dst
                      (if decide (r = rank pg) then local
                       else wire (dist_rt σ) round r))
                 (zip rs dsts))
           (λ _, True)).
  { intros H. apply H. }
  induction Hdsts as [|dst dsts Hdst _ IH]; intros [|r rs]; simpl;
    try (by apply triple_ret).
  eapply triple_bind; [by apply triple_copy_|]. intros ? _.
  eapply triple_bind; [apply IH|]. intros; by apply triple_ret.
Qed.

Lemma triple_cat refs :
  triple (since σ0) (torch.cat (A:=A) refs) (λ _, True).
Proof.
  unfold torch.cat.
  eapply triple_bind; [apply triple_pure, pure_mapM_deref|].
  intros [|t0 ts] _; [by apply triple_pure|].
  eapply triple_bind; [apply triple_pure, pure_check|]. intros ? _.
  eapply triple_bind; [by apply triple_pure|]. intros σ _.
  eapply triple_bind; [apply triple_pure, pure_from_option|].
  intros datas _.
  eapply triple_bind; [apply triple_pure, pure_history|]. intros g _.
  eapply triple_bind; [apply triple_new_storage|]. intros l Hl.
  eapply triple_weaken; [by apply triple_new_object|done].
Qed.

Lemma triple_gathered_lists (one : A) anchors positives :
  triple (since σ0) (gathered_lists one anchors positives) (λ _, True).
Proof.
  unfold gathered_lists.
  eapply triple_bind; [apply triple_pure, pure_dist_get_world_size|].
  intros w _.
  eapply triple_bind;
    [apply triple_mapM; intros; apply triple_ones_like|].
  intros al Hal.
  eapply triple_bind; [apply triple_pure, pure_dist_get_world_size|].
  intros w' _.
  eapply triple_bind;
    [apply triple_mapM; intros; apply triple_ones_like|].
  intros pl Hpl.
  eapply triple_bind; [by apply triple_all_gather|]. intros ? _.
  eapply triple_bind; [by apply triple_all_gather|]. intros ? _.
  eapply triple_bind; [apply triple_pure, pure_dist_get_rank|].
  intros r _.
  eapply triple_bind; [apply triple_pure, pure_setitem|]. intros al' _.
  eapply triple_bind; [apply triple_pure, pure_dist_get_rank|].
  intros r' _.
  eapply triple_bind; [apply triple_pure, pure_setitem|]. intros pl' _.
  by apply triple_ret.
Qed.

Lemma triple_all_gather_anchor_positive_pairs (one : A)
    anchors positives :
  triple (since σ0)
         (all_gather_anchor_positive_pairs one anchors positives)
         (λ _, True).
Proof.
  unfold all_gather_anchor_positive_pairs.
  eapply triple_bind; [apply triple_pure, pure_get_world_size|].
  intros w _. case_match; [by apply triple_ret|].
  eapply triple_bind; [apply triple_gathered_lists|].
  intros [al pl] _.
  eapply triple_bind; [apply triple_cat|]. intros ra _.
  eapply triple_bind; [apply triple_cat|]. intros rp _.
  by apply triple_ret.
Qed.
End since.

(** C9: whatever the world size and whether the call returns or raises,
    every object and every storage that existed before the call is there
    after it, unchanged: the buffers are new objects on new storages, the
    collectives write to these only, and the overwrite of the own-rank
    entries changes the lists, not a tensor.  So the two input tensors
    hold the values they held. *)
Theorem all_gather_leaves_its_inputs_alone σ (one : A) anchors positives :
  let σ' := (all_gather_anchor_positive_pairs one anchors positives σ).2 in
  objects σ `prefix_of` objects σ'
  ∧ storages σ `prefix_of` storages σ'
  ∧ rng σ' = rng σ
  ∧ ∀ r t v,
      r = anchors ∨ r = positives →
      objects σ !! r = Some t →
      torch.contents σ t = Some v →
      objects σ' !! r = Some t ∧ torch.contents σ' t = Some v.
Proof.
  intros σ'.
  destruct (triple_all_gather_anchor_positive_pairs σ one anchors
              positives σ (since_refl σ)) as [[Ho Hs Hr _] _].
  fold σ' in Ho, Hs, Hr. split_and!; [done..|].
  intros r t v _ Ht Hv. split.
  - by eapply prefix_lookup_Some.
  - by eapply contents_prefix.
Qed.
End gatherer_frame.

Section gatherer_no_op.
Context {A : Type}.
Implicit Types (σ : state A) (t : tensor).

(** The no-op path, line 89: taken with a group of fewer than two
    replicas, and without a group when the library reports that with the
    [AssertionError] line 15 catches. *)
Lemma run_all_gather_below_two σ (one : A) anchors positives :
  (∀ pg, group (dist_rt σ) = Some pg → world_size pg < 2) →
  (group (dist_rt σ) = None →
   not_initialized (dist_rt σ) = AssertionError) →
  all_gather_anchor_positive_pairs one anchors positives σ
  = (inr (anchors, positives), σ).
Proof.
  intros HW He. unfold all_gather_anchor_positive_pairs.
  destruct (group (dist_rt σ)) as [pg|] eqn:Hg.
  - step (run_get_world_size σ pg Hg). specialize (HW pg eq_refl).
    by destruct (Z.ltb_spec (Z.of_nat (world_size pg)) 2); [|lia].
  - by step (run_get_world_size_uninit σ Hg (He eq_refl)).
Qed.

(** Without a group and with any other error, nothing catches it. *)
Lemma run_all_gather_uncaught σ (one : A) anchors positives :
  group (dist_rt σ) = None →
  not_initialized (dist_rt σ) ≠ AssertionError →
  all_gather_anchor_positive_pairs one anchors positives σ
  = (inl (not_initialized (dist_rt σ)), σ).
Proof.
  intros Hg He. unfold all_gather_anchor_positive_pairs.
  apply run_bind_raise. by apply run_get_world_size_uncaught.
Qed.

(** C2: with a group of fewer than two replicas the call returns the two
    references it was given, and the state is the one it started from, so
    nothing was copied or allocated and the objects, their histories
    included, are as they were.  Without a group the same holds when the
    library reports the missing group with an [AssertionError]; with any
    other error the call raises it, and the state is again unchanged. *)
Theorem all_gather_is_identity_below_two_replicas σ (one : A)
    anchors positives :
  (∀ pg, group (dist_rt σ) = Some pg → world_size pg < 2) →
  all_gather_anchor_positive_pairs one anchors positives σ
  = (match group (dist_rt σ) with
     | Some _ => inr (anchors, positives)
     | None =>
       if decide (not_initialized (dist_rt σ) = AssertionError)
       then inr (anchors, positives)
       else inl (not_initialized (dist_rt σ))
     end, σ).
Proof.
  intros HW. unfold all_gather_anchor_positive_pairs.
  destruct (group (dist_rt σ)) as [pg|] eqn:Hg.
  - step (run_get_world_size σ pg Hg). specialize (HW pg eq_refl).
    destruct (Z.ltb_spec (Z.of_nat (world_size pg)) 2) as [_|Hge]; [done|].
    lia.
  - case_decide as He.
    + by step (run_get_world_size_uninit σ Hg He).
    + apply run_bind_raise. by apply run_get_world_size_uncaught.
Qed.

(** C6: without a group the query of the world size raises the error of
    this release of the library.  When that is an [AssertionError],
    [get_world_size] catches it and returns, and the gatherer returns its
    inputs, as it does with one replica; any other error is not caught:
    [get_world_size] and the gatherer raise it. *)
Theorem uninitialized_runtime_is_absorbed_if_it_asserts σ (one : A)
    anchors positives :
  group (dist_rt σ) = None →
  let e := not_initialized (dist_rt σ) in
  dist.get_world_size σ = (inl e, σ)
  ∧ (e = AssertionError →
     (∃ w, get_world_size σ = (inr w, σ))
     ∧ all_gather_anchor_positive_pairs one anchors positives σ
       = (inr (anchors, positives), σ)
     ∧ ∀ rk,
         (all_gather_anchor_positive_pairs one anchors positives
            (with_group σ (ProcessGroup 1 rk))).1
         = (all_gather_anchor_positive_pairs one anchors positives σ).1)
  ∧ (e ≠ AssertionError →
     get_world_size σ = (inl e, σ)
     ∧ all_gather_anchor_positive_pairs one anchors positives σ
       = (inl e, σ)).
Proof.
  intros Hg e. split_and!.
  - unfold dist.get_world_size.
    by rewrite (run_bind_raise _ _ _ _ _ (run_default_group_uninit σ Hg)).
  - intros He. split_and!.
    + eexists. by apply run_get_world_size_uninit.
    + apply run_all_gather_below_two; [congruence|done].
    + intros rk.
      rewrite !run_all_gather_below_two; [done|congruence|done| |].
      * simpl. intros pg [= <-]. simpl. lia.
      * simpl. congruence.
  - intros He. split.
    + by apply run_get_world_size_uncaught.
    + by apply run_all_gather_uncaught.
Qed.

(** C8: without a group, and when the library reports that with an
    [AssertionError], [get_world_size] returns -1, not 1; -1, like every
    negative number, passes the test [< 2], and the gatherer returns its
    inputs.  With any other error [get_world_size] returns no sentinel:
    it raises. *)
Theorem uninitialized_world_size_is_minus_one_if_it_asserts σ (one : A)
    anchors positives :
  group (dist_rt σ) = None →
  (not_initialized (dist_rt σ) = AssertionError →
   get_world_size σ = (inr (-1)%Z, σ)
   ∧ (get_world_size σ).1 ≠ inr 1%Z
   ∧ (∀ w : Z, (w < 0)%Z → (w <? 2)%Z = true)
   ∧ all_gather_anchor_positive_pairs one anchors positives σ
     = (inr (anchors, positives), σ))
  ∧ (not_initialized (dist_rt σ) ≠ AssertionError →
     ∀ w, get_world_size σ ≠ (inr w, σ)).
Proof.
  intros Hg. split.
  - intros He. rewrite (run_get_world_size_uninit σ Hg He). split_and!.
    + done.
    + simpl. by intros [=].
    + intros w Hw. apply Z.ltb_lt. lia.
    + unfold all_gather_anchor_positive_pairs.
      by step (run_get_world_size_uninit σ Hg He).
  - intros He w. by rewrite (run_get_world_size_uncaught σ Hg He).
Qed.
End gatherer_no_op.

(** ** The claims at concrete inputs *)

Lemma three_span_tokens_valid :
  field_tensor_set three_span_state three_span_tokens 2 3.
Proof.
  exists cpu. intros name [->|[->| ->]]%elem_of_sub_fields.
  - exists 0, (Tensor 0 0 [2; 3; 2] [6; 2; 1] cpu None), [2].
    split_and!; try reflexivity. eexists. vm_compute. reflexivity.
  - exists 1, (Tensor 1 0 [2; 3; 2] [6; 2; 1] cpu None), [2].
    split_and!; try reflexivity. eexists. vm_compute. reflexivity.
  - exists 2, (Tensor 2 0 [2; 3; 2] [6; 2; 1] cpu None), [2].
    split_and!; try reflexivity. eexists. vm_compute. reflexivity.
Defined.

(** Among 22 spans [random.sample] draws both positions below 22 and
    draws again on a repeat: the draws 3, 3, 21 give the pair (3, 21) and
    the draws 9, 9, 18 the pair (9, 18), in three draws each.  Among 21 it
    draws below 21 and below 20 from the pool: the draws 3, 3 give the
    pair (3, 20), in two draws. *)
Lemma sample_draws_again_on_a_repeat :
  random.sample (seq 0 22) 2 (drawing_state [3; 3; 21])
  = (inr [3; 21], advance 3 (drawing_state [3; 3; 21]))
  ∧ random.sample (seq 0 22) 2 (drawing_state [9; 9; 18])
    = (inr [9; 18], advance 3 (drawing_state [9; 9; 18]))
  ∧ random.sample (seq 0 21) 2 (drawing_state [3; 3])
    = (inr [3; 20], advance 2 (drawing_state [3; 3])).
Proof. split_and!; vm_compute; reflexivity. Qed.

Lemma sample_rejects_fewer_than_two_spans_witness :
  sample_anchor_positive_pairs tokens_without_mask one_span_state
  = (inl ValueError, one_span_state).
Proof.
  apply (sample_rejects_fewer_than_two_spans one_span_state
           tokens_without_mask 0
           (Tensor 0 0 [2; 1; 3] [3; 3; 1] cpu None) 1);
    [reflexivity|reflexivity|reflexivity|lia].
Defined.

Lemma sample_shares_one_index_pair_witness :
  ∃ i0 i1 σs anchors positives σ',
    random.sample (seq 0 3) 2 three_span_state = (inr [i0; i1], σs)
    ∧ sample_anchor_positive_pairs three_span_tokens three_span_state
      = (inr (anchors, positives), σ')
    ∧ i0 ≠ i1.
Proof.
  destruct (sample_shares_one_index_pair three_span_state three_span_tokens
              2 3 three_span_tokens_valid ltac:(lia))
    as (i0 & i1 & σs & anchors & positives & σ' & Hdraw & Hrun & _ & _ & _
        & Hne & _).
  exists i0, i1, σs, anchors, positives, σ'.
  split; [exact Hdraw|split; [exact Hrun|exact Hne]].
Defined.

Lemma sampled_pairs_are_independent_witness :
  ∃ anchors positives σ',
    sample_anchor_positive_pairs three_span_tokens three_span_state
    = (inr (anchors, positives), σ')
    ∧ dom anchors = dom positives.
Proof.
  destruct (sampled_pairs_are_independent three_span_state
              three_span_tokens 2 3 three_span_tokens_valid ltac:(lia))
    as (anchors & positives & σ' & Hrun & Ha & Hp & _).
  exists anchors, positives, σ'. split; [exact Hrun|].
  rewrite Ha, Hp. reflexivity.
Defined.

Lemma all_gather_concatenates_in_rank_order_witness :
  ∃ ra rp σ' ta',
    all_gather_anchor_positive_pairs 1%Z 0 1 replica_state
    = (inr (ra, rp), σ')
    ∧ objects σ' !! ra = Some ta'
    ∧ t_sizes ta' = [3 * 2; 2]
    ∧ torch.contents σ' ta'
      = Some [0; 0; 0; 0; 1; 2; 3; 4; 20; 20; 20; 20]%Z.
Proof.
  destruct (all_gather_concatenates_in_rank_order replica_state 1%Z 0 1
              (ProcessGroup 3 1)
              (Tensor 0 0 [2; 2] [2; 1] cpu (Some (Produced 7)))
              (Tensor 1 0 [2; 2] [2; 1] cpu (Some (Produced 8)))
              2 2 [1; 2; 3; 4]%Z [5; 6; 7; 8]%Z)
    as (al & pl & σ1 & ra & σ2 & rp & σ' & ta' & tp' & _ & _ & _ & Hrun
        & _ & _ & _ & _ & _ & _ & _ & Hra & _ & Hsz & _ & Hc & _);
    [reflexivity|simpl; lia|simpl; lia|reflexivity|reflexivity
    |reflexivity|reflexivity|reflexivity|reflexivity
    |intros r _ _; split; reflexivity|].
  exists ra, rp, σ', ta'.
  split; [exact Hrun|split; [exact Hra|split; [exact Hsz|exact Hc]]].
Defined.

Lemma all_gather_is_identity_below_two_replicas_witness :
  all_gather_anchor_positive_pairs 1%Z 0 1 lone_replica_state
  = (inr (0, 1), lone_replica_state)
  ∧ all_gather_anchor_positive_pairs 1%Z 0 1 legacy_state
    = (inr (0, 1), legacy_state)
  ∧ all_gather_anchor_positive_pairs 1%Z 0 1 three_span_state
    = (inl ValueError, three_span_state).
Proof.
  split; [|split].
  - apply (all_gather_is_identity_below_two_replicas lone_replica_state
             1%Z 0 1).
    intros pg Hpg. injection Hpg as <-. simpl. lia.
  - apply (all_gather_is_identity_below_two_replicas legacy_state 1%Z 0 1).
    intros pg Hpg. discriminate Hpg.
  - apply (all_gather_is_identity_below_two_replicas three_span_state
             1%Z 0 1).
    intros pg Hpg. discriminate Hpg.
Defined.

Lemma uninitialized_runtime_is_absorbed_if_it_asserts_witness :
  dist.get_world_size three_span_state = (inl ValueError, three_span_state)
  ∧ all_gather_anchor_positive_pairs 1%Z 0 1 three_span_state
    = (inl ValueError, three_span_state)
  ∧ all_gather_anchor_positive_pairs 1%Z 0 1 legacy_state
    = (inr (0, 1), legacy_state).
Proof.
  destruct (uninitialized_runtime_is_absorbed_if_it_asserts
              three_span_state 1%Z 0 1) as (Hraise & _ & Hrun);
    [reflexivity|].
  destruct (uninitialized_runtime_is_absorbed_if_it_asserts
              legacy_state 1%Z 0 1) as (_ & Hold & _); [reflexivity|].
  split; [exact Hraise|split].
  - apply Hrun. discriminate.
  - apply Hold. reflexivity.
Defined.

Lemma uninitialized_world_size_is_minus_one_if_it_asserts_witness :
  get_world_size legacy_state = (inr (-1)%Z, legacy_state)
  ∧ get_world_size three_span_state ≠ (inr (-1)%Z, three_span_state).
Proof.
  destruct (uninitialized_world_size_is_minus_one_if_it_asserts
              legacy_state 1%Z 0 1) as (Hold & _); [reflexivity|].
  destruct (uninitialized_world_size_is_minus_one_if_it_asserts
              three_span_state 1%Z 0 1) as (_ & Hnew); [reflexivity|].
  split.
  - apply Hold. reflexivity.
  - apply Hnew. discriminate.
Defined.

(** * Further properties of the three functions *)

(** ** The sampler on inputs that are not a Field Tensor Set *)



Section sampler_edges.
Context {A : Type}.
Implicit Types (σ : state A) (t : tensor).

(** X2: when the tensor under ["token_ids"] has fewer than two dimensions
    there is no span dimension to measure: [size(1)] raises an
    [IndexError], nothing is drawn and the state is as it was. *)
Theorem sample_rejects_token_ids_without_span_dimension σ
    (tokens : TextFieldTensors) r t :
  lookup_subfield tokens "token_ids" = Some r →
  objects σ !! r = Some t →
  length (t_sizes t) < 2 →
  sample_anchor_positive_pairs tokens σ = (inl IndexError, σ).
Proof.
  intros Hl Hr Hdim. unfold sample_anchor_positive_pairs.
  step (run_subfield_lookup tokens "token_ids" r σ Hl).
  apply run_bind_raise, (run_size_out_of_range r 1 t σ Hr).
  apply lookup_ge_None. lia.
Qed.

(** X3: the index is built on the device of ["token_ids"] (line 37), so a
    mask or type ids held on another device are rejected by
    [index_select] with a [RuntimeError]; by then the indices have been
    drawn, and the random source is as [random.sample] left it. *)
Theorem sample_rejects_sub_fields_on_another_device σ
    (tokens : TextFieldTensors) r1 r2 r3 t1 t2 t3 n B1 B2 B3
    rest1 rest2 rest3 :
  sub_field_tensor σ tokens "token_ids" r1 t1 B1 n rest1 →
  sub_field_tensor σ tokens "mask" r2 t2 B2 n rest2 →
  sub_field_tensor σ tokens "type_ids" r3 t3 B3 n rest3 →
  2 ≤ n →
  t_device t2 ≠ t_device t1 ∨ t_device t3 ≠ t_device t1 →
  ∃ drawn σs σ',
    random.sample (seq 0 n) 2 σ = (inr drawn, σs)
    ∧ sample_anchor_positive_pairs tokens σ = (inl RuntimeError, σ')
    ∧ rng σ' = rng σs.
Proof.
  intros (Hl1 & Hr1 & Hsz1 & Hv1) (Hl2 & Hr2 & Hsz2 & Hv2)
    (Hl3 & Hr3 & Hsz3 & Hv3) Hn Hdev.
  destruct (run_sample_pair n σ Hn)
    as (i0 & i1 & d & Hdraw & Hi0 & Hi1 & _).
  set (σr := advance d σ) in *.
  set (index := torch.IndexTensor [i0; i1] (t_device t1)).
  destruct (run_index_select σr r1 t1 B1 n rest1 i0 i1 (t_device t1))
    as (d1 & Hrun1 & _); [done..|].
  fold index in Hrun1.
  set (σ1 := alloc σr [select_view (length (storages σr)) r1 t1] [d1])
    in Hrun1.
  assert (∀ k : state A, subfield tokens "token_ids" k = (inr r1, k)) as Hs1
    by (intros k; by apply run_subfield_lookup).
  exists [i0; i1], σr.
  destruct (decide (t_device t2 = t_device t1)) as [Hd2|Hd2].
  - destruct Hdev as [?|Hd3]; [done|].
    destruct (run_index_select σ1 r2 t2 B2 n rest2 i0 i1 (t_device t1))
      as (d2 & Hrun2 & _);
      [by apply objects_alloc_old|done|done|done|done
      |by apply valid_view_alloc|].
    fold index in Hrun2.
    eexists. split_and!; [done| |].
    + unfold sample_anchor_positive_pairs.
      step (Hs1 σ).
      run ltac:(by eapply run_size; [|rewrite Hsz1]).
      step Hdraw.
      step (Hs1 σr). step (run_device r1 t1 σr Hr1).
      step (run_as_tensor [i0; i1] (t_device t1) σr).
      step (Hs1 σr). step Hrun1.
      step (run_subfield_lookup tokens "mask" r2 σ1 Hl2).
      step Hrun2.
      run ltac:(by apply run_subfield_lookup).
      apply run_bind_raise.
      apply (run_index_select_other_device _ r3 t3 n);
        [by do 2 apply objects_alloc_old|by rewrite Hsz3|done].
    + done.
  - eexists. split_and!; [done| |].
    + unfold sample_anchor_positive_pairs.
      step (Hs1 σ).
      run ltac:(by eapply run_size; [|rewrite Hsz1]).
      step Hdraw.
      step (Hs1 σr). step (run_device r1 t1 σr Hr1).
      step (run_as_tensor [i0; i1] (t_device t1) σr).
      step (Hs1 σr). step Hrun1.
      step (run_subfield_lookup tokens "mask" r2 σ1 Hl2).
      apply run_bind_raise.
      apply (run_index_select_other_device _ r2 t2 n);
        [by apply objects_alloc_old|by rewrite Hsz2|].
      simpl. congruence.
    + done.
Qed.
End sampler_edges.

Section sampler_ragged_claim.
Context {A : Type}.
Implicit Types (σ : state A) (t : tensor).

(** X4: the sampler measures the span dimension of ["token_ids"] only.
    When the mask or the type ids have another number of spans, the call
    raises the [RuntimeError] of [index_select] if the larger of the two
    indices that [random.sample] returns is outside one of them, and
    otherwise returns as on a well-formed input: each sampled tensor has
    the sizes of its own sub-field without the span dimension and holds
    its spans [i0] (anchors) and [i1] (positives).  The batch sizes and
    trailing sizes of the sub-fields are not compared either. *)
Theorem sample_checks_span_counts_by_the_drawn_indices σ
    (tokens : TextFieldTensors) r1 r2 r3 t1 t2 t3 n1 n2 n3 B1 B2 B3
    rest1 rest2 rest3 i0 i1 σs :
  sub_field_tensor σ tokens "token_ids" r1 t1 B1 n1 rest1 →
  sub_field_tensor σ tokens "mask" r2 t2 B2 n2 rest2 →
  sub_field_tensor σ tokens "type_ids" r3 t3 B3 n3 rest3 →
  t_device t2 = t_device t1 → t_device t3 = t_device t1 →
  2 ≤ n1 →
  random.sample (seq 0 n1) 2 σ = (inr [i0; i1], σs) →
  if decide (i0 `max` i1 < n2 ∧ i0 `max` i1 < n3)
  then ∃ anchors positives σ',
    sample_anchor_positive_pairs tokens σ = (inr (anchors, positives), σ')
    ∧ ∀ name r t B n rest,
        name ∈ sub_fields →
        sub_field_tensor σ tokens name r t B n rest →
        ∃ ra ta rp tp,
          lookup_subfield anchors name = Some ra ∧
          objects σ' !! ra = Some ta ∧
          lookup_subfield positives name = Some rp ∧
          objects σ' !! rp = Some tp ∧
          t_sizes ta = B :: rest ∧ t_sizes tp = B :: rest ∧
          ∀ b tl, Forall2 lt (b :: tl) (B :: rest) →
            torch.peek σ' ta (b :: tl) = torch.peek σ t (b :: i0 :: tl) ∧
            torch.peek σ' tp (b :: tl) = torch.peek σ t (b :: i1 :: tl)
  else (sample_anchor_positive_pairs tokens σ).1 = inl RuntimeError.
Proof.
  intros (Hl1 & Hr1 & Hsz1 & Hv1) (Hl2 & Hr2 & Hsz2 & Hv2)
    (Hl3 & Hr3 & Hsz3 & Hv3) Hdev2 Hdev3 Hn Hdraw.
  destruct (sample_pair_inv n1 σ i0 i1 σs Hn Hdraw)
    as (d & -> & Hi0 & Hi1 & _).
  pose proof Hl1 as (field & Htok & Hf1)%lookup_subfield_Some.
  pose proof Hl2 as (field2 & Htok2 & Hf2)%lookup_subfield_Some.
  pose proof Hl3 as (field3 & Htok3 & Hf3)%lookup_subfield_Some.
  assert (field2 = field) as -> by congruence.
  assert (field3 = field) as -> by congruence.
  case_decide as Hin.
  - destruct Hin as [Hin2 Hin3].
    destruct (run_sample_anchor_positive_pairs σ tokens field r1 r2 r3
                t1 t2 t3 n1 n2 n3 B1 B2 B3 rest1 rest2 rest3 i0 i1 d)
      as (d1 & d2 & d3 & Hrun & Hdata1 & Hdata2 & Hdata3);
      [done|done|done|done|done|done|done|done|done|done|done|done
      |done|done|done|done|done|done|lia|lia|lia|lia|].
    set (m := length (objects σ)) in *.
    set (l := length (storages σ)) in *.
    set (σ' := alloc (advance d σ) (sampled_objects m l r1 r2 r3 t1 t2 t3)
                 [d1; d2; d3]) in *.
    destruct (lookup_text_field (m + 9) (m + 10) (m + 11))
      as (Ha1 & Ha2 & Ha3).
    destruct (lookup_text_field (m + 12) (m + 13) (m + 14))
      as (Hp1 & Hp2 & Hp3).
    eexists _, _, σ'. split; [exact Hrun|].
    assert (∀ r t B n rest ra rp rs rc0 rc1 k dk,
              t_sizes t = B :: n :: rest →
              objects σ' !! ra
              = Some (squeeze_view rc0 (chunk_view 0 rs
                        (select_view (l + k) r t))) →
              objects σ' !! rp
              = Some (squeeze_view rc1 (chunk_view 1 rs
                        (select_view (l + k) r t))) →
              storages σ' !! (l + k) = Some dk →
              (∀ b k v tl, [i0; i1] !! k = Some v →
                 Forall2 lt (b :: k :: tl) (B :: 2 :: rest) →
                 dk !! torch.linear (b :: k :: tl)
                        (torch.contiguous_strides (B :: 2 :: rest))
                 = torch.peek σ t (b :: v :: tl)) →
              ∃ ta tp,
                objects σ' !! ra = Some ta ∧ objects σ' !! rp = Some tp ∧
                t_sizes ta = B :: rest ∧ t_sizes tp = B :: rest ∧
                ∀ b tl, Forall2 lt (b :: tl) (B :: rest) →
                  torch.peek σ' ta (b :: tl)
                  = torch.peek σ t (b :: i0 :: tl) ∧
                  torch.peek σ' tp (b :: tl)
                  = torch.peek σ t (b :: i1 :: tl)) as Hview.
    { intros r t B n rest ra rp rs rc0 rc1 k dk Hsz Hra Hrp Hd Hdata.
      eexists _, _. split_and!; [exact Hra|exact Hrp| | |].
      - by apply (sampled_sizes _ _ _ _ _ _ _ _ _ Hsz).
      - by apply (sampled_sizes _ _ _ _ _ _ _ _ _ Hsz).
      - intros b tl (Hb & Htl)%Forall2_cons_1.
        rewrite !(sampled_peek _ _ _ _ _ _ _ _ _ _ _ _ _ Hsz Hd).
        rewrite (Hdata b 0 i0 tl), (Hdata b 1 i1 tl);
          [done|done|by constructor; [|constructor; [lia|]]
          |done|by constructor; [|constructor; [lia|]]]. }
    intros name r t B n rest Hname (Hl & Hr & Hsz & Hv).
    apply elem_of_sub_fields in Hname as [->|[->| ->]].
    + assert (r = r1) as -> by congruence.
      assert (t = t1) as -> by congruence.
      destruct (Hview r1 t1 B n rest (m + 9) (m + 12) m (m + 3) (m + 4)
                  0 d1 Hsz) as (ta & tp & ? & ? & ? & ? & ?).
      * rewrite Nat.add_0_r.
        by apply (objects_alloc_new (advance d σ) _ _ 9).
      * rewrite Nat.add_0_r.
        by apply (objects_alloc_new (advance d σ) _ _ 12).
      * rewrite Nat.add_0_r. by apply (storages_alloc_new0 (advance d σ)).
      * rewrite Hsz1 in Hsz. injection Hsz as <- <- <-. exact Hdata1.
      * by exists (m + 9), ta, (m + 12), tp.
    + assert (r = r2) as -> by congruence.
      assert (t = t2) as -> by congruence.
      destruct (Hview r2 t2 B n rest (m + 10) (m + 13) (m + 1) (m + 5)
                  (m + 6) 1 d2 Hsz) as (ta & tp & ? & ? & ? & ? & ?).
      * by apply (objects_alloc_new (advance d σ) _ _ 10).
      * by apply (objects_alloc_new (advance d σ) _ _ 13).
      * by apply (storages_alloc_new (advance d σ) _ _ 1).
      * rewrite Hsz2 in Hsz. injection Hsz as <- <- <-. exact Hdata2.
      * by exists (m + 10), ta, (m + 13), tp.
    + assert (r = r3) as -> by congruence.
      assert (t = t3) as -> by congruence.
      destruct (Hview r3 t3 B n rest (m + 11) (m + 14) (m + 2) (m + 7)
                  (m + 8) 2 d3 Hsz) as (ta & tp & ? & ? & ? & ? & ?).
      * by apply (objects_alloc_new (advance d σ) _ _ 11).
      * by apply (objects_alloc_new (advance d σ) _ _ 14).
      * by apply (storages_alloc_new (advance d σ) _ _ 2).
      * rewrite Hsz3 in Hsz. injection Hsz as <- <- <-. exact Hdata3.
      * by exists (m + 11), ta, (m + 14), tp.
  - set (σr := advance d σ) in *.
    set (index := torch.IndexTensor [i0; i1] (t_device t1)).
    destruct (run_index_select σr r1 t1 B1 n1 rest1 i0 i1 (t_device t1))
      as (d1 & Hrun1 & _); [done..|].
    fold index in Hrun1.
    set (σ1 := alloc σr [select_view (length (storages σr)) r1 t1] [d1])
      in Hrun1.
    assert (∀ k : state A, subfield tokens "token_ids" k = (inr r1, k))
      as Hs1 by (intros k; by apply run_subfield_lookup).
    unfold sample_anchor_positive_pairs.
    step (Hs1 σ).
    run ltac:(by eapply run_size; [|rewrite Hsz1]).
    step Hdraw.
    step (Hs1 σr). step (run_device r1 t1 σr Hr1).
    step (run_as_tensor [i0; i1] (t_device t1) σr).
    step (Hs1 σr). step Hrun1.
    step (run_subfield_lookup tokens "mask" r2 σ1 Hl2).
    destruct (decide (i0 < n2 ∧ i1 < n2)) as [[H02 H12]|Hout2].
    + destruct (run_index_select σ1 r2 t2 B2 n2 rest2 i0 i1 (t_device t1))
        as (d2 & Hrun2 & _);
        [by apply objects_alloc_old|done|done|done|done
        |by apply valid_view_alloc|].
      step Hrun2.
      run ltac:(by apply run_subfield_lookup).
      erewrite run_bind_raise; [done|].
      rewrite <-Hdev3.
      apply (run_index_select_out_of_range _ r3 t3 n3);
        [by do 2 apply objects_alloc_old|by rewrite Hsz3|lia].
    + erewrite run_bind_raise; [done|].
      rewrite <-Hdev2.
      apply (run_index_select_out_of_range _ r2 t2 n2);
        [by apply objects_alloc_old|by rewrite Hsz2|done].
Qed.
End sampler_ragged_claim.

(** ** Protocol: which operations draw, and which talk to the peers *)

Create HintDb protocol discriminated.

Section protocol.
Context {A : Type}.
Implicit Types (σ : state A) (t : tensor).

Lemma takes_part_ret {X} (x : X) : takes_part (A:=A) 0 (mret x).
Proof. intros σ. simpl. split_and!; try done; lia. Qed.

Lemma takes_part_raise {X} e : takes_part 0 (raise (A:=A) (X:=X) e).
Proof. intros σ. simpl. split_and!; try done; lia. Qed.

Lemma takes_part_bind {X Y} k1 k2 (m : M A X) (f : X → M A Y) :
  takes_part k1 m → (∀ x, takes_part k2 (f x)) →
  takes_part (k1 + k2) (m ≫= f).
Proof.
  intros Hm Hf σ. unfold mbind, M_bind, bind.
  destruct (Hm σ) as (Hr & Hg & Hw & Hc).
  destruct (m σ) as [[e|x] σ1]; simpl in *.
  - split_and!; try done; lia.
  - destruct (Hf x σ1) as (Hr' & Hg' & Hw' & Hc').
    split_and!; [congruence..|].
    destruct (f x σ1).1; lia.
Qed.

Lemma takes_part_bind0 {X Y} (m : M A X) (f : X → M A Y) :
  takes_part 0 m → (∀ x, takes_part 0 (f x)) → takes_part 0 (m ≫= f).
Proof. apply (takes_part_bind 0 0). Qed.

Lemma takes_part_from_option {X} e (o : option X) :
  takes_part 0 (from_option (A:=A) e o).
Proof. destruct o; [apply takes_part_ret|apply takes_part_raise]. Qed.

Lemma takes_part_check b e : takes_part 0 (check (A:=A) b e).
Proof. destruct b; [apply takes_part_ret|apply takes_part_raise]. Qed.

Lemma takes_part_get_state : takes_part 0 (get_state (A:=A)).
Proof. intros σ. simpl. split_and!; try done; lia. Qed.

Lemma takes_part_mapM {X Y} (f : X → M A Y) (l : list X) :
  (∀ x, takes_part 0 (f x)) → takes_part 0 (mapM f l).
Proof.
  intros Hf. induction l as [|x l IH]; simpl.
  - apply takes_part_ret.
  - apply takes_part_bind0; [done|]. intros y.
    apply takes_part_bind0; [done|]. intros k.
    apply takes_part_ret.
Qed.

Lemma takes_part_new_object t : takes_part 0 (torch.new_object (A:=A) t).
Proof. intros σ. simpl. split_and!; try done; lia. Qed.

Lemma takes_part_new_storage (data : list A) :
  takes_part 0 (torch.new_storage data).
Proof. intros σ. simpl. split_and!; try done; lia. Qed.

Lemma takes_part_set_storage l (data : list A) :
  takes_part 0 (torch.set_storage l data).
Proof. intros σ. simpl. split_and!; try done; lia. Qed.

Lemma takes_part_next_collective : takes_part 1 (dist.next_collective (A:=A)).
Proof. intros σ. simpl. split_and!; try done; lia. Qed.

Hint Resolve takes_part_ret takes_part_raise takes_part_from_option
  takes_part_check takes_part_get_state takes_part_new_object
  takes_part_new_storage takes_part_set_storage : protocol.

Ltac heap_only :=
  repeat first
    [ progress eauto with protocol
    | apply takes_part_bind0; [|intros ?]
    | apply takes_part_mapM; intros ?
    | match goal with x : _ * _ |- _ => destruct x end ].

Lemma takes_part_deref r : takes_part 0 (torch.deref (A:=A) r).
Proof. unfold torch.deref. heap_only. Qed.
Hint Resolve takes_part_deref : protocol.

Lemma takes_part_history op rs : takes_part 0 (torch.history (A:=A) op rs).
Proof. unfold torch.history. heap_only. Qed.
Hint Resolve takes_part_history : protocol.

Lemma takes_part_size r d : takes_part 0 (torch.size (A:=A) r d).
Proof. unfold torch.size. heap_only. Qed.

Lemma takes_part_device r : takes_part 0 (torch.device (A:=A) r).
Proof. unfold torch.device. heap_only. Qed.

Lemma takes_part_as_tensor data dev :
  takes_part 0 (torch.as_tensor (A:=A) data dev).
Proof. apply takes_part_ret. Qed.

Lemma takes_part_index_select r d index :
  takes_part 0 (torch.index_select (A:=A) r d index).
Proof. unfold torch.index_select. heap_only. Qed.

Lemma takes_part_narrow r d start len :
  takes_part 0 (torch.narrow (A:=A) r d start len).
Proof. unfold torch.narrow. heap_only. Qed.
Hint Resolve takes_part_narrow : protocol.

Lemma takes_part_chunk r chunks d :
  takes_part 0 (torch.chunk (A:=A) r chunks d).
Proof. unfold torch.chunk. heap_only. case_match; heap_only. Qed.

Lemma takes_part_squeeze r d : takes_part 0 (torch.squeeze (A:=A) r d).
Proof. unfold torch.squeeze. heap_only. Qed.

Lemma takes_part_ones_like (one : A) r :
  takes_part 0 (torch.ones_like one r).
Proof. unfold torch.ones_like. heap_only. Qed.

Lemma takes_part_copy_ r (data : list A) :
  takes_part 0 (torch.copy_ r data).
Proof. unfold torch.copy_. heap_only. Qed.

Lemma takes_part_cat rs : takes_part 0 (torch.cat (A:=A) rs).
Proof. unfold torch.cat. heap_only. case_match; heap_only. Qed.

Lemma takes_part_getitem {V} (d : gmap string V) k :
  takes_part 0 (getitem (A:=A) d k).
Proof. apply takes_part_from_option. Qed.
Hint Resolve takes_part_getitem : protocol.

Lemma takes_part_subfield (tokens : TextFieldTensors) name :
  takes_part 0 (subfield (A:=A) tokens name).
Proof. unfold subfield. heap_only. Qed.

Lemma takes_part_unpack2 {X} (values : list X) :
  takes_part 0 (unpack2 (A:=A) values).
Proof. unfold unpack2. repeat case_match; heap_only. Qed.

Lemma takes_part_setitem {X} (l : list X) i x :
  takes_part 0 (setitem (A:=A) l i x).
Proof. unfold setitem. case_match; heap_only. Qed.

Lemma takes_part_default_group : takes_part 0 (dist.default_group (A:=A)).
Proof. unfold dist.default_group. heap_only. Qed.
Hint Resolve takes_part_default_group : protocol.

Lemma takes_part_dist_get_world_size :
  takes_part 0 (dist.get_world_size (A:=A)).
Proof. unfold dist.get_world_size. heap_only. Qed.

Lemma takes_part_get_rank : takes_part 0 (dist.get_rank (A:=A)).
Proof. unfold dist.get_rank. heap_only. Qed.

Hint Resolve takes_part_size takes_part_device takes_part_as_tensor
  takes_part_index_select takes_part_chunk takes_part_squeeze
  takes_part_ones_like takes_part_copy_ takes_part_cat
  takes_part_subfield takes_part_unpack2 takes_part_setitem
  takes_part_dist_get_world_size takes_part_get_rank : protocol.

(** One collective per [all_gather]. *)
Lemma takes_part_all_gather tensor_list tensor :
  takes_part 1 (dist.all_gather (A:=A) tensor_list tensor).
Proof.
  unfold dist.all_gather.
  apply (takes_part_bind 0 1); [heap_only|intros pg].
  apply (takes_part_bind 0 1); [heap_only|intros _].
  apply (takes_part_bind 0 1); [heap_only|intros t].
  apply (takes_part_bind 0 1); [heap_only|intros σ0].
  apply (takes_part_bind 0 1); [heap_only|intros local].
  apply (takes_part_bind 1 0); [apply takes_part_next_collective|].
  intros round. heap_only.
Qed.

(** Two for the gathered lists: the anchors, then the positives. *)
Lemma takes_part_gathered_lists (one : A) anchors positives :
  takes_part 2 (gathered_lists one anchors positives).
Proof.
  unfold gathered_lists.
  apply (takes_part_bind 0 2); [heap_only|intros w].
  apply (takes_part_bind 0 2); [heap_only|intros al].
  apply (takes_part_bind 0 2); [heap_only|intros w'].
  apply (takes_part_bind 0 2); [heap_only|intros pl].
  apply (takes_part_bind 1 1); [apply takes_part_all_gather|intros _].
  apply (takes_part_bind 1 0); [apply takes_part_all_gather|intros _].
  heap_only.
Qed.

Lemma run_subfield_absent (tokens : TextFieldTensors) name σ :
  lookup_subfield tokens name = None →
  ∃ e, subfield tokens name σ = (inl e, σ).
Proof.
  unfold subfield, lookup_subfield, getitem. intros Hl.
  destruct (tokens !! "tokens") as [field|] eqn:Ht; simpl in Hl.
  - rewrite (run_bind _ _ σ field σ) by done. rewrite Hl. by eexists.
  - eexists. by apply run_bind_raise.
Qed.

Lemma run_size_dangling r d σ :
  objects σ !! r = None → torch.size r d σ = (inl RuntimeError, σ).
Proof.
  intros Hr. unfold torch.size, torch.deref.
  apply run_bind_raise. rewrite (run_bind _ _ σ σ σ) by done.
  by rewrite Hr.
Qed.

(** X7: the sampler uses the random source in its one call of
    [random.sample] and nowhere else.  A call that returns has measured
    two or more spans under ["token_ids"], and leaves the random source as
    that call of [random.sample] left it; a call that raises leaves it
    either untouched (it raised before or while sampling) or, again, as
    the sampling left it. *)
Theorem sample_uses_the_random_source_once σ (tokens : TextFieldTensors) :
  let out := sample_anchor_positive_pairs tokens σ in
  match out.1 with
  | inr _ =>
    ∃ r t n drawn σs,
      lookup_subfield tokens "token_ids" = Some r ∧
      objects σ !! r = Some t ∧
      t_sizes t !! 1 = Some n ∧ 2 ≤ n ∧
      random.sample (seq 0 n) 2 σ = (inr drawn, σs) ∧
      rng out.2 = rng σs
  | inl _ =>
    rng out.2 = rng σ
    ∨ ∃ n drawn σs,
        random.sample (seq 0 n) 2 σ = (inr drawn, σs) ∧ rng out.2 = rng σs
  end.
Proof.
  intros out. unfold out, sample_anchor_positive_pairs.
  destruct (lookup_subfield tokens "token_ids") as [r|] eqn:Hl; last first.
  { destruct (run_subfield_absent tokens "token_ids" σ Hl) as [e He].
    rewrite (run_bind_raise _ _ _ _ _ He). by left. }
  step (run_subfield_lookup tokens "token_ids" r σ Hl).
  destruct (objects σ !! r) as [t|] eqn:Hr; last first.
  { rewrite (run_bind_raise _ _ _ _ _ (run_size_dangling r 1 σ Hr)).
    by left. }
  destruct (t_sizes t !! 1) as [n|] eqn:Hn; last first.
  { rewrite (run_bind_raise _ _ _ _ _ (run_size_out_of_range r 1 t σ Hr Hn)).
    by left. }
  step (run_size r 1 t n σ Hr Hn).
  destruct (Nat.lt_ge_cases n 2) as [Hlt|Hge].
  { rewrite (run_bind_raise _ _ σ ValueError σ)
      by (apply run_sample_short; by rewrite length_seq).
    by left. }
  destruct (run_sample_pair n σ Hge) as (i0 & i1 & d & Hs & _). step Hs.
  match goal with |- context [?k (advance d σ)] =>
    assert (takes_part 0 k) as Hk by heap_only;
    destruct (Hk (advance d σ)) as (Hrng & _);
    destruct (k (advance d σ)) as [[e|res] σ']
  end.
  - right. by eexists n, _, _.
  - by eexists r, t, n, _, _.
Qed.

(** X11: whatever its inputs, the gatherer leaves the process group, the
    wire and the random source as they were.  A call that returns has
    taken part in exactly two collectives when the process is one of two
    or more replicas (the anchors, then the positives), and in none
    otherwise; a call that raises has taken part in at most two. *)
Theorem all_gather_takes_part_in_two_collectives σ (one : A)
    anchors positives :
  let out := all_gather_anchor_positive_pairs one anchors positives σ in
  let c := collectives (dist_rt σ) in
  rng out.2 = rng σ
  ∧ group (dist_rt out.2) = group (dist_rt σ)
  ∧ wire (dist_rt out.2) = wire (dist_rt σ)
  ∧ match out.1 with
    | inr _ =>
      collectives (dist_rt out.2) = if multi_replica σ then c + 2 else c
    | inl _ => c ≤ collectives (dist_rt out.2) ≤ c + 2
    end.
Proof.
  intros out c. unfold out, all_gather_anchor_positive_pairs, multi_replica.
  destruct (group (dist_rt σ)) as [pg|] eqn:Hg.
  - step (run_get_world_size σ pg Hg).
    destruct (Z.ltb_spec (Z.of_nat (world_size pg)) 2) as [Hlt|Hge].
    + by destruct (Nat.leb_spec 2 (world_size pg)); [lia|].
    + destruct (Nat.leb_spec 2 (world_size pg)); [|lia].
      match goal with |- context [?k σ] =>
        assert (takes_part 2 k) as Hk;
        [|destruct (Hk σ) as (? & Hg' & ? & ?); rewrite Hg in Hg';
          by destruct (k σ) as [[e|res] σ']]
      end.
      apply (takes_part_bind 2 0); [apply takes_part_gathered_lists|].
      intros [al pl]. heap_only.
  - destruct (decide (not_initialized (dist_rt σ) = AssertionError))
      as [He|He].
    + by step (run_get_world_size_uninit σ Hg He).
    + rewrite (run_bind_raise _ _ _ _ _ (run_get_world_size_uncaught σ Hg He)).
      simpl. split_and!; try done; lia.
Qed.
End protocol.

(** ** The gatherer on inputs of any sizes *)

Section gather_general.
Context {A : Type}.
Implicit Types (σ : state A) (t : tensor).

Lemma lookup_seq_block {X} (pre : list X) (f g : nat → X) W i :
  i < W →
  (pre ++ (f <$> seq 0 W) ++ (g <$> seq 0 W)) !! (length pre + i)
  = Some (f i)
  ∧ (pre ++ (f <$> seq 0 W) ++ (g <$> seq 0 W)) !! (length pre + W + i)
    = Some (g i).
Proof.
  intros Hi. split.
  - rewrite lookup_app_r by lia.
    rewrite lookup_app_l by (rewrite length_fmap, length_seq; lia).
    replace (length pre + i - length pre) with i by lia.
    by rewrite list_lookup_fmap, lookup_seq_lt.
  - rewrite (assoc_L (++)), lookup_app_r
      by (rewrite length_app, length_fmap, length_seq; lia).
    rewrite length_app, length_fmap, length_seq.
    replace (length pre + W + i - (length pre + W)) with i by lia.
    by rewrite list_lookup_fmap, lookup_seq_lt.
Qed.

(** The multi-replica path on inputs of any sizes with a leading
    dimension: the state it ends in, in closed form. *)
Lemma run_all_gather_pairs σ (one : A) anchors positives pg ta tp va vp :
  group (dist_rt σ) = Some pg →
  2 ≤ world_size pg → rank pg < world_size pg →
  objects σ !! anchors = Some ta → objects σ !! positives = Some tp →
  t_sizes ta ≠ [] → t_sizes tp ≠ [] →
  torch.contents σ ta = Some va → torch.contents σ tp = Some vp →
  let W := world_size pg in
  let c := collectives (dist_rt σ) in
  let m := length (objects σ) in
  let l := length (storages σ) in
  let PA := contribution σ pg c va in
  let PP := contribution σ pg (S c) vp in
  (∀ r, r < W → r ≠ rank pg →
     length (wire (dist_rt σ) c r) = torch.numel (t_sizes ta) ∧
     length (wire (dist_rt σ) (S c) r) = torch.numel (t_sizes tp)) →
  ∃ σ',
    all_gather_anchor_positive_pairs one anchors positives σ
    = (inr (m + W + W, m + W + W + 1), σ')
    ∧ objects σ'
      = (objects σ ++ ((λ i, buffer (l + i) ta) <$> seq 0 W)
                   ++ ((λ i, buffer (l + W + i) tp) <$> seq 0 W))
        ++ [gathered (l + W + W) W (rank pg) anchors ta;
            gathered (l + W + W + 1) W (rank pg) positives tp]
    ∧ storages σ'
      = (storages σ ++ (PA <$> seq 0 W) ++ (PP <$> seq 0 W))
        ++ [concat (PA <$> seq 0 W); concat (PP <$> seq 0 W)]
    ∧ rng σ' = rng σ
    ∧ collectives (dist_rt σ') = S (S c).
Proof.
  intros Hg HW Hrank Ha Hp Hnea Hnep Hva Hvp W c m l PA PP Hwire.
  destruct (t_sizes ta) as [|Ba resta] eqn:Hsza; [done|].
  destruct (t_sizes tp) as [|Bp restp] eqn:Hszp; [done|].
  destruct (run_gathered_lists σ one anchors positives pg ta tp va vp)
    as (σ1 & Hrun1 & Ho1 & Hs1 & Hr1 & Hg1 & Hw1 & Hc1); [done..| |].
  { intros r Hr Hne. rewrite Hsza, Hszp. by apply Hwire. }
  fold W c m l PA PP in Hrun1, Ho1, Hs1.
  assert (∀ r, r < W → length (PA r) = torch.numel (t_sizes ta)) as HlenA.
  { intros r Hr. unfold PA, contribution. case_decide.
    - by eapply length_contents.
    - rewrite Hsza. by apply Hwire. }
  assert (∀ r, r < W → length (PP r) = torch.numel (t_sizes tp)) as HlenP.
  { intros r Hr. unfold PP, contribution. case_decide.
    - by eapply length_contents.
    - rewrite Hszp. by apply Hwire. }
  assert (objects σ1 !! anchors = Some ta) as Ha1
    by (rewrite Ho1; by apply lookup_app_l_Some).
  assert (objects σ1 !! positives = Some tp) as Hp1
    by (rewrite Ho1; by apply lookup_app_l_Some).
  assert (∀ i, i < W → objects σ1 !! (m + i) = Some (buffer (l + i) ta))
    as HbA
    by (intros i Hi; rewrite Ho1;
        exact (proj1 (lookup_seq_block (objects σ) _ _ W i Hi))).
  assert (∀ i, i < W →
            objects σ1 !! (m + W + i) = Some (buffer (l + W + i) tp))
    as HbP
    by (intros i Hi; rewrite Ho1;
        exact (proj2 (lookup_seq_block (objects σ) _ _ W i Hi))).
  assert (∀ i, i < W → storages σ1 !! (l + i) = Some (PA i)) as HsA
    by (intros i Hi; rewrite Hs1;
        exact (proj1 (lookup_seq_block (storages σ) _ _ W i Hi))).
  assert (∀ i, i < W → storages σ1 !! (l + W + i) = Some (PP i)) as HsP
    by (intros i Hi; rewrite Hs1;
        exact (proj2 (lookup_seq_block (storages σ) _ _ W i Hi))).
  assert (storages σ `prefix_of` storages σ1) as Hpre
    by (rewrite Hs1; by apply prefix_app_r).
  pose proof (contents_prefix _ _ _ _ Hpre Hva) as Hva1.
  pose proof (contents_prefix _ _ _ _ Hpre Hvp) as Hvp1.
  assert (length (objects σ1) = m + W + W) as Hlo1
    by (rewrite Ho1, !length_app, !length_fmap, !length_seq; unfold m; lia).
  assert (length (storages σ1) = l + W + W) as Hls1
    by (rewrite Hs1, !length_app, !length_fmap, !length_seq; unfold l; lia).
  pose proof (run_cat_gathered σ1 anchors ta va W (rank pg) m l PA Ba resta
                Hrank Ha1 Hva1) as HcatA.
  rewrite Hsza in HcatA. specialize (HcatA eq_refl HbA HsA).
  rewrite Hsza in HlenA. specialize (HcatA HlenA).
  cbv zeta in HcatA. specialize (HcatA ltac:(unfold PA, contribution;
                                         by rewrite decide_True)).
  rewrite Hlo1, Hls1 in HcatA.
  set (TA := gathered (l + W + W) W (rank pg) anchors ta).
  assert (Tensor (l + W + W) 0 (W * Ba :: resta)
            (torch.contiguous_strides (W * Ba :: resta)) (t_device ta)
            (if torch.has_history ta
             then Some (Backward "CatBackward"
                    (<[rank pg:=Some anchors]> (replicate W None)))
             else None) = TA) as HTA
    by (unfold TA, gathered; by rewrite Hsza).
  rewrite HTA in HcatA.
  set (σ2 := alloc σ1 [TA] [concat (PA <$> seq 0 W)]) in *.
  pose proof (run_cat_gathered σ2 positives tp vp W (rank pg) (m + W)
                (l + W) PP Bp restp Hrank) as HcatP.
  cbv zeta in HcatP.
  specialize (HcatP (objects_alloc_old σ1 _ _ _ _ Hp1)).
  specialize (HcatP ltac:(eapply contents_prefix; [|done];
                          by apply prefix_app_r)).
  rewrite Hszp in HcatP. specialize (HcatP eq_refl).
  specialize (HcatP (λ i Hi, objects_alloc_old σ1 _ _ _ _ (HbP i Hi))).
  specialize (HcatP (λ i Hi, storages_alloc_old σ1 _ _ _ _ (HsP i Hi))).
  rewrite Hszp in HlenP. specialize (HcatP HlenP).
  specialize (HcatP ltac:(unfold PP, contribution; by rewrite decide_True)).
  assert (length (objects σ2) = m + W + W + 1) as Hlo2
    by (unfold σ2; by rewrite length_objects_alloc, Hlo1).
  assert (length (storages σ2) = l + W + W + 1) as Hls2
    by (unfold σ2; by rewrite length_storages_alloc, Hls1).
  rewrite Hlo2, Hls2 in HcatP.
  set (TP := gathered (l + W + W + 1) W (rank pg) positives tp).
  assert (Tensor (l + W + W + 1) 0 (W * Bp :: restp)
            (torch.contiguous_strides (W * Bp :: restp)) (t_device tp)
            (if torch.has_history tp
             then Some (Backward "CatBackward"
                    (<[rank pg:=Some positives]> (replicate W None)))
             else None) = TP) as HTP
    by (unfold TP, gathered; by rewrite Hszp).
  rewrite HTP in HcatP.
  eexists. split_and!.
  - unfold all_gather_anchor_positive_pairs.
    step (run_get_world_size σ pg Hg).
    destruct (Z.ltb_spec (Z.of_nat (world_size pg)) 2) as [|_]; [lia|].
    step Hrun1. step HcatA. by step HcatP.
  - unfold σ2, alloc. simpl. by rewrite Ho1, <-(assoc_L (++) _ [TA] [TP]).
  - unfold σ2, alloc. simpl.
    by rewrite Hs1, <-(assoc_L (++) _ [concat _] [concat _]).
  - done.
  - exact Hc1.
Qed.
End gather_general.

Section gather_summary.
Context {A : Type}.
Implicit Types (σ : state A) (t : tensor).

Lemma length_contribution σ pg c t (v : list A) W r :
  torch.contents σ t = Some v →
  (∀ r, r < W → r ≠ rank pg →
     length (wire (dist_rt σ) c r) = torch.numel (t_sizes t)) →
  r < W →
  length (contribution σ pg c v r) = torch.numel (t_sizes t).
Proof.
  intros Hv Hwire Hr. unfold contribution. case_decide.
  - by eapply length_contents.
  - by apply Hwire.
Qed.

Lemma contents_gathered σ l W rk src t (P : nat → list A) :
  t_sizes t ≠ [] →
  storages σ !! l = Some (concat (P <$> seq 0 W)) →
  (∀ r, r < W → length (P r) = torch.numel (t_sizes t)) →
  torch.contents σ (gathered l W rk src t)
  = Some (concat (P <$> seq 0 W)).
Proof.
  intros Hne Hl Hlen. unfold gathered.
  apply contents_contiguous; [done|].
  rewrite (length_concat_same _ (torch.numel (t_sizes t))).
  - rewrite length_fmap, length_seq.
    destruct (t_sizes t) as [|B rest]; [done|]. simpl. lia.
  - apply Forall_forall.
    intros d (i & -> & [_ Hi]%elem_of_seq)%list_elem_of_fmap. by apply Hlen.
Qed.

(** What the multi-replica path returns: two new objects, each a
    contiguous tensor on a storage of its own that holds the contributions
    of the ranks one after the other. *)
Lemma gather_summary σ (one : A) anchors positives pg ta tp va vp :
  group (dist_rt σ) = Some pg →
  2 ≤ world_size pg → rank pg < world_size pg →
  objects σ !! anchors = Some ta → objects σ !! positives = Some tp →
  t_sizes ta ≠ [] → t_sizes tp ≠ [] →
  torch.contents σ ta = Some va → torch.contents σ tp = Some vp →
  let W := world_size pg in
  let c := collectives (dist_rt σ) in
  let m := length (objects σ) in
  let l := length (storages σ) in
  let PA := contribution σ pg c va in
  let PP := contribution σ pg (S c) vp in
  let TA := gathered (l + W + W) W (rank pg) anchors ta in
  let TP := gathered (l + W + W + 1) W (rank pg) positives tp in
  (∀ r, r < W → r ≠ rank pg →
     length (wire (dist_rt σ) c r) = torch.numel (t_sizes ta) ∧
     length (wire (dist_rt σ) (S c) r) = torch.numel (t_sizes tp)) →
  ∃ σ',
    all_gather_anchor_positive_pairs one anchors positives σ
    = (inr (m + W + W, m + W + W + 1), σ')
    ∧ objects σ' !! (m + W + W) = Some TA
    ∧ objects σ' !! (m + W + W + 1) = Some TP
    ∧ torch.contents σ' TA = Some (concat (PA <$> seq 0 W))
    ∧ torch.contents σ' TP = Some (concat (PP <$> seq 0 W))
    ∧ objects σ `prefix_of` objects σ'
    ∧ storages σ `prefix_of` storages σ'.
Proof.
  intros Hg HW Hrank Ha Hp Hnea Hnep Hva Hvp W c m l PA PP TA TP Hwire.
  destruct (run_all_gather_pairs σ one anchors positives pg ta tp va vp)
    as (σ' & Hrun & Ho & Hs & _ & _); [done..|].
  fold W c m l PA PP TA TP in Hrun, Ho, Hs.
  set (objs := objects σ ++ ((λ i, buffer (l + i) ta) <$> seq 0 W)
                 ++ ((λ i, buffer (l + W + i) tp) <$> seq 0 W)) in Ho.
  set (stos := storages σ ++ (PA <$> seq 0 W) ++ (PP <$> seq 0 W)) in Hs.
  assert (length objs = m + W + W) as Hlo
    by (unfold objs; rewrite !length_app, !length_fmap, !length_seq;
        unfold m; lia).
  assert (length stos = l + W + W) as Hls
    by (unfold stos; rewrite !length_app, !length_fmap, !length_seq;
        unfold l; lia).
  assert (storages σ' !! (l + W + W) = Some (concat (PA <$> seq 0 W)))
    as HsA.
  { rewrite Hs, lookup_app_r by lia.
    by replace (l + W + W - length stos) with 0 by lia. }
  assert (storages σ' !! (l + W + W + 1) = Some (concat (PP <$> seq 0 W)))
    as HsP.
  { rewrite Hs, lookup_app_r by lia.
    by replace (l + W + W + 1 - length stos) with 1 by lia. }
  exists σ'. split_and!; [done| | | | | |].
  - rewrite Ho, lookup_app_r by lia.
    by replace (m + W + W - length objs) with 0 by lia.
  - rewrite Ho, lookup_app_r by lia.
    by replace (m + W + W + 1 - length objs) with 1 by lia.
  - apply contents_gathered; [done|done|]. intros r Hr.
    apply (length_contribution σ pg c ta va W r); [done| |done].
    intros r' ? ?. by apply Hwire.
  - apply contents_gathered; [done|done|]. intros r Hr.
    apply (length_contribution σ pg (S c) tp vp W r); [done| |done].
    intros r' ? ?. by apply Hwire.
  - rewrite Ho. unfold objs. rewrite <-(assoc_L (++)). by apply prefix_app_r.
  - rewrite Hs. unfold stos. rewrite <-(assoc_L (++)). by apply prefix_app_r.
Qed.

(** The block of a rank in a concatenation of blocks of one length. *)
Lemma concat_block (P : nat → list A) W n r :
  (∀ i, i < W → length (P i) = n) → r < W →
  take n (drop (r * n) (concat (P <$> seq 0 W))) = P r.
Proof.
  intros Hlen Hr.
  assert (∀ k s, k + s ≤ W →
            drop (k * n) (concat (P <$> seq s (W - s)))
            = concat (P <$> seq (s + k) (W - s - k))) as Hdrop.
  { induction k as [|k IH]; intros s Hs.
    - by rewrite Nat.add_0_r, Nat.sub_0_r.
    - destruct (W - s) as [|d] eqn:Hd; [lia|]. simpl.
      rewrite drop_app_add'; [|symmetry; apply Hlen; lia].
      replace d with (W - S s) by lia. rewrite IH by lia.
      by replace (S s + k) with (s + S k) by lia. }
  specialize (Hdrop r 0). rewrite Nat.sub_0_r in Hdrop.
  rewrite Hdrop by lia. simpl.
  destruct (W - r) as [|d] eqn:Hd; [lia|]. simpl.
  by rewrite take_app_length' by (symmetry; apply Hlen; lia).
Qed.
End gather_summary.

Section gatherer_shapes.
Context {A : Type}.
Implicit Types (σ : state A) (t : tensor).

(** X8: with two or more replicas the gatherer asks of each input only
    that it have a leading dimension: the anchors and the positives need
    not be two-dimensional, nor have the sizes of each other.  Each result
    has the sizes of its input but for the leading one, which is
    multiplied by the world size, is on the device of its input, and holds
    the contributions of the ranks in rank order. *)
Theorem all_gather_concatenates_along_the_leading_dimension σ (one : A)
    anchors positives pg ta tp Ba Bp resta restp va vp :
  group (dist_rt σ) = Some pg →
  2 ≤ world_size pg → rank pg < world_size pg →
  objects σ !! anchors = Some ta → objects σ !! positives = Some tp →
  t_sizes ta = Ba :: resta → t_sizes tp = Bp :: restp →
  torch.contents σ ta = Some va → torch.contents σ tp = Some vp →
  let W := world_size pg in
  let c := collectives (dist_rt σ) in
  (∀ r, r < W → r ≠ rank pg →
     length (wire (dist_rt σ) c r) = torch.numel (Ba :: resta) ∧
     length (wire (dist_rt σ) (S c) r) = torch.numel (Bp :: restp)) →
  ∃ ra rp σ' ta' tp',
    all_gather_anchor_positive_pairs one anchors positives σ
    = (inr (ra, rp), σ')
    ∧ objects σ' !! ra = Some ta' ∧ objects σ' !! rp = Some tp'
    ∧ t_sizes ta' = W * Ba :: resta ∧ t_sizes tp' = W * Bp :: restp
    ∧ t_device ta' = t_device ta ∧ t_device tp' = t_device tp
    ∧ torch.contents σ' ta'
      = Some (concat (contribution σ pg c va <$> seq 0 W))
    ∧ torch.contents σ' tp'
      = Some (concat (contribution σ pg (S c) vp <$> seq 0 W)).
Proof.
  intros Hg HW Hrank Ha Hp Hsza Hszp Hva Hvp W c Hwire.
  destruct (gather_summary σ one anchors positives pg ta tp va vp)
    as (σ' & Hrun & Hra & Hrp & Hca & Hcp & _); [done..| | | | | |].
  - by rewrite Hsza.
  - by rewrite Hszp.
  - done.
  - done.
  - by rewrite Hsza, Hszp.
  - eexists _, _, σ', _, _.
    split_and!; [exact Hrun|exact Hra|exact Hrp| | |done|done|done|done].
    + unfold gathered. simpl. by rewrite Hsza.
    + unfold gathered. simpl. by rewrite Hszp.
Qed.

(** X10: in each result the rows of rank [r] are the [r]-th block: the
    elements from [r * k] on, [k] being the number of elements of the
    input, are what rank [r] contributed.  In particular the block at
    this replica's own rank holds the values of its input. *)
Theorem gathered_rows_are_in_rank_order σ (one : A)
    anchors positives pg ta tp va vp :
  group (dist_rt σ) = Some pg →
  2 ≤ world_size pg → rank pg < world_size pg →
  objects σ !! anchors = Some ta → objects σ !! positives = Some tp →
  t_sizes ta ≠ [] → t_sizes tp ≠ [] →
  torch.contents σ ta = Some va → torch.contents σ tp = Some vp →
  let W := world_size pg in
  let c := collectives (dist_rt σ) in
  let ka := torch.numel (t_sizes ta) in
  let kp := torch.numel (t_sizes tp) in
  (∀ r, r < W → r ≠ rank pg →
     length (wire (dist_rt σ) c r) = ka ∧
     length (wire (dist_rt σ) (S c) r) = kp) →
  ∃ ra rp σ' ta' tp' ga gp,
    all_gather_anchor_positive_pairs one anchors positives σ
    = (inr (ra, rp), σ')
    ∧ objects σ' !! ra = Some ta' ∧ objects σ' !! rp = Some tp'
    ∧ torch.contents σ' ta' = Some ga ∧ torch.contents σ' tp' = Some gp
    ∧ (∀ r, r < W → r ≠ rank pg →
         take ka (drop (r * ka) ga) = wire (dist_rt σ) c r ∧
         take kp (drop (r * kp) gp) = wire (dist_rt σ) (S c) r)
    ∧ take ka (drop (rank pg * ka) ga) = va
    ∧ take kp (drop (rank pg * kp) gp) = vp.
Proof.
  intros Hg HW Hrank Ha Hp Hnea Hnep Hva Hvp W c ka kp Hwire.
  destruct (gather_summary σ one anchors positives pg ta tp va vp)
    as (σ' & Hrun & Hra & Hrp & Hca & Hcp & _); [done..|].
  fold W c in Hca, Hcp.
  assert (∀ r, r < W → length (contribution σ pg c va r) = ka) as HlenA.
  { intros r Hr. apply (length_contribution σ pg c ta va W r); [done| |done].
    intros r' ? ?. by apply Hwire. }
  assert (∀ r, r < W → length (contribution σ pg (S c) vp r) = kp)
    as HlenP.
  { intros r Hr. apply (length_contribution σ pg (S c) tp vp W r);
      [done| |done].
    intros r' ? ?. by apply Hwire. }
  eexists _, _, σ', _, _, _, _.
  split_and!; [exact Hrun|exact Hra|exact Hrp|exact Hca|exact Hcp| | |].
  - intros r Hr Hne. rewrite !concat_block by done.
    unfold contribution. by rewrite !decide_False by done.
  - rewrite concat_block by done. unfold contribution.
    by rewrite decide_True.
  - rewrite concat_block by done. unfold contribution.
    by rewrite decide_True.
Qed.

Lemma fmap_contribution σ pg c (V : nat → list A) W :
  (∀ r, r < W → r ≠ rank pg → wire (dist_rt σ) c r = V r) →
  contribution σ pg c (V (rank pg)) <$> seq 0 W = V <$> seq 0 W.
Proof.
  intros Hwire. apply list_fmap_ext. intros i r [-> Hi]%lookup_seq.
  unfold contribution. case_decide as Heq; [by rewrite Heq|].
  by apply Hwire.
Qed.

(** What a replica of an exchange obtains does not mention its rank. *)
Lemma gather_in_exchange σ (one : A) W anchors positives sha shp Va Vp :
  2 ≤ W → sha ≠ [] → shp ≠ [] →
  (∀ r, r < W →
     length (Va r) = torch.numel sha ∧ length (Vp r) = torch.numel shp) →
  in_exchange σ W anchors positives sha shp Va Vp →
  ∃ ra rp σ' ta' tp',
    all_gather_anchor_positive_pairs one anchors positives σ
    = (inr (ra, rp), σ')
    ∧ objects σ' !! ra = Some ta' ∧ objects σ' !! rp = Some tp'
    ∧ t_sizes ta' = W * default 0 (head sha) :: tail sha
    ∧ t_sizes tp' = W * default 0 (head shp) :: tail shp
    ∧ torch.contents σ' ta' = Some (concat (Va <$> seq 0 W))
    ∧ torch.contents σ' tp' = Some (concat (Vp <$> seq 0 W)).
Proof.
  intros HW Hnea Hnep Hlen
    (pg & ta & tp & Hg & <- & Hrank & Ha & Hp & <- & <- & Hva & Hvp & Hwire).
  destruct (gather_summary σ one anchors positives pg ta tp
              (Va (rank pg)) (Vp (rank pg)))
    as (σ' & Hrun & Hra & Hrp & Hca & Hcp & _); [done..| |].
  { intros r Hr Hne. destruct (Hwire r Hr Hne) as [-> ->]. by apply Hlen. }
  rewrite fmap_contribution in Hca by (intros r ? ?; by apply Hwire).
  rewrite fmap_contribution in Hcp by (intros r ? ?; by apply Hwire).
  by eexists _, _, σ', _, _.
Qed.

(** X9: two replicas of one exchange, whatever their ranks, obtain
    tensors of the same sizes holding the same values: the anchors of all
    ranks in rank order, and likewise the positives. *)
Theorem replicas_gather_the_same_batch σ1 σ2 (one : A) W
    anchors1 positives1 anchors2 positives2 sha shp Va Vp :
  2 ≤ W → sha ≠ [] → shp ≠ [] →
  (∀ r, r < W →
     length (Va r) = torch.numel sha ∧ length (Vp r) = torch.numel shp) →
  in_exchange σ1 W anchors1 positives1 sha shp Va Vp →
  in_exchange σ2 W anchors2 positives2 sha shp Va Vp →
  ∃ ra1 rp1 σ1' ta1 tp1 ra2 rp2 σ2' ta2 tp2,
    all_gather_anchor_positive_pairs one anchors1 positives1 σ1
    = (inr (ra1, rp1), σ1')
    ∧ all_gather_anchor_positive_pairs one anchors2 positives2 σ2
      = (inr (ra2, rp2), σ2')
    ∧ objects σ1' !! ra1 = Some ta1 ∧ objects σ1' !! rp1 = Some tp1
    ∧ objects σ2' !! ra2 = Some ta2 ∧ objects σ2' !! rp2 = Some tp2
    ∧ t_sizes ta1 = t_sizes ta2 ∧ t_sizes tp1 = t_sizes tp2
    ∧ torch.contents σ1' ta1 = Some (concat (Va <$> seq 0 W))
    ∧ torch.contents σ2' ta2 = Some (concat (Va <$> seq 0 W))
    ∧ torch.contents σ1' tp1 = Some (concat (Vp <$> seq 0 W))
    ∧ torch.contents σ2' tp2 = Some (concat (Vp <$> seq 0 W)).
Proof.
  intros HW Hnea Hnep Hlen H1 H2.
  destruct (gather_in_exchange σ1 one W anchors1 positives1 sha shp Va Vp)
    as (ra1 & rp1 & σ1' & ta1 & tp1 & Hrun1 & ? & ? & Hsa1 & Hsp1 & ? & ?);
    [done..|].
  destruct (gather_in_exchange σ2 one W anchors2 positives2 sha shp Va Vp)
    as (ra2 & rp2 & σ2' & ta2 & tp2 & Hrun2 & ? & ? & Hsa2 & Hsp2 & ? & ?);
    [done..|].
  exists ra1, rp1, σ1', ta1, tp1, ra2, rp2, σ2', ta2, tp2.
  split_and!; [done..|congruence|congruence|done|done|done|done].
Qed.
End gatherer_shapes.

(** ** Results that share no storage with what was there *)

Section copies.
Context {A : Type}.
Implicit Types (σ : state A) (t : tensor).

Lemma valid_view_storage σ t a :
  valid_view σ t → a ∈ torch.footprint t →
  t_storage t < length (storages σ).
Proof.
  intros Hv (idx & _ & Hidx%elem_of_indices)%list_elem_of_fmap.
  destruct (valid_view_peek σ t idx Hv Hidx) as [x Hx].
  unfold torch.peek in Hx.
  destruct (storages σ !! t_storage t) as [s|] eqn:Hs; [|done].
  by eapply lookup_lt_Some.
Qed.

(** A tensor on a storage allocated after [σ] and a tensor that was valid
    in [σ] have no cell in common: an in-place write to either leaves the
    other as it was. *)
Lemma fresh_storage_frame σ σ' r t rb tb :
  objects σ `prefix_of` objects σ' →
  storages σ `prefix_of` storages σ' →
  objects σ !! r = Some t → valid_view σ t →
  objects σ' !! rb = Some tb →
  length (storages σ) ≤ t_storage tb →
  (∀ data out σ'', torch.copy_ rb data σ' = (out, σ'') →
     torch.contents σ'' t = torch.contents σ t)
  ∧ (∀ data out σ'', torch.copy_ r data σ' = (out, σ'') →
       torch.contents σ'' tb = torch.contents σ' tb).
Proof.
  intros Ho Hs Hr Hv Hrb Hfresh.
  assert (torch.contents σ' t = torch.contents σ t) as Hsame.
  { destruct Hv as [v Hv]. rewrite Hv. by eapply contents_prefix. }
  split.
  - intros data out σ'' Hcopy. rewrite <-Hsame.
    eapply copy_frame; [exact Hrb| |exact Hcopy].
    intros Heq a _ Hin%(valid_view_storage σ _ _ Hv). lia.
  - intros data out σ'' Hcopy.
    eapply copy_frame; [|  |exact Hcopy].
    + by eapply prefix_lookup_Some.
    + intros Heq a Hin%(valid_view_storage σ _ _ Hv). lia.
Qed.
End copies.

Section copies_claims.
Context {A : Type}.
Implicit Types (σ : state A) (t : tensor).

(** X5: the tensors the sampler returns are copies, not views of its
    input: each is on a storage allocated by the call, so an in-place
    write to a returned tensor leaves every tensor that was valid before
    the call, the input included, with the values it held, and an
    in-place write to such a tensor leaves the returned one as it was. *)
Theorem sampled_tensors_are_copies σ (tokens : TextFieldTensors) B n :
  field_tensor_set σ tokens B n → 2 ≤ n →
  ∃ anchors positives σ',
    sample_anchor_positive_pairs tokens σ = (inr (anchors, positives), σ')
    ∧ ∀ name rb tb r t,
        name ∈ sub_fields →
        lookup_subfield anchors name = Some rb
        ∨ lookup_subfield positives name = Some rb →
        objects σ' !! rb = Some tb →
        objects σ !! r = Some t → valid_view σ t →
        length (storages σ) ≤ t_storage tb
        ∧ (∀ data out σ'', torch.copy_ rb data σ' = (out, σ'') →
             torch.contents σ'' t = torch.contents σ t)
        ∧ (∀ data out σ'', torch.copy_ r data σ' = (out, σ'') →
             torch.contents σ'' tb = torch.contents σ' tb).
Proof.
  intros Hfts Hn.
  destruct (sample_summary σ tokens B n Hfts Hn)
    as (i0 & i1 & k0 & anchors & positives & ts & ds & _ & _ & _ & _
        & Hrun & _ & _ & Hsub).
  set (σ' := alloc (advance k0 σ) ts ds) in *.
  exists anchors, positives, σ'. split; [done|].
  intros name rb tb r t Hname Hrb Htb Hr Hv.
  destruct (Hsub name Hname)
    as (r0 & t0 & rest0 & ra & rp & rs & rc0 & rc1 & d & _ & _ & _ & _
        & Hla & Hlp & Hra & Hrp & _ & _).
  assert (length (storages σ) ≤ t_storage tb) as Hfresh.
  { destruct Hrb as [Hrb|Hrb].
    - assert (rb = ra) as -> by congruence.
      rewrite Hra in Htb. injection Htb as <-. rewrite sampled_storage. lia.
    - assert (rb = rp) as -> by congruence.
      rewrite Hrp in Htb. injection Htb as <-. rewrite sampled_storage. lia. }
  split; [done|].
  apply (fresh_storage_frame σ σ' r t rb tb); try done.
  - by apply prefix_app_r.
  - by apply prefix_app_r.
Qed.

(** X12: with two or more replicas the tensors the gatherer returns are
    new objects on storages of their own, while on the no-op path they
    are the input objects themselves.  So an in-place write to a gathered
    tensor leaves the inputs, and every tensor that was valid before the
    call, with the values they held, and the other gathered tensor as it
    was; an in-place write to an input leaves the gathered tensors as
    they were. *)
Theorem gathered_tensors_are_copies σ (one : A)
    anchors positives pg ta tp va vp :
  group (dist_rt σ) = Some pg →
  2 ≤ world_size pg → rank pg < world_size pg →
  objects σ !! anchors = Some ta → objects σ !! positives = Some tp →
  t_sizes ta ≠ [] → t_sizes tp ≠ [] →
  torch.contents σ ta = Some va → torch.contents σ tp = Some vp →
  (∀ r, r < world_size pg → r ≠ rank pg →
     length (wire (dist_rt σ) (collectives (dist_rt σ)) r)
     = torch.numel (t_sizes ta) ∧
     length (wire (dist_rt σ) (S (collectives (dist_rt σ))) r)
     = torch.numel (t_sizes tp)) →
  ∃ ra rp σ' ta' tp',
    all_gather_anchor_positive_pairs one anchors positives σ
    = (inr (ra, rp), σ')
    ∧ objects σ' !! ra = Some ta' ∧ objects σ' !! rp = Some tp'
    ∧ length (objects σ) ≤ ra ∧ length (objects σ) ≤ rp ∧ ra ≠ rp
    ∧ (∀ data out σ'', torch.copy_ ra data σ' = (out, σ'') →
         torch.contents σ'' tp' = torch.contents σ' tp')
    ∧ (∀ data out σ'', torch.copy_ rp data σ' = (out, σ'') →
         torch.contents σ'' ta' = torch.contents σ' ta')
    ∧ ∀ rb tb r t,
        rb = ra ∧ tb = ta' ∨ rb = rp ∧ tb = tp' →
        objects σ !! r = Some t → valid_view σ t →
        (∀ data out σ'', torch.copy_ rb data σ' = (out, σ'') →
           torch.contents σ'' t = torch.contents σ t)
        ∧ (∀ data out σ'', torch.copy_ r data σ' = (out, σ'') →
             torch.contents σ'' tb = torch.contents σ' tb).
Proof.
  intros Hg HW Hrank Ha Hp Hnea Hnep Hva Hvp Hwire.
  destruct (gather_summary σ one anchors positives pg ta tp va vp)
    as (σ' & Hrun & Hra & Hrp & _ & _ & Ho & Hs); [done..|].
  set (W := world_size pg) in *.
  set (m := length (objects σ)) in *.
  set (l := length (storages σ)) in *.
  eexists _, _, σ', _, _.
  split_and!; [exact Hrun|exact Hra|exact Hrp|lia|lia|lia| | |].
  - intros data out σ'' Hcopy.
    eapply copy_frame; [exact Hra| |exact Hcopy].
    unfold gathered. simpl. lia.
  - intros data out σ'' Hcopy.
    eapply copy_frame; [exact Hrp| |exact Hcopy].
    unfold gathered. simpl. lia.
  - intros rb tb r t [[-> ->]|[-> ->]] Hr Hv.
    + apply (fresh_storage_frame σ σ' r t); try done.
      unfold gathered. simpl. unfold l. lia.
    + apply (fresh_storage_frame σ σ' r t); try done.
      unfold gathered. simpl. unfold l. lia.
Qed.
End copies_claims.

(** ** Repeated calls, and the world size *)

Section repeated_calls.
Context {A : Type}.
Implicit Types (σ : state A) (t : tensor).

Lemma field_tensor_set_grows σ σ' (tokens : TextFieldTensors) B n :
  grows σ σ' → field_tensor_set σ tokens B n →
  field_tensor_set σ' tokens B n.
Proof.
  intros Hg [dev H]. exists dev. intros name Hname.
  destruct (H name Hname) as (r & t & rest & Hl & Hr & Hsz & Hd & [v Hv]).
  exists r, t, rest. split_and!; [done| |done|done|].
  - by eapply grows_objects_lookup.
  - exists v. by eapply grows_contents.
Qed.

(** X6: a batch stays a Field Tensor Set across calls of the sampler,
    whatever they are applied to and whether they return or raise.  So
    the sampler can be called again on the batch it was called on: with
    two or more spans both calls return, each leaves the random source as
    its own call of [random.sample] left it, the second sampling starts
    where the first one stopped, and four or more draws have been made in
    all (exactly four with at most 21 spans, where [random.sample] never
    draws again). *)
Theorem sample_can_be_repeated σ (tokens : TextFieldTensors) B n :
  field_tensor_set σ tokens B n →
  (∀ tokens' : TextFieldTensors,
     field_tensor_set (sample_anchor_positive_pairs tokens' σ).2 tokens B n)
  ∧ (2 ≤ n →
     ∃ a1 p1 σ1 a2 p2 σ2 drawn1 σs1 drawn2 σs2,
       sample_anchor_positive_pairs tokens σ = (inr (a1, p1), σ1)
       ∧ sample_anchor_positive_pairs tokens σ1 = (inr (a2, p2), σ2)
       ∧ random.sample (seq 0 n) 2 σ = (inr drawn1, σs1)
       ∧ rng σ1 = rng σs1
       ∧ random.sample (seq 0 n) 2 σ1 = (inr drawn2, σs2)
       ∧ rng σ2 = rng σs2
       ∧ entropy (rng σ2) = entropy (rng σ)
       ∧ cursor (rng σ) + 4 ≤ cursor (rng σ2)
       ∧ (n ≤ 21 → cursor (rng σ2) = cursor (rng σ) + 4)).
Proof.
  intros Hfts. split.
  - intros tokens'. eapply field_tensor_set_grows; [|done].
    apply only_allocates_sample_anchor_positive_pairs.
  - intros Hn.
    destruct (sample_summary σ tokens B n Hfts Hn)
      as (i0 & i1 & k1 & a1 & p1 & ts1 & ds1 & Hdraw1 & _ & _ & _
          & Hrun1 & _).
    set (σ1 := alloc (advance k1 σ) ts1 ds1) in *.
    assert (field_tensor_set σ1 tokens B n) as Hfts1.
    { eapply field_tensor_set_grows; [|done].
      pose proof (only_allocates_sample_anchor_positive_pairs tokens σ) as H.
      by rewrite Hrun1 in H. }
    destruct (sample_summary σ1 tokens B n Hfts1 Hn)
      as (j0 & j1 & k2 & a2 & p2 & ts2 & ds2 & Hdraw2 & _ & _ & _
          & Hrun2 & _).
    destruct (run_sample_pair n σ Hn)
      as (? & ? & d1 & Hpair1 & _ & _ & _ & Hd1).
    destruct (run_sample_pair n σ1 Hn)
      as (? & ? & d2 & Hpair2 & _ & _ & _ & Hd2).
    assert (k1 + cursor (rng σ) = d1 + cursor (rng σ)) as Hk1.
    { rewrite Hdraw1 in Hpair1. by injection Hpair1 as _ _ Heq. }
    assert (k2 + cursor (rng σ1) = d2 + cursor (rng σ1)) as Hk2.
    { rewrite Hdraw2 in Hpair2. by injection Hpair2 as _ _ Heq. }
    exists a1, p1, σ1, a2, p2, (alloc (advance k2 σ1) ts2 ds2),
      [i0; i1], (advance k1 σ), [j0; j1], (advance k2 σ1).
    split_and!; try done.
    + simpl in *. lia.
    + intros Hsmall. simpl in *.
      pose proof (run_sample_pool n σ Hn Hsmall) as Hp1.
      pose proof (run_sample_pool n σ1 Hn Hsmall) as Hp2.
      rewrite Hdraw1 in Hp1. injection Hp1 as _ _ Heq1.
      rewrite Hdraw2 in Hp2. injection Hp2 as _ _ Heq2.
      simpl in *. lia.
Qed.
End repeated_calls.

Section world_size.
Context {A : Type}.
Implicit Types (σ : state A) (t : tensor).

(** X1: [get_world_size] leaves the state as it was.  With a process
    group it returns the group's world size.  Without one the library
    raises its error for a runtime that was never initialised, and the
    handler of line 15 takes an [AssertionError] only: the function
    returns -1 when the library raises that, and raises the library's
    error otherwise.  What it returns is below 2 exactly when the process
    is not one of two or more replicas. *)
Theorem get_world_size_outcomes σ :
  get_world_size σ
  = (match group (dist_rt σ) with
     | Some pg => inr (Z.of_nat (world_size pg))
     | None =>
       if decide (not_initialized (dist_rt σ) = AssertionError)
       then inr (-1)%Z else inl (not_initialized (dist_rt σ))
     end, σ)
  ∧ (∀ w, (get_world_size σ).1 = inr w →
       (w = (-1)%Z ↔ group (dist_rt σ) = None)
       ∧ (w <? 2)%Z = negb (multi_replica σ)).
Proof.
  unfold multi_replica. destruct (group (dist_rt σ)) as [pg|] eqn:Hg.
  - rewrite (run_get_world_size σ pg Hg). split; [done|].
    intros w [= <-]. split; [split; [lia|done]|].
    destruct (Z.ltb_spec (Z.of_nat (world_size pg)) 2),
      (Nat.leb_spec 2 (world_size pg)); simpl; lia.
  - case_decide as He.
    + rewrite (run_get_world_size_uninit σ Hg He). split; [done|].
      by intros w [= <-].
    + rewrite (run_get_world_size_uncaught σ Hg He). split; [done|].
      intros w [=].
Qed.
End world_size.

(** ** Inputs without dimensions *)

Section scalars.
Context {A : Type}.
Implicit Types (σ : state A) (t : tensor).

(** [torch.cat] refuses a list that starts with a tensor without
    dimensions. *)
Lemma run_cat_scalar σ refs t0 ts :
  Forall2 (λ r t, objects σ !! r = Some t) refs (t0 :: ts) →
  t_sizes t0 = [] →
  torch.cat refs σ = (inl RuntimeError, σ).
Proof.
  intros Hrefs Hsz. unfold torch.cat.
  step (run_mapM_deref _ _ σ Hrefs).
  apply run_bind_raise. cbn [forallb].
  rewrite bool_decide_eq_false_2; [done|].
  rewrite Hsz. by intros (_ & ? & _).
Qed.

(** X13: tensors without dimensions cannot be gathered.  With two or
    more replicas and an anchors tensor that has no dimension, the
    buffers are allocated and both collectives take place, and then the
    concatenation raises a [RuntimeError]; on the no-op path the same
    inputs are returned as they are. *)
Theorem all_gather_rejects_tensors_without_dimensions σ (one : A)
    anchors positives pg ta tp va vp :
  group (dist_rt σ) = Some pg →
  2 ≤ world_size pg → rank pg < world_size pg →
  objects σ !! anchors = Some ta → objects σ !! positives = Some tp →
  t_sizes ta = [] →
  torch.contents σ ta = Some va → torch.contents σ tp = Some vp →
  (∀ r, r < world_size pg → r ≠ rank pg →
     length (wire (dist_rt σ) (collectives (dist_rt σ)) r) = 1 ∧
     length (wire (dist_rt σ) (S (collectives (dist_rt σ))) r)
     = torch.numel (t_sizes tp)) →
  ∃ σ',
    all_gather_anchor_positive_pairs one anchors positives σ
    = (inl RuntimeError, σ')
    ∧ collectives (dist_rt σ') = collectives (dist_rt σ) + 2
    ∧ length (objects σ') = length (objects σ) + 2 * world_size pg.
Proof.
  intros Hg HW Hrank Ha Hp Hsza Hva Hvp Hwire.
  set (W := world_size pg) in *.
  set (m := length (objects σ)). set (l := length (storages σ)).
  destruct (run_gathered_lists σ one anchors positives pg ta tp va vp)
    as (σ1 & Hrun1 & Ho1 & _ & _ & _ & _ & Hc1); [done..| |].
  { intros r Hr Hne. rewrite Hsza. by apply Hwire. }
  fold W m l in Hrun1, Ho1.
  exists σ1. split_and!.
  - unfold all_gather_anchor_positive_pairs.
    step (run_get_world_size σ pg Hg).
    destruct (Z.ltb_spec (Z.of_nat (world_size pg)) 2) as [|_]; [lia|].
    step Hrun1. apply run_bind_raise.
    destruct W as [|W'] eqn:HW'; [lia|].
    destruct (<[rank pg := ta]> ((λ i, buffer (l + i) ta) <$> seq 0 (S W')))
      as [|t0 ts] eqn:Hts.
    { apply (f_equal length) in Hts.
      by rewrite length_insert, length_fmap, length_seq in Hts. }
    apply (run_cat_scalar σ1 _ t0 ts).
    + rewrite <-Hts. apply Forall2_insert.
      * apply Forall2_seq_fmap. intros i Hi. rewrite Ho1.
        exact (proj1 (lookup_seq_block (objects σ) _ _ (S W') i Hi)).
      * rewrite Ho1. by apply lookup_app_l_Some.
    + destruct (rank pg) as [|rk]; simpl in Hts.
      * by injection Hts as <- _.
      * injection Hts as <- _. done.
  - rewrite Hc1. lia.
  - rewrite Ho1, !length_app, !length_fmap, !length_seq. unfold m. lia.
Qed.
End scalars.

(** ** The further properties at concrete inputs *)

Lemma sample_rejects_token_ids_without_span_dimension_witness :
  sample_anchor_positive_pairs tokens_without_mask flat_state
  = (inl IndexError, flat_state).
Proof.
  apply (sample_rejects_token_ids_without_span_dimension flat_state
           tokens_without_mask 0 (Tensor 0 0 [6] [1] cpu None));
    [reflexivity|reflexivity|simpl; lia].
Defined.

Lemma sample_rejects_sub_fields_on_another_device_witness :
  ∃ σ', sample_anchor_positive_pairs three_span_tokens two_device_state
        = (inl RuntimeError, σ').
Proof.
  destruct (sample_rejects_sub_fields_on_another_device two_device_state
              three_span_tokens 0 1 2
              (Tensor 0 0 [2; 3; 2] [6; 2; 1] cpu None)
              (Tensor 1 0 [2; 3; 2] [6; 2; 1] (cuda 0) None)
              (Tensor 2 0 [2; 3; 2] [6; 2; 1] cpu None)
              3 2 2 2 [2] [2] [2])
    as (drawn & σs & σ' & _ & Hrun & _).
  - split_and!; try reflexivity. eexists. vm_compute. reflexivity.
  - split_and!; try reflexivity. eexists. vm_compute. reflexivity.
  - split_and!; try reflexivity. eexists. vm_compute. reflexivity.
  - lia.
  - left. discriminate.
  - exists σ'. exact Hrun.
Defined.

Lemma sample_checks_span_counts_by_the_drawn_indices_witness :
  (sample_anchor_positive_pairs three_span_tokens ragged_state).1
  = inl RuntimeError
  ∧ ∃ anchors positives σ',
      sample_anchor_positive_pairs three_span_tokens tame_state
      = (inr (anchors, positives), σ').
Proof.
  split.
  - apply (sample_checks_span_counts_by_the_drawn_indices ragged_state
             three_span_tokens 0 1 2
             (Tensor 0 0 [2; 3; 2] [6; 2; 1] cpu None)
             (Tensor 1 0 [2; 2; 2] [4; 2; 1] cpu None)
             (Tensor 2 0 [2; 3; 2] [6; 2; 1] cpu None)
             3 2 3 2 2 2 [2] [2] [2] 2 1 (advance 2 ragged_state)).
    + split_and!; try reflexivity. eexists. vm_compute. reflexivity.
    + split_and!; try reflexivity. eexists. vm_compute. reflexivity.
    + split_and!; try reflexivity. eexists. vm_compute. reflexivity.
    + reflexivity.
    + reflexivity.
    + lia.
    + reflexivity.
  - destruct (sample_checks_span_counts_by_the_drawn_indices tame_state
                three_span_tokens 0 1 2
                (Tensor 0 0 [2; 3; 2] [6; 2; 1] cpu None)
                (Tensor 1 0 [2; 2; 2] [4; 2; 1] cpu None)
                (Tensor 2 0 [2; 3; 2] [6; 2; 1] cpu None)
                3 2 3 2 2 2 [2] [2] [2] 0 1 (advance 2 tame_state))
      as (anchors & positives & σ' & Hrun & _).
    + split_and!; try reflexivity. eexists. vm_compute. reflexivity.
    + split_and!; try reflexivity. eexists. vm_compute. reflexivity.
    + split_and!; try reflexivity. eexists. vm_compute. reflexivity.
    + reflexivity.
    + reflexivity.
    + lia.
    + reflexivity.
    + exists anchors, positives, σ'. exact Hrun.
Defined.

Lemma sampled_tensors_are_copies_witness :
  ∃ anchors positives σ',
    sample_anchor_positive_pairs three_span_tokens three_span_state
    = (inr (anchors, positives), σ').
Proof.
  destruct (sampled_tensors_are_copies three_span_state three_span_tokens
              2 3 three_span_tokens_valid ltac:(lia))
    as (anchors & positives & σ' & Hrun & _).
  exists anchors, positives, σ'. exact Hrun.
Defined.

Lemma sample_can_be_repeated_witness :
  ∃ a1 p1 σ1 a2 p2 σ2,
    sample_anchor_positive_pairs three_span_tokens three_span_state
    = (inr (a1, p1), σ1)
    ∧ sample_anchor_positive_pairs three_span_tokens σ1
      = (inr (a2, p2), σ2)
    ∧ cursor (rng σ2) = 4.
Proof.
  destruct (sample_can_be_repeated three_span_state three_span_tokens
              2 3 three_span_tokens_valid) as [_ H].
  destruct (H ltac:(lia))
    as (a1 & p1 & σ1 & a2 & p2 & σ2 & drawn1 & σs1 & drawn2 & σs2
        & Hrun1 & Hrun2 & _ & _ & _ & _ & _ & _ & Hfour).
  exists a1, p1, σ1, a2, p2, σ2.
  split; [exact Hrun1|split; [exact Hrun2|]].
  apply Hfour. lia.
Defined.

Lemma all_gather_concatenates_along_the_leading_dimension_witness :
  ∃ ra rp σ' ta' tp',
    all_gather_anchor_positive_pairs 1%Z 0 1 mixed_replica_state
    = (inr (ra, rp), σ')
    ∧ objects σ' !! ra = Some ta' ∧ objects σ' !! rp = Some tp'
    ∧ t_sizes ta' = [2 * 2; 2] ∧ t_sizes tp' = [2 * 3]
    ∧ torch.contents σ' tp' = Some [5; 6; 7; 110; 110; 110]%Z.
Proof.
  destruct (all_gather_concatenates_along_the_leading_dimension
              mixed_replica_state 1%Z 0 1 (ProcessGroup 2 0)
              (Tensor 0 0 [2; 2] [2; 1] cpu None)
              (Tensor 1 0 [3] [1] cpu None)
              2 3 [2] [] [1; 2; 3; 4]%Z [5; 6; 7]%Z)
    as (ra & rp & σ' & ta' & tp' & Hrun & Hra & Hrp & Hsa & Hsp & _ & _
        & _ & Hcp);
    [reflexivity|simpl; lia|simpl; lia|reflexivity|reflexivity
    |reflexivity|reflexivity|reflexivity|reflexivity
    |intros r _ _; split; reflexivity|].
  exists ra, rp, σ', ta', tp'.
  split; [exact Hrun|split; [exact Hra|split; [exact Hrp|]]].
  split; [exact Hsa|split; [exact Hsp|exact Hcp]].
Defined.

Lemma replica_state_in_exchange :
  in_exchange replica_state 3 0 1 [2; 2] [2; 2]
    batch_anchors batch_positives.
Proof.
  exists (ProcessGroup 3 1),
    (Tensor 0 0 [2; 2] [2; 1] cpu (Some (Produced 7))),
    (Tensor 1 0 [2; 2] [2; 1] cpu (Some (Produced 8))).
  split_and!; try reflexivity; [simpl; lia|].
  intros [|[|[|r]]] Hr Hne; simpl in Hr, Hne;
    [split; reflexivity|congruence|split; reflexivity|lia].
Defined.

Lemma peer_state_in_exchange :
  in_exchange peer_state 3 0 1 [2; 2] [2; 2] batch_anchors batch_positives.
Proof.
  exists (ProcessGroup 3 0), (Tensor 0 0 [2; 2] [2; 1] cpu None),
    (Tensor 1 0 [2; 2] [2; 1] cpu None).
  split_and!; try reflexivity; [simpl; lia|].
  intros r _ _. split; reflexivity.
Defined.

Lemma replicas_gather_the_same_batch_witness :
  ∃ ra1 rp1 σ1' ta1 ra2 rp2 σ2' ta2,
    all_gather_anchor_positive_pairs 1%Z 0 1 replica_state
    = (inr (ra1, rp1), σ1')
    ∧ all_gather_anchor_positive_pairs 1%Z 0 1 peer_state
      = (inr (ra2, rp2), σ2')
    ∧ objects σ1' !! ra1 = Some ta1 ∧ objects σ2' !! ra2 = Some ta2
    ∧ torch.contents σ1' ta1
      = Some [0; 0; 0; 0; 1; 2; 3; 4; 20; 20; 20; 20]%Z
    ∧ torch.contents σ2' ta2
      = Some [0; 0; 0; 0; 1; 2; 3; 4; 20; 20; 20; 20]%Z.
Proof.
  destruct (replicas_gather_the_same_batch replica_state peer_state 1%Z 3
              0 1 0 1 [2; 2] [2; 2] batch_anchors batch_positives)
    as (ra1 & rp1 & σ1' & ta1 & tp1 & ra2 & rp2 & σ2' & ta2 & tp2
        & Hrun1 & Hrun2 & Hra1 & _ & Hra2 & _ & _ & _ & Hc1 & Hc2 & _);
    [lia|discriminate|discriminate
    |intros [|[|[|r]]] Hr; [split; reflexivity..|lia]
    |exact replica_state_in_exchange|exact peer_state_in_exchange|].
  exists ra1, rp1, σ1', ta1, ra2, rp2, σ2', ta2.
  split; [exact Hrun1|split; [exact Hrun2|split; [exact Hra1|]]].
  split; [exact Hra2|split; [exact Hc1|exact Hc2]].
Defined.

Lemma gathered_rows_are_in_rank_order_witness :
  ∃ ra rp σ' ta' ga,
    all_gather_anchor_positive_pairs 1%Z 0 1 replica_state
    = (inr (ra, rp), σ')
    ∧ objects σ' !! ra = Some ta'
    ∧ torch.contents σ' ta' = Some ga
    ∧ take 4 (drop (1 * 4) ga) = [1; 2; 3; 4]%Z.
Proof.
  destruct (gathered_rows_are_in_rank_order replica_state 1%Z 0 1
              (ProcessGroup 3 1)
              (Tensor 0 0 [2; 2] [2; 1] cpu (Some (Produced 7)))
              (Tensor 1 0 [2; 2] [2; 1] cpu (Some (Produced 8)))
              [1; 2; 3; 4]%Z [5; 6; 7; 8]%Z)
    as (ra & rp & σ' & ta' & tp' & ga & gp & Hrun & Hra & _ & Hca & _ & _
        & Hown & _);
    [reflexivity|simpl; lia|simpl; lia|reflexivity|reflexivity
    |discriminate|discriminate|reflexivity|reflexivity
    |intros r _ _; split; reflexivity|].
  exists ra, rp, σ', ta', ga.
  split; [exact Hrun|split; [exact Hra|split; [exact Hca|exact Hown]]].
Defined.

Lemma gathered_tensors_are_copies_witness :
  ∃ ra rp σ',
    all_gather_anchor_positive_pairs 1%Z 0 1 replica_state
    = (inr (ra, rp), σ')
    ∧ 2 ≤ ra ∧ 2 ≤ rp ∧ ra ≠ rp.
Proof.
  destruct (gathered_tensors_are_copies replica_state 1%Z 0 1
              (ProcessGroup 3 1)
              (Tensor 0 0 [2; 2] [2; 1] cpu (Some (Produced 7)))
              (Tensor 1 0 [2; 2] [2; 1] cpu (Some (Produced 8)))
              [1; 2; 3; 4]%Z [5; 6; 7; 8]%Z)
    as (ra & rp & σ' & ta' & tp' & Hrun & _ & _ & Hfa & Hfp & Hne & _);
    [reflexivity|simpl; lia|simpl; lia|reflexivity|reflexivity
    |discriminate|discriminate|reflexivity|reflexivity
    |intros r _ _; split; reflexivity|].
  exists ra, rp, σ'.
  split; [exact Hrun|split; [exact Hfa|split; [exact Hfp|exact Hne]]].
Defined.

Lemma all_gather_rejects_tensors_without_dimensions_witness :
  ∃ σ',
    all_gather_anchor_positive_pairs 1%Z 0 1 scalar_replica_state
    = (inl RuntimeError, σ')
    ∧ collectives (dist_rt σ') = 2.
Proof.
  destruct (all_gather_rejects_tensors_without_dimensions
              scalar_replica_state 1%Z 0 1 (ProcessGroup 2 0)
              (Tensor 0 0 [] [] cpu None) (Tensor 1 0 [] [] cpu None)
              [7]%Z [8]%Z)
    as (σ' & Hrun & Hc & _);
    [reflexivity|simpl; lia|simpl; lia|reflexivity|reflexivity
    |reflexivity|reflexivity|reflexivity
    |intros r _ _; split; reflexivity|].
  exists σ'. split; [exact Hrun|exact Hc].
Defined.
